(** * resourceLib: the EPICS resource table (linear hashing) and its identifiers

    A shallow embedding of [src/libCom/cxxTemplates/resourceLib.h]:
    the template class [resTable<T,ID>] with its incremental bucket split,
    the integer identifiers [intId] / [chronIntId], the auto-numbering table
    [chronIntIdResTable] and the string identifier [stringId].

    Platform assumptions: [unsigned] and [int] are 32 bits wide, [CHAR_BIT]
    is 8 and [size_t] ([resTableIndex]) is 64 bits wide.
    Values of type [unsigned] are integers in [0, 2^32); every arithmetic
    operation of the source that can leave that range is wrapped with
    [u32]. Arithmetic in [int] that leaves the range of [int] is undefined.
    The one exception is the shift [1 << 31], whose result is the value
    2^31 once it is converted to [unsigned], as it is where the source uses
    it in [setTableSizePrivate].  *)

From Stdlib Require Import ZArith Lia.
From Stdlib.Strings Require Import Byte.
From stdpp Require Import base tactics option list numbers.

Local Open Scope Z_scope.

(** ** Machine integers *)

Definition UINT_WIDTH : Z := 32.
Definition UINT_MAX : Z := 2 ^ UINT_WIDTH - 1.

(** The width of [size_t], the type behind [resTableIndex]. *)
Definition SIZE_WIDTH : Z := 64.

(** Reduction of an integer to the range of [unsigned]. *)
Definition u32 (x : Z) : Z := x mod 2 ^ UINT_WIDTH.

(** ** Results of the operations

    An operation of the table either returns, or lets the exception of a
    failed [operator new] escape ([Throws]), or executes a construct whose
    behaviour C++ leaves undefined ([Undefined]: a shift of an integer by its
    width or more, an overflow in [int], a bucket access through the null
    table, a read through the null pointer or past the end of an array). *)

Inductive outcome (A : Type) : Type :=
  | Returns (a : A)
  | Throws
  | Undefined.
Arguments Returns {A} a.
Arguments Throws {A}.
Arguments Undefined {A}.

#[global] Instance outcome_ret : MRet outcome := λ A a, Returns a.

#[global] Instance outcome_bind : MBind outcome := λ A B k m,
  match m with
  | Returns a => k a
  | Throws => Throws
  | Undefined => Undefined
  end.

(** ** The identifier contract

    Note 3 of the class comment of [resTable]: a class of type ID implements
    an equivalence test [operator ==] and a conversion [hash] of the
    identifier to a [resTableIndex]. Class T derives from class ID (note 1):
    [res_id] is that upcast. *)

Class Identifier (ID : Type) := {
  id_eq : ID → ID → bool;
  id_hash : ID → Z
}.

Class Resource (T ID : Type) := {
  res_id : T → ID
}.

(** What "equivalence test" and "hash" mean for the table: [operator ==] is an
    equivalence, and equivalent identifiers have the same raw hash. *)
Class IdentifierLaws (ID : Type) `{Identifier ID} : Prop := {
  id_eq_refl : ∀ a : ID, id_eq a a = true;
  id_eq_sym : ∀ a b : ID, id_eq a b = true → id_eq b a = true;
  id_eq_trans : ∀ a b c : ID, id_eq a b = true → id_eq b c = true → id_eq a c = true;
  id_hash_eq : ∀ a b : ID, id_eq a b = true → id_hash a = id_hash b
}.

(** ** The bucket chain *)

Module SLList.

(** Modelled from the spec: the class [tsSLList<T>] of [tsSLList.h], which
    is not part of the sources at hand. The spec describes it as "an
    intrusive, ordered sequence of resident entries sharing a bucket index";
    the table walks it from its first entry, links an entry in front of it,
    unlinks an entry from it and moves it as a whole. The chain is the list
    of its entries, first entry at the head. *)
Abbreviation tsSLList := list (only parsing).

(** Modelled from the spec: [tsSLList<T>::tsSLList ()], the empty chain. *)
Definition empty {T : Type} : tsSLList T := [].

(** Modelled from the spec: [tsSLList<T>::add], which links an entry into the
    chain ("links the entry into its target bucket"); the entry becomes the
    first one. *)
Definition add {T : Type} (item : T) (l : tsSLList T) : tsSLList T := item :: l.

(** Modelled from the spec: [tsSLList<T>::tsSLList (tsSLList &)], the
    constructor that takes the entries of a chain over into a new chain
    ("migrate all existing buckets", "take the single bucket"): the new
    chain has the entries, the old one is left empty. The result is the
    pair of the new chain and the old one. *)
Definition move {T : Type} (l : tsSLList T) : tsSLList T * tsSLList T := (l, empty).

End SLList.

Abbreviation tsSLList := SLList.tsSLList (only parsing).

(** ** The resource table *)

Record resTable (T : Type) : Type := ResTable {
  pTable : option (list (tsSLList T));
  nextSplitIndex : Z;
  hashIxMask : Z;
  hashIxSplitMask : Z;
  nBitsHashIxSplitMask : Z;
  logBaseTwoTableSize : Z;
  nInUse : Z
}.
Arguments ResTable {T}.
Arguments pTable {T}.
Arguments nextSplitIndex {T}.
Arguments hashIxMask {T}.
Arguments hashIxSplitMask {T}.
Arguments nBitsHashIxSplitMask {T}.
Arguments logBaseTwoTableSize {T}.
Arguments nInUse {T}.

Section ResTableOps.
Context {T ID : Type} `{Identifier ID} `{Resource T ID}.

(** [resTable::resTable ()] *)
Definition resTable_new : resTable T :=
  ResTable None 0 0 0 0 0 0.

(** [resTable::resTableBitMask]: [( 1 << nBits ) - 1], computed in [int]
    and converted to [unsigned]. Up to 30 bits the result is in the range
    of [int]. With 31 bits the shift reaches the sign bit and the
    subtraction overflows; from 32 bits on the shift is undefined. *)
Definition resTableBitMask (nBits : Z) : outcome Z :=
  if nBits <? UINT_WIDTH - 1 then Returns (u32 (Z.shiftl 1 nBits - 1))
  else Undefined.

(** The bucket array behind [pTable] and the chain [pTable[i]]. Reading a
    chain outside the array yields the empty chain and writing there changes
    nothing; [index_in_table] shows that the table never does either. *)
Definition buckets (t : resTable T) : list (tsSLList T) :=
  default [] (pTable t).

Definition bucket (t : resTable T) (i : Z) : tsSLList T :=
  default [] (buckets t !! Z.to_nat i).

Definition set_bucket (i : Z) (l : tsSLList T) (t : resTable T) : resTable T :=
  ResTable ((λ tbl, <[Z.to_nat i := l]> tbl) <$> pTable t)
    (nextSplitIndex t) (hashIxMask t) (hashIxSplitMask t)
    (nBitsHashIxSplitMask t) (logBaseTwoTableSize t) (nInUse t).

Definition set_nInUse (n : Z) (t : resTable T) : resTable T :=
  ResTable (pTable t) (nextSplitIndex t) (hashIxMask t) (hashIxSplitMask t)
    (nBitsHashIxSplitMask t) (logBaseTwoTableSize t) n.

(** [resTable::hash] *)
Definition hash (t : resTable T) (idIn : ID) : Z :=
  let h := id_hash idIn in
  let h0 := Z.land h (hashIxMask t) in
  if h0 >=? nextSplitIndex t then h0
  else Z.land h (hashIxSplitMask t).

(** [resTable::find]: the first entry of the chain whose identifier equals
    [idIn], or null. *)
Fixpoint find (list : tsSLList T) (idIn : ID) : option T :=
  match list with
  | [] => None
  | item :: rest =>
      if id_eq (res_id item) idIn then Some item else find rest idIn
  end.

(** [resTable::lookup] *)
Definition lookup (idIn : ID) (t : resTable T) : option T :=
  match pTable t with
  | Some _ => find (bucket t (hash t idIn)) idIn
  | None => None
  end.

(** The loop of [resTable::remove] over one chain: the first match is
    unlinked and returned; without a match the chain is left as it is. *)
Fixpoint unlink (list : tsSLList T) (idIn : ID) : option T * tsSLList T :=
  match list with
  | [] => (None, [])
  | item :: rest =>
      if id_eq (res_id item) idIn then (Some item, rest)
      else let '(r, rest') := unlink rest idIn in (r, item :: rest')
  end.

(** [resTable::remove] *)
Definition remove (idIn : ID) (t : resTable T) : option T * resTable T :=
  match pTable t with
  | Some _ =>
      let i := hash t idIn in
      match unlink (bucket t i) idIn with
      | (Some item, rest) =>
          (Some item, set_nInUse (u32 (nInUse t - 1)) (set_bucket i rest t))
      | (None, _) => (None, t)
      end
  | None => (None, t)
  end.

(** [resTable::numEntriesInstalled] *)
Definition numEntriesInstalled (t : resTable T) : Z := nInUse t.

(** [resTable::tableSize] *)
Definition tableSize (t : resTable T) : Z :=
  match pTable t with
  | Some _ => u32 (u32 (hashIxMask t + 1) + nextSplitIndex t)
  | None => 0
  end.

(** [resTable::traverse] and [resTable::traverseConst] call the member
    function once on every entry of the chains [0 .. tableSize()-1], the
    successor of an entry being read before the call. [visited] is the
    sequence of the entries the call is made on and [traverse] threads the
    effect of the calls through it; the table itself is not written. *)
Definition visited (t : resTable T) : list T :=
  concat ((λ i : nat, bucket t (Z.of_nat i)) <$> seq 0 (Z.to_nat (tableSize t))).

Definition traverse {S : Type} (pCB : T → S → S) (t : resTable T) (s : S) : S :=
  foldl (λ acc item, pCB item acc) s (visited t).

(** [resTable::verify], the self test: it returns [true] when every
    assertion holds and [false] when one fails. The first block checks the
    state of the addressing, evaluating [resTableBitMask] once the five
    assertions in front of that call have held; the loop checks that each
    entry of the chains in use hashes to its chain and counts the entries,
    and the last assertion compares the count with [nInUse]. *)
Definition verify (t : resTable T) : outcome bool :=
  let N := tableSize t in
  addressing ←
    match pTable t with
    | Some _ =>
        if (nextSplitIndex t <=? u32 (hashIxMask t + 1))
           && negb (hashIxMask t =? 0)
           && (hashIxMask t =? Z.shiftr (hashIxSplitMask t) 1)
           && negb (hashIxSplitMask t =? 0)
           && negb (nBitsHashIxSplitMask t =? 0)
        then
          mask ← resTableBitMask (nBitsHashIxSplitMask t);
          Returns ((mask =? hashIxSplitMask t)
                   && negb (logBaseTwoTableSize t =? 0)
                   && (nBitsHashIxSplitMask t <=? logBaseTwoTableSize t))
        else Returns false
    | None =>
        Returns ((nextSplitIndex t =? 0) && (hashIxMask t =? 0)
                 && (hashIxSplitMask t =? 0) && (nBitsHashIxSplitMask t =? 0)
                 && (logBaseTwoTableSize t =? 0))
    end;
  Returns
    (addressing
     && forallb (λ i : nat,
          forallb (λ pItem, hash t (res_id pItem) =? Z.of_nat i) (bucket t (Z.of_nat i)))
          (seq 0 (Z.to_nat N))
     && (u32 (Z.of_nat (sum_list ((λ i : nat, length (bucket t (Z.of_nat i)))
                                    <$> seq 0 (Z.to_nat N))))
         =? nInUse t)).

(** [resTable::setTableSizePrivate]. [alloc] tells whether the call of
    [operator new] succeeds. The first [oldTableOccupiedSize] chains are
    moved to the new array, the others start empty. A table that had no
    bucket array gets its masks from [resTableBitMask], after the
    allocation. *)
Definition setTableSizePrivate (alloc : bool) (logBaseTwoTableSizeIn : Z)
    (t : resTable T) : outcome (bool * resTable T) :=
  if logBaseTwoTableSize t >=? logBaseTwoTableSizeIn then Returns (true, t)
  else
    let logBaseTwoTableSizeIn :=
      if logBaseTwoTableSizeIn <? 4 then 4 else logBaseTwoTableSizeIn in
    if UINT_WIDTH <=? logBaseTwoTableSizeIn then Undefined
    else
      let newTableSize := u32 (Z.shiftl 1 logBaseTwoTableSizeIn) in
      let oldTableOccupiedSize := tableSize t in
      if alloc then
        let pNewTable :=
          ((λ i : nat, (SLList.move (bucket t (Z.of_nat i))).1)
           <$> seq 0 (Z.to_nat oldTableOccupiedSize))
          ++ replicate (Z.to_nat newTableSize - Z.to_nat oldTableOccupiedSize)%nat
               SLList.empty in
        match pTable t with
        | None =>
            splitMask ← resTableBitMask logBaseTwoTableSizeIn;
            Returns (true,
              ResTable (Some pNewTable) 0 (Z.shiftr splitMask 1) splitMask
                logBaseTwoTableSizeIn logBaseTwoTableSizeIn (nInUse t))
        | Some _ =>
            Returns (true,
              ResTable (Some pNewTable) (nextSplitIndex t) (hashIxMask t)
                (hashIxSplitMask t) (nBitsHashIxSplitMask t)
                logBaseTwoTableSizeIn (nInUse t))
        end
      else
        match pTable t with
        | None => Throws
        | Some _ => Returns (false, t)
        end.

(** The loop of [resTable::setTableSize] that counts the bits of
    [newMask]; [n] is the number of iterations left before [nbits] reaches
    [sizeof (newTableSize) * CHAR_BIT]. Every iteration calls
    [resTableBitMask]. *)
Fixpoint countBits (n : nat) (nbits newMask : Z) : outcome Z :=
  match n with
  | O => Returns nbits
  | S n' =>
      nBitsMask ← resTableBitMask nbits;
      if Z.land newMask (u32 (Z.lnot nBitsMask)) =? 0 then Returns nbits
      else countBits n' (nbits + 1) newMask
  end.

(** [resTable::setTableSize] *)
Definition setTableSize (alloc : bool) (newTableSize : Z) (t : resTable T)
    : outcome (resTable T) :=
  if newTableSize =? 0 then Returns t
  else
    let newMask := u32 (newTableSize - 1) in
    nbits ← countBits (Z.to_nat UINT_WIDTH) 0 newMask;
    '(_, t') ← setTableSizePrivate alloc nbits t;
    Returns t'.

(** The loop at the end of [resTable::splitBucket]: [tmp.get ()] takes the
    entries of [tmp] from its head one by one, and each is linked into the
    chain its identifier hashes to. *)
Fixpoint rehash (tmp : tsSLList T) (t : resTable T) : resTable T :=
  match tmp with
  | [] => t
  | pItem :: tmp' =>
      let index := hash t (res_id pItem) in
      rehash tmp' (set_bucket index (SLList.add pItem (bucket t index)) t)
  end.

(** [resTable::splitBucket], first half, after [setTableSizePrivate] has
    succeeded: the state of the addressing for the doubled bucket array. *)
Definition doubled (t : resTable T) : outcome (resTable T) :=
  let nBits := u32 (nBitsHashIxSplitMask t + 1) in
  splitMask ← resTableBitMask nBits;
  Returns (ResTable (pTable t) 0 (Z.shiftr splitMask 1) splitMask nBits
             (logBaseTwoTableSize t) (nInUse t)).

(** [resTable::splitBucket], second half ("rehash only the items in the
    split bucket"): the chain at [nextSplitIndex] is moved to [tmp], the
    index advances, and the entries of [tmp] are linked in again. *)
Definition split_step (t : resTable T) : resTable T :=
  let '(tmp, emptied) := SLList.move (bucket t (nextSplitIndex t)) in
  let t3 := set_bucket (nextSplitIndex t) emptied t in
  let t4 :=
    ResTable (pTable t3) (u32 (nextSplitIndex t3 + 1)) (hashIxMask t3)
      (hashIxSplitMask t3) (nBitsHashIxSplitMask t3)
      (logBaseTwoTableSize t3) (nInUse t3) in
  rehash tmp t4.

(** [resTable::splitBucket] *)
Definition splitBucket (alloc : bool) (t : resTable T) : outcome (resTable T) :=
  match pTable t with
  | None => Undefined
  | Some _ =>
      if nextSplitIndex t >? hashIxMask t then
        '(success, t1) ←
          setTableSizePrivate alloc (u32 (nBitsHashIxSplitMask t + 1)) t;
        if success : bool then
          t2 ← doubled t1;
          Returns (split_step t2)
        else Returns t
      else Returns (split_step t)
  end.

(** The last six lines of [resTable::add], on a table that has its bucket
    array: the identifier is looked for in the chain it hashes to, and the
    entry is linked into that chain if the identifier is not there. *)
Definition install (res : T) (t : resTable T) : Z * resTable T :=
  let i := hash t (res_id res) in
  let list := bucket t i in
  match find list (res_id res) with
  | Some _ => (-1, t)
  | None =>
      (0, set_nInUse (u32 (nInUse t + 1)) (set_bucket i (SLList.add res list) t))
  end.

(** The same lines on any table: they index [pTable]. *)
Definition add_tail (res : T) (t : resTable T) : outcome (Z * resTable T) :=
  match pTable t with
  | Some _ => Returns (install res t)
  | None => Undefined
  end.

(** [resTable::add]: returns -1 (id exists in table) or 0 (success). *)
Definition add (alloc : bool) (res : T) (t : resTable T) : outcome (Z * resTable T) :=
  match pTable t with
  | None =>
      '(_, t1) ← setTableSizePrivate alloc 10 t;
      add_tail res t1
  | Some _ =>
      if nInUse t >=? tableSize t then
        t1 ← splitBucket alloc t;
        match find (bucket t1 (hash t1 (res_id res))) (res_id res) with
        | Some _ => Returns (-1, t1)
        | None => add_tail res t1
        end
      else add_tail res t
  end.

End ResTableOps.

(** [resTable::hash], under a name apart from [stringId::hash]. *)
Abbreviation resTable_hash := hash (only parsing).

(** ** The iterator of the table *)

Module SLIter.

(** Modelled from the spec: the class [tsSLIter<T>] of [tsSLList.h], which
    is not part of the sources at hand: the cursor with which the table
    walks a bucket chain ("an intrusive, ordered sequence of resident
    entries") from its first entry on. The cursor is the part of the chain
    that starts at the entry it points to; the cursor that points to no
    entry is the empty one. *)
Abbreviation tsSLIter := list (only parsing).

(** Modelled from the spec: [tsSLList<T>::firstIter ()], the cursor at the
    first entry of a chain. *)
Definition firstIter {T : Type} (l : tsSLList T) : tsSLIter T := l.

(** Modelled from the spec: [tsSLList<T>::invalidIter ()]. *)
Definition invalidIter {T : Type} : tsSLIter T := [].

(** Modelled from the spec: [tsSLIter<T>::valid ()]. *)
Definition valid {T : Type} (it : tsSLIter T) : bool :=
  match it with [] => false | _ :: _ => true end.

(** Modelled from the spec: [tsSLIter<T>::pointer ()], null for the cursor
    that is not valid. *)
Definition pointer {T : Type} (it : tsSLIter T) : option T := head it.

(** Modelled from the spec: [tsSLIter<T>::operator ++]. *)
Definition incr {T : Type} (it : tsSLIter T) : tsSLIter T := tail it.

End SLIter.

(** [resTableIter<T,ID>]. The member [table] is a reference to the table the
    iterator was made for: the operations take the table as an argument. The
    cursor holds the rest of the chain it is in, which is the rest of that
    chain in the table as long as the table is not written between two calls
    of [next]. *)
Record resTableIter (T : Type) : Type := ResTableIter {
  iter : SLIter.tsSLIter T;
  index : Z
}.
Arguments ResTableIter {T}.
Arguments iter {T}.
Arguments index {T}.

Section ResTableIterOps.
Context {T : Type}.

(** [resTableIter::resTableIter] *)
Definition resTableIter_new (tableIn : resTable T) : resTableIter T :=
  ResTableIter
    (match pTable tableIn with
     | Some _ => SLIter.firstIter (bucket tableIn 0)
     | None => SLIter.invalidIter
     end)
    1.

(** The loop [while ( true )] of [resTableIter::next]. Each round that does
    not return advances [index], and the loop returns once [index] has
    reached [N]: [rounds] is the number of chains from [index] up to [N]. *)
Fixpoint next_chain (rounds : nat) (N : Z) (table : resTable T) (it : resTableIter T)
    : option T * resTableIter T :=
  match rounds with
  | O => (None, it)
  | S rounds' =>
      if index it >=? N then (None, it)
      else
        let it := ResTableIter (SLIter.firstIter (bucket table (index it)))
                    (u32 (index it + 1)) in
        if SLIter.valid (iter it) then
          (SLIter.pointer (iter it), ResTableIter (SLIter.incr (iter it)) (index it))
        else next_chain rounds' N table it
  end.

(** [resTableIter::next] *)
Definition next (table : resTable T) (it : resTableIter T)
    : option T * resTableIter T :=
  if SLIter.valid (iter it) then
    (SLIter.pointer (iter it), ResTableIter (SLIter.incr (iter it)) (index it))
  else
    let N := tableSize table in
    next_chain (Z.to_nat (N - index it)) N table it.

(** [resTableIter::operator ()] *)
Definition call (table : resTable T) (it : resTableIter T)
    : option T * resTableIter T :=
  next table it.

(** The results of [n] calls of [next] one after the other. *)
Fixpoint nexts (n : nat) (table : resTable T) (it : resTableIter T) : list (option T) :=
  match n with
  | O => []
  | S n' => let '(p, it') := next table it in p :: nexts n' table it'
  end.

(** The entries an iterator has yet to return: the rest of the chain its
    cursor is in, and the chains from [index] on. *)
Definition pending (table : resTable T) (it : resTableIter T) : list T :=
  iter it ++
  concat ((λ i : nat, bucket table (Z.of_nat i))
            <$> seq (Z.to_nat (index it))
                    (Z.to_nat (tableSize table) - Z.to_nat (index it))).

End ResTableIterOps.

(** ** Integer identifiers *)

(** The loop of [integerHash] for a nonzero [width]: [width >>= 1] strips the
    last binary digit of [width], so the loop is a recursion on the digits of
    [width]. It stops as soon as the halved width is not above
    [MIN_INDEX_WIDTH], at the latest when it reaches zero: both widths are
    values of [unsigned], so none is below zero. *)
Fixpoint integerHash_loop (MIN_INDEX_WIDTH : Z) (width : positive) (hashid : Z) : Z :=
  match width with
  | xH => Z.lxor hashid (Z.shiftr hashid 0)
  | xO width' | xI width' =>
      let hashid := Z.lxor hashid (Z.shiftr hashid (Z.pos width')) in
      if Z.pos width' >? MIN_INDEX_WIDTH
      then integerHash_loop MIN_INDEX_WIDTH width' hashid
      else hashid
  end.

(** [static_cast <resTableIndex> ( id )]: the integer modulo 2^64, which
    cuts an integer of a wider type and extends the sign of a negative one. *)
Definition to_resTableIndex (id : Z) : Z := id mod 2 ^ SIZE_WIDTH.

(** The loop of [integerHash] from its first round on. *)
Definition integerHash_rounds (MIN_INDEX_WIDTH MAX_ID_WIDTH : Z) (hashid : Z) : Z :=
  match MAX_ID_WIDTH with
  | Z.pos width => integerHash_loop MIN_INDEX_WIDTH width hashid
  | _ => Z.lxor hashid (Z.shiftr hashid 0)
  end.

(** [integerHash]: converts any integer into a hash table index. The first
    round shifts [hashid] by half of [MAX_ID_WIDTH], and the rounds after it
    by less: the shifts are defined when the first one is by less than the
    width of [resTableIndex]. *)
Definition integerHash (MIN_INDEX_WIDTH MAX_ID_WIDTH : Z) (id : Z) : outcome Z :=
  let hashid := to_resTableIndex id in
  if SIZE_WIDTH <=? Z.shiftr MAX_ID_WIDTH 1 then Undefined
  else Returns (integerHash_rounds MIN_INDEX_WIDTH MAX_ID_WIDTH hashid).

(** [intId<T, MIN_INDEX_WIDTH, MAX_ID_WIDTH>] for an unsigned type [T]. *)
Record intId (MIN_INDEX_WIDTH MAX_ID_WIDTH : Z) : Type := IntId {
  getId : Z
}.
Arguments IntId {MIN_INDEX_WIDTH MAX_ID_WIDTH}.
Arguments getId {MIN_INDEX_WIDTH MAX_ID_WIDTH}.

(** The identifier widths for which [intId::hash] is defined: those with
    which [integerHash] returns. *)
Class HashDefined (MAX_ID_WIDTH : Z) : Prop :=
  hash_defined : (SIZE_WIDTH <=? Z.shiftr MAX_ID_WIDTH 1) = false.

(** [intId::operator ==] and [intId::hash], for such a width: the hash is
    what [integerHash] returns. *)
#[global] Instance intId_identifier (MIN_INDEX_WIDTH MAX_ID_WIDTH : Z)
    `{!HashDefined MAX_ID_WIDTH}
    : Identifier (intId MIN_INDEX_WIDTH MAX_ID_WIDTH) := {
  id_eq a b := getId a =? getId b;
  id_hash a :=
    integerHash_rounds MIN_INDEX_WIDTH MAX_ID_WIDTH (to_resTableIndex (getId a))
}.

(** The width of [unsigned] is one of them. *)
#[global] Instance unsigned_hash_defined : HashDefined UINT_WIDTH := eq_refl.

(** [class chronIntId : public intId<unsigned, 8u, sizeof(unsigned)*CHAR_BIT>] *)
Abbreviation chronIntId := (intId 8 UINT_WIDTH).

(** ** The table that allocates chronological identifiers *)

(** [chronIntIdRes<ITEM>]: a resource with an unsigned chronological
    identifier; [body] stands for the members the derived class ITEM adds. *)
Record chronIntIdRes (B : Type) : Type := ChronIntIdRes {
  chronId : chronIntId;
  body : B
}.
Arguments ChronIntIdRes {B}.
Arguments chronId {B}.
Arguments body {B}.

(** [chronIntIdRes<ITEM>::chronIntIdRes ()] *)
Definition chronIntIdRes_new {B : Type} (b : B) : chronIntIdRes B :=
  ChronIntIdRes (IntId UINT_MAX) b.

(** [chronIntIdRes<ITEM>::setId] *)
Definition setId {B : Type} (newId : Z) (item : chronIntIdRes B) : chronIntIdRes B :=
  ChronIntIdRes (IntId newId) (body item).

#[global] Instance chronIntIdRes_resource (B : Type)
    : Resource (chronIntIdRes B) chronIntId := {
  res_id := chronId
}.

Record chronIntIdResTable (B : Type) : Type := ChronIntIdResTable {
  table : resTable (chronIntIdRes B);
  allocId : Z
}.
Arguments ChronIntIdResTable {B}.
Arguments table {B}.
Arguments allocId {B}.

(** [chronIntIdResTable<ITEM>::chronIntIdResTable ()] *)
Definition chronIntIdResTable_new {B : Type} : chronIntIdResTable B :=
  ChronIntIdResTable resTable_new 1.

(** [chronIntIdResTable<ITEM>::add]: the loop [do ... while (status)]. The
    source does not bound the number of rounds; [rounds] does, and [None]
    means that the loop is still running after that many. [alloc k] tells
    whether an allocation made in round [k] succeeds. The item is returned
    with the identifier it was installed under. *)
Fixpoint chron_add {B : Type} (rounds : nat) (alloc : nat → bool) (k : nat)
    (item : chronIntIdRes B) (c : chronIntIdResTable B)
    : option (outcome (chronIntIdRes B * chronIntIdResTable B)) :=
  match rounds with
  | O => None
  | S rounds' =>
      let item := setId (allocId c) item in
      let allocId' := u32 (allocId c + 1) in
      match add (alloc k) item (table c) with
      | Returns (status, t') =>
          if status =? 0
          then Some (Returns (item, ChronIntIdResTable t' allocId'))
          else chron_add rounds' alloc (S k) item (ChronIntIdResTable t' allocId')
      | Throws => Some Throws
      | Undefined => Some Undefined
      end
  end.

(** ** String identifiers *)

Module StringId.

Inductive allocationType : Type := copyString | refString.

(** A pointer to [char] is null or points to the bytes that lie at its
    target; the C string there consists of the bytes before the first zero
    byte. The end of the list terminates the string as a zero byte does. *)
Definition c_str : Type := list byte.

Record stringId : Type := StringId {
  pStr : option c_str;
  allocType : allocationType
}.

Definition to_Z (c : byte) : Z := Z.of_N (Byte.to_N c).

(** [strlen] *)
Fixpoint strlen (s : c_str) : nat :=
  match s with
  | [] => O
  | c :: s' => if to_Z c =? 0 then O else S (strlen s')
  end.

(** The content of a C string: its bytes before the terminator. *)
Definition content (s : c_str) : list byte := take (strlen s) s.

(** [strcmp (a, b) == 0] *)
Fixpoint strcmp_eq (a b : c_str) : bool :=
  match a, b with
  | [], [] => true
  | [], c :: _ | c :: _, [] => to_Z c =? 0
  | ca :: a', cb :: b' =>
      if to_Z ca =? to_Z cb
      then (if to_Z ca =? 0 then true else strcmp_eq a' b')
      else false
  end.

(** [stringId::stringId]: in mode [copyString] the identifier owns an
    array of [nChars] bytes with the first [nChars] bytes of the string,
    where [nChars] is [strlen (idIn) + 1] stored in an [unsigned]; in mode
    [refString] it points to the caller's bytes. [alloc] tells whether
    [new char [nChars]] succeeds. [strlen] of a null pointer is undefined.
    When [strlen (idIn) + 1] does not fit an [unsigned], the array ends
    before the terminator of the string: it holds no string, and reading it
    as one, which is all an identifier does with it, runs past its end.
    There is no identifier to return then: [Undefined]. *)
Definition stringId_new (alloc : bool) (idIn : option c_str)
    (typeIn : allocationType) : outcome stringId :=
  match typeIn with
  | copyString =>
      match idIn with
      | Some s =>
          let nChars := u32 (Z.of_nat (strlen s) + 1) in
          if alloc then
            if nChars =? Z.of_nat (strlen s) + 1
            then Returns (StringId (Some (take (Z.to_nat nChars) s)) typeIn)
            else Undefined
          else Throws
      | None => Undefined
      end
  | refString => Returns (StringId idIn typeIn)
  end.

(** [stringId::operator ==] *)
Definition equal (a b : stringId) : bool :=
  match pStr a, pStr b with
  | Some sa, Some sb => strcmp_eq sa sb
  | _, _ => false
  end.

(** [stringId::resourceName] *)
Definition resourceName (a : stringId) : option c_str := pStr a.

Definition fastHashPermutedIndexSpace : list Z :=
  [ 39;159;180;252; 71;  6; 13;164;232; 35;226;155; 98;120;154; 69;
   157; 24;137; 29;147; 78;121; 85;112;  8;248;130; 55;117;190;160;
   176;131;228; 64;211;106; 38; 27;140; 30; 88;210;227;104; 84; 77;
    75;107;169;138;195;184; 70; 90; 61;166;  7;244;165;108;219; 51;
     9;139;209; 40; 31;202; 58;179;116; 33;207;146; 76; 60;242;124;
   254;197; 80;167;153;145;129;233;132; 48;246; 86;156;177; 36;187;
    45;  1; 96; 18; 19; 62;185;234; 99; 16;218; 95;128;224;123;253;
    42;109;  4;247; 72;  5;151;136;  0;152;148;127;204;133; 17; 14;
   182;217; 54;199;119;174; 82; 57;215; 41;114;208;206;110;239; 23;
   189; 15;  3; 22;188; 79;113;172; 28;  2;222; 21;251;225;237;105;
   102; 32; 56;181;126; 83;230; 53;158; 52; 59;213;118;100; 67;142;
   220;170;144;115;205; 26;125;168;249; 66;175; 97;255; 92;229; 91;
   214;236;178;243; 46; 44;201;250;135;186;150;221;163;216;162; 43;
    11;101; 34; 37;194; 25; 50; 12; 87;198;173;240;193;171;143;231;
   111;141;191;103; 74;245;223; 20;161;235;122; 63; 89;149; 73;238;
   134; 68; 93;183;241; 81;196; 49;192; 65;212; 94;203; 10;200; 47 ].

Definition permute (i : Z) : Z :=
  nth (Z.to_nat i) fastHashPermutedIndexSpace 0.

(** The four accumulators of [stringId::hash]. *)
Record lanes : Type := Lanes { h0 : Z; h1 : Z; h2 : Z; h3 : Z }.

(** The loop of [stringId::hash]. Its body reads four bytes in turn, byte
    number [lane] of the four going to accumulator [lane], and leaves at the
    first zero byte; [lane] is the position in the body the loop is at. *)
Fixpoint hash_loop (pUStr : c_str) (lane : nat) (h : lanes) : lanes :=
  match pUStr with
  | [] => h
  | b :: pUStr' =>
      let c := to_Z b in
      if c =? 0 then h
      else
        match lane with
        | 0%nat => hash_loop pUStr' 1%nat
                     (Lanes (permute (Z.lxor (h0 h) c)) (h1 h) (h2 h) (h3 h))
        | 1%nat => hash_loop pUStr' 2%nat
                     (Lanes (h0 h) (permute (Z.lxor (h1 h) c)) (h2 h) (h3 h))
        | 2%nat => hash_loop pUStr' 3%nat
                     (Lanes (h0 h) (h1 h) (permute (Z.lxor (h2 h) c)) (h3 h))
        | _ => hash_loop pUStr' 0%nat
                     (Lanes (h0 h) (h1 h) (h2 h) (permute (Z.lxor (h3 h) c)))
        end
  end.

Definition stringIdMinIndexWidth : Z := 8.
Definition stringIdMaxIndexWidth : Z := 4.

(** [stringId::hash]. Its call of [integerHash] has the widths 8 and 4:
    the one round shifts by 2, and the hash is what [integerHash]
    returns. *)
Definition hash (a : stringId) : Z :=
  match pStr a with
  | None => 0
  | Some pUStr =>
      let h := hash_loop pUStr 0 (Lanes 0 0 0 0) in
      let packed :=
        u32 (Z.lor (Z.lor (Z.lor (u32 (Z.shiftl (h3 h) 24))
                                 (u32 (Z.shiftl (h2 h) 16)))
                          (u32 (Z.shiftl (h1 h) 8)))
                   (h0 h)) in
      integerHash_rounds stringIdMinIndexWidth stringIdMaxIndexWidth
        (to_resTableIndex packed)
  end.

#[global] Instance stringId_identifier : Identifier stringId := {
  id_eq := equal;
  id_hash := hash
}.

End StringId.

(** ** Auxiliary notions for the string hash *)

Module StringIdLanes.
Import StringId.

(** Accumulator number [j] of the four. *)
Definition lane (j : nat) (h : lanes) : Z :=
  match j with
  | 0%nat => h0 h
  | 1%nat => h1 h
  | 2%nat => h2 h
  | _ => h3 h
  end.

(** What the loop of [stringId::hash] does with a byte of nonzero value [c]
    at position [j] of its body, and the position it is at afterwards. *)
Definition step (j : nat) (c : Z) (h : lanes) : lanes :=
  match j with
  | 0%nat => Lanes (permute (Z.lxor (h0 h) c)) (h1 h) (h2 h) (h3 h)
  | 1%nat => Lanes (h0 h) (permute (Z.lxor (h1 h) c)) (h2 h) (h3 h)
  | 2%nat => Lanes (h0 h) (h1 h) (permute (Z.lxor (h2 h) c)) (h3 h)
  | _ => Lanes (h0 h) (h1 h) (h2 h) (permute (Z.lxor (h3 h) c))
  end.

Definition next_lane (j : nat) : nat :=
  match j with
  | 0%nat => 1%nat
  | 1%nat => 2%nat
  | 2%nat => 3%nat
  | _ => 0%nat
  end.

(** The four accumulators hold values of an [unsigned char]. *)
Definition bytes (h : lanes) : Prop := ∀ j : nat, 0 ≤ lane j h < 256.

(** Two states of the accumulators that differ in accumulator [j] and in
    no other. *)
Definition differ_in (j : nat) (h h' : lanes) : Prop :=
  lane j h ≠ lane j h' ∧
  ∀ k : nat, (k < 4)%nat → k ≠ j → lane k h = lane k h'.

(** The word [( h3 << 24 ) | ( h2 << 16 ) | ( h1 << 8 ) | h0] that
    [stringId::hash] hands to [integerHash]. *)
Definition packed (h : lanes) : Z :=
  u32 (Z.lor (Z.lor (Z.lor (u32 (Z.shiftl (h3 h) 24))
                           (u32 (Z.shiftl (h2 h) 16)))
                    (u32 (Z.shiftl (h1 h) 8)))
             (h0 h)).

End StringIdLanes.

(** ** Sequences of operations *)

(** The public operations that can write the table. An allocating operation
    carries the outcome of the allocation it may make. *)
Inductive operation (T ID : Type) : Type :=
  | OpAdd (alloc : bool) (res : T)
  | OpRemove (idIn : ID)
  | OpSetTableSize (alloc : bool) (newTableSize : Z)
  | OpTraverse.
Arguments OpAdd {T ID} alloc res.
Arguments OpRemove {T ID} idIn.
Arguments OpSetTableSize {T ID} alloc newTableSize.
Arguments OpTraverse {T ID}.

Section Runs.
Context {T ID : Type} `{Identifier ID} `{Resource T ID}.

(** [traverse] computes from the table and does not write it. *)
Definition perform (o : operation T ID) (t : resTable T) : outcome (resTable T) :=
  match o with
  | OpAdd alloc res => '(_, t') ← add alloc res t; Returns t'
  | OpRemove idIn => Returns (remove idIn t).2
  | OpSetTableSize alloc n => setTableSize alloc n t
  | OpTraverse => Returns t
  end.

(** An operation whose allocation, if it makes one, succeeds, and whose
    size hint is at most 2^30. *)
Definition allocates (o : operation T ID) : Prop :=
  match o with
  | OpAdd alloc _ => alloc = true
  | OpSetTableSize alloc n => alloc = true ∧ 0 ≤ n ≤ 2 ^ 30
  | _ => True
  end.

(** The operations of [ops] performed one after the other. *)
Fixpoint run (ops : list (operation T ID)) (t : resTable T) : outcome (resTable T) :=
  match ops with
  | [] => Returns t
  | o :: ops' => t' ← perform o t; run ops' t'
  end.

(** What a caller expects of [lookup (id)] after a sequence of operations,
    in the words of the spec: the identifier becomes resident with a
    successful [add] of it, that is one made while it is not resident, and
    stops being resident with the matching [remove]. *)
Definition expected_step (idIn : ID) (now : option T) (o : operation T ID) : option T :=
  match o with
  | OpAdd _ res =>
      if id_eq (res_id res) idIn
      then match now with Some r => Some r | None => Some res end
      else now
  | OpRemove k => if id_eq k idIn then None else now
  | _ => now
  end.

Definition expected_lookup (ops : list (operation T ID)) (idIn : ID) : option T :=
  foldl (expected_step idIn) None ops.

(** ** The invariants of the table *)

(** All entries of the table, chain after chain. *)
Definition residents (t : resTable T) : list T := concat (buckets t).

(** The state of the addressing, as [resTable::verify] asserts it, together
    with the size of the bucket array and the emptiness of the chains that
    are not yet in use. The masks have at most 30 bits: a table cannot get
    a mask of 31 bits from [resTableBitMask]. *)
Definition addressing_ok (t : resTable T) : Prop :=
  match pTable t with
  | None =>
      nextSplitIndex t = 0 ∧ hashIxMask t = 0 ∧ hashIxSplitMask t = 0 ∧
      nBitsHashIxSplitMask t = 0 ∧ logBaseTwoTableSize t = 0
  | Some tbl =>
      4 ≤ nBitsHashIxSplitMask t ∧
      nBitsHashIxSplitMask t ≤ logBaseTwoTableSize t ∧
      logBaseTwoTableSize t < UINT_WIDTH - 1 ∧
      hashIxSplitMask t = 2 ^ nBitsHashIxSplitMask t - 1 ∧
      hashIxMask t = 2 ^ (nBitsHashIxSplitMask t - 1) - 1 ∧
      0 ≤ nextSplitIndex t ≤ hashIxMask t + 1 ∧
      Z.of_nat (length tbl) = 2 ^ logBaseTwoTableSize t ∧
      ∀ i : nat, tableSize t ≤ Z.of_nat i → bucket t (Z.of_nat i) = []
  end.

(** Invariant 1: an entry lies in the chain its identifier hashes to. *)
Definition bucket_consistent (t : resTable T) : Prop :=
  ∀ (i : nat) (chain : tsSLList T) (item : T),
    buckets t !! i = Some chain → item ∈ chain →
    hash t (res_id item) = Z.of_nat i.

(** Invariant 2: no two entries have identifiers that compare equal. *)
Fixpoint distinct_ids (l : list T) : Prop :=
  match l with
  | [] => True
  | item :: l' =>
      (∀ other, other ∈ l' → id_eq (res_id item) (res_id other) = false) ∧
      distinct_ids l'
  end.

(** Invariant 3: [nInUse] is the sum of the lengths of the chains. *)
Definition chain_lengths (t : resTable T) : Z :=
  Z.of_nat (sum_list (length <$> buckets t)).

(** The invariants every operation keeps. The counter [nInUse] is an
    [unsigned] that is incremented and decremented: it is the sum of the
    lengths of the chains in the arithmetic of [unsigned], and is that sum
    itself as long as the table holds fewer than 2^32 entries. *)
Record table_ok (t : resTable T) : Prop := TableOk {
  ok_addressing : addressing_ok t;
  ok_buckets : bucket_consistent t;
  ok_distinct : distinct_ids (residents t);
  ok_count : numEntriesInstalled t = u32 (chain_lengths t)
}.

(** What the spec says of an [add] of an identifier that is already
    resident: it is reported as a duplicate and the state of the table
    after the call is the state before it. *)
Definition duplicate_add_changes_nothing : Prop :=
  ∀ (ops : list (operation T ID)) (t : resTable T) (alloc : bool) (res : T)
    (status : Z) (t' : resTable T),
    run ops resTable_new = Returns t →
    is_Some (lookup (res_id res) t) →
    add alloc res t = Returns (status, t') →
    status = -1 ∧ t' = t.

(** ** Auxiliary notions for the proofs *)

(** The numbers behind a well-formed addressing state. *)
Record addressing_facts (t : resTable T) (tbl : list (tsSLList T)) : Prop := {
  af_bits : 4 ≤ nBitsHashIxSplitMask t ≤ logBaseTwoTableSize t;
  af_log : logBaseTwoTableSize t ≤ 30;
  af_split : hashIxSplitMask t = 2 * 2 ^ (nBitsHashIxSplitMask t - 1) - 1;
  af_mask : hashIxMask t = 2 ^ (nBitsHashIxSplitMask t - 1) - 1;
  af_half : 8 ≤ 2 ^ (nBitsHashIxSplitMask t - 1) ≤ 2 ^ 29;
  af_next : 0 ≤ nextSplitIndex t ≤ 2 ^ (nBitsHashIxSplitMask t - 1);
  af_size : tableSize t = 2 ^ (nBitsHashIxSplitMask t - 1) + nextSplitIndex t;
  af_length : Z.of_nat (length tbl) = 2 ^ logBaseTwoTableSize t;
  af_fits : 2 * 2 ^ (nBitsHashIxSplitMask t - 1) ≤ 2 ^ logBaseTwoTableSize t;
  af_array : 2 ^ logBaseTwoTableSize t ≤ 2 ^ 30;
  af_unused : ∀ i : nat, tableSize t ≤ Z.of_nat i → bucket t (Z.of_nat i) = []
}.

(** Two states of the table that address their buckets alike. *)
Definition same_addressing (t t' : resTable T) : Prop :=
  nextSplitIndex t' = nextSplitIndex t ∧ hashIxMask t' = hashIxMask t ∧
  hashIxSplitMask t' = hashIxSplitMask t ∧
  nBitsHashIxSplitMask t' = nBitsHashIxSplitMask t ∧
  tableSize t' = tableSize t.

End Runs.

(** ** Sequences of calls of the chronological [add] *)

(** [items.size ()] calls of [chronIntIdResTable<ITEM>::add], one for each
    item in turn. [alloc j k] tells whether an allocation made in round [k] of
    call [j] succeeds; the items are returned as they were installed. *)
Fixpoint chron_adds {B : Type} (rounds : nat) (alloc : nat → nat → bool) (j : nat)
    (items : list (chronIntIdRes B)) (c : chronIntIdResTable B)
    : option (outcome (list (chronIntIdRes B) * chronIntIdResTable B)) :=
  match items with
  | [] => Some (Returns ([], c))
  | item :: rest =>
      match chron_add rounds (alloc j) 0 item c with
      | Some (Returns (item', c')) =>
          match chron_adds rounds alloc (S j) rest c' with
          | Some (Returns (installed, c'')) => Some (Returns (item' :: installed, c''))
          | r => r
          end
      | Some Throws => Some Throws
      | Some Undefined => Some Undefined
      | None => None
      end
  end.

(** The identifier an item carries. *)
Definition idOf {B : Type} (item : chronIntIdRes B) : Z := getId (chronId item).

(** The state of a table after [n] calls of its [add] and nothing else. *)
Record chron_after {B : Type} (n : Z) (c : chronIntIdResTable B) : Prop := {
  ca_table : table_ok (table c);
  ca_allocId : allocId c = n + 1;
  ca_count : nInUse (table c) = n;
  ca_ids : ∀ item, item ∈ residents (table c) → 1 ≤ idOf item ≤ n;
  ca_size : tableSize (table c) ≤ Z.max 512 n;
  ca_storage : 0 < n → is_Some (pTable (table c))
}.


(** ** A small table for the examples *)

Module Sample.

Definition item (n : Z) : chronIntIdRes unit := ChronIntIdRes (IntId n) tt.

(** A table sized for 16 buckets, of which 8 are in use at first; the ninth
    [add] finds the table full and splits bucket 0. *)
Definition ops : list (operation (chronIntIdRes unit) chronIntId) :=
  [ OpSetTableSize true 16;
    OpAdd true (item 1); OpAdd true (item 2); OpAdd true (item 3);
    OpAdd true (item 4); OpAdd true (item 5); OpAdd true (item 6);
    OpAdd true (item 7); OpAdd true (item 8); OpAdd true (item 9);
    OpRemove (IntId 3); OpTraverse; OpAdd false (item 4) ].

Definition state_after (l : list (operation (chronIntIdRes unit) chronIntId))
    : resTable (chronIntIdRes unit) :=
  match run l resTable_new with
  | Returns t => t
  | _ => resTable_new
  end.

(** The table after the first nine operations: eight entries in the eight
    buckets in use. *)
Definition full : resTable (chronIntIdRes unit) := state_after (take 9 ops).

(** The same table filled up: sixteen entries in sixteen buckets, the
    split index at the end of the half in use. The next split needs a
    larger bucket array. *)
Definition brimful : resTable (chronIntIdRes unit) :=
  state_after (OpSetTableSize true 16
                 :: ((λ n, OpAdd true (item n)) <$> seqZ 1 16)).


(** The bytes of ["AB"] followed by its terminator and by two bytes that
    happen to lie behind it, and the bare bytes of ["AB"]. *)
Definition name_in_buffer : StringId.c_str := ["A"; "B"; "000"; "C"; "D"]%byte.
Definition name : StringId.c_str := ["A"; "B"]%byte.

End Sample.

(** ** More states for the examples *)

Module Examples.

(** [Sample.full] after one more split: bucket 0 has been redistributed
    between bucket 0 and the new bucket 8. *)
Definition split_full : resTable (chronIntIdRes unit) :=
  match splitBucket true Sample.full with
  | Returns t => t
  | _ => Sample.full
  end.

(** [Sample.full] after the tenth operation of [Sample.ops], the [add] of
    entry 9. *)
Definition nine : resTable (chronIntIdRes unit) :=
  Sample.state_after (take 10 Sample.ops).

(** An entry that is nothing but its string identifier. *)
Definition named : Resource StringId.stringId StringId.stringId :=
  {| res_id := λ a, a |}.

(** The identifier without a string. *)
Definition nameless : StringId.stringId :=
  StringId.StringId None StringId.refString.

(** A table of such entries after an [add] of the identifier without a
    string. *)
Definition with_nameless : resTable StringId.stringId :=
  match @add _ _ _ named true nameless resTable_new with
  | Returns (_, t) => t
  | _ => resTable_new
  end.

End Examples.

(** * Proofs *)

(** ** Machine arithmetic *)

Lemma u32_small (x : Z) : 0 ≤ x < 2 ^ 32 → u32 x = x.
Proof. intros Hx. unfold u32, UINT_WIDTH. apply Z.mod_small. exact Hx. Qed.

Lemma u32_range (x : Z) : 0 ≤ u32 x < 2 ^ 32.
Proof. unfold u32, UINT_WIDTH. apply Z.mod_pos_bound. lia. Qed.

Lemma u32_add_l (a b : Z) : u32 (u32 a + b) = u32 (a + b).
Proof. unfold u32. apply Z.add_mod_idemp_l. unfold UINT_WIDTH. lia. Qed.

Lemma u32_succ (a : Z) : u32 (u32 a + 1) = u32 (a + 1).
Proof. apply u32_add_l. Qed.

Lemma u32_pred (a : Z) : u32 (u32 a - 1) = u32 (a - 1).
Proof. rewrite <- !Z.add_opp_r. apply u32_add_l. Qed.

Lemma pow2_le_31 (n : Z) : 0 ≤ n ≤ 31 → 0 < 2 ^ n ≤ 2 ^ 31.
Proof.
  intros Hn. split; [apply Z.pow_pos_nonneg; lia|].
  apply Z.pow_le_mono_r; lia.
Qed.

Lemma pow2_double (n : Z) : 1 ≤ n → 2 ^ n = 2 * 2 ^ (n - 1).
Proof.
  intros Hn. replace n with (Z.succ (n - 1)) at 1 by lia.
  rewrite Z.pow_succ_r by lia. reflexivity.
Qed.

Lemma land_low_bits (h k : Z) : 0 ≤ k → Z.land h (2 ^ k - 1) = h mod 2 ^ k.
Proof.
  intros Hk. rewrite <- Z.land_ones by exact Hk.
  rewrite Z.ones_equiv. reflexivity.
Qed.

Lemma shiftl_1 (n : Z) : 0 ≤ n → Z.shiftl 1 n = 2 ^ n.
Proof. intros Hn. rewrite Z.shiftl_mul_pow2 by exact Hn. lia. Qed.

Lemma half_of_mask (n : Z) : 1 ≤ n → Z.shiftr (2 ^ n - 1) 1 = 2 ^ (n - 1) - 1.
Proof.
  intros Hn. rewrite Z.shiftr_div_pow2 by lia.
  rewrite (pow2_double n Hn). change (2 ^ 1) with 2.
  assert (0 < 2 ^ (n - 1)) by (apply Z.pow_pos_nonneg; lia).
  symmetry. apply Z.div_unique with (r := 1); lia.
Qed.

Lemma resTableBitMask_val (n : Z) :
  0 ≤ n ≤ 30 → resTableBitMask n = Returns (2 ^ n - 1).
Proof.
  intros Hn. unfold resTableBitMask, UINT_WIDTH.
  destruct (Z.ltb_spec n (32 - 1)); [|lia]. rewrite shiftl_1 by lia.
  pose proof (pow2_le_31 n ltac:(lia)). rewrite u32_small by lia. reflexivity.
Qed.

Lemma resTableBitMask_undefined (n : Z) : 31 ≤ n → resTableBitMask n = Undefined.
Proof.
  intros Hn. unfold resTableBitMask, UINT_WIDTH.
  destruct (Z.ltb_spec n (32 - 1)); [lia|reflexivity].
Qed.

(** A bind whose first computation has returned. *)
Ltac bind_returns :=
  repeat (change (mbind ?f (Returns ?a)) with (f a); cbv beta).

Ltac bind_returns_in H :=
  repeat (change (mbind ?f (Returns ?a)) with (f a) in H; cbv beta in H).

(** ** Chains *)

Section Chains.
Context {T ID : Type} `{HL : IdentifierLaws ID} `{!Resource T ID}.
Implicit Types (l : list T) (idIn : ID).

Lemma id_eq_false_sym (a b : ID) : id_eq a b = false → id_eq b a = false.
Proof.
  intros Hab. destruct (id_eq b a) eqn:Hba; [|reflexivity].
  apply id_eq_sym in Hba. congruence.
Qed.

Lemma find_Some l idIn r :
  find l idIn = Some r → r ∈ l ∧ id_eq (res_id r) idIn = true.
Proof.
  induction l as [|a l IH]; simpl; [discriminate|].
  destruct (id_eq (res_id a) idIn) eqn:Ha.
  - intros [= <-]. split; [left|exact Ha].
  - intros Hf. destruct (IH Hf) as [Hin Hr]. split; [right; exact Hin|exact Hr].
Qed.

Lemma find_None l idIn :
  find l idIn = None ↔ ∀ r, r ∈ l → id_eq (res_id r) idIn = false.
Proof.
  induction l as [|a l IH]; simpl.
  - split; [intros _ r Hr; inversion Hr|reflexivity].
  - destruct (id_eq (res_id a) idIn) eqn:Ha.
    + split; [discriminate|]. intros Hall.
      specialize (Hall a (list_elem_of_here a l)). congruence.
    + rewrite IH. split.
      * intros Hall r Hr. apply elem_of_cons in Hr as [->|Hr]; auto.
      * intros Hall r Hr. apply Hall. right. exact Hr.
Qed.

Lemma distinct_ids_unique l a b :
  distinct_ids l → a ∈ l → b ∈ l →
  id_eq (res_id a) (res_id b) = true → a = b.
Proof.
  induction l as [|c l IH]; simpl; intros Hd Ha Hb Hab.
  - inversion Ha.
  - destruct Hd as [Hc Hl].
    apply elem_of_cons in Ha as [->|Ha]; apply elem_of_cons in Hb as [->|Hb].
    + reflexivity.
    + rewrite (Hc b Hb) in Hab. discriminate.
    + apply id_eq_sym in Hab. rewrite (Hc a Ha) in Hab. discriminate.
    + exact (IH Hl Ha Hb Hab).
Qed.

Lemma distinct_ids_perm l l' : l ≡ₚ l' → distinct_ids l → distinct_ids l'.
Proof.
  induction 1 as [|a l l' Hp IH|a b l|l l' l'' _ IH1 _ IH2]; simpl.
  - trivial.
  - intros [Ha Hl]. split; [|exact (IH Hl)].
    intros o Ho. apply Ha. rewrite Hp. exact Ho.
  - intros [Hb [Ha Hl]]. repeat split.
    + intros o Ho. apply elem_of_cons in Ho as [->|Ho]; [|exact (Ha o Ho)].
      apply id_eq_false_sym, Hb. left.
    + intros o Ho. apply Hb. right. exact Ho.
    + exact Hl.
  - intros Hl. exact (IH2 (IH1 Hl)).
Qed.

(** In a chain with distinct identifiers [find] returns the one entry with
    the identifier, wherever it stands. *)
Lemma find_unique l idIn r :
  distinct_ids l → r ∈ l → id_eq (res_id r) idIn = true → find l idIn = Some r.
Proof.
  intros Hd Hr Hid. destruct (find l idIn) as [r'|] eqn:Hf.
  - apply find_Some in Hf as [Hr' Hid']. f_equal.
    apply (distinct_ids_unique l r' r Hd Hr' Hr).
    apply id_eq_trans with idIn; [exact Hid'|]. apply id_eq_sym. exact Hid.
  - rewrite find_None in Hf. rewrite (Hf r Hr) in Hid. discriminate.
Qed.

Lemma find_perm l l' idIn :
  distinct_ids l → l ≡ₚ l' → find l idIn = find l' idIn.
Proof.
  intros Hd Hp. destruct (find l idIn) as [r|] eqn:Hf.
  - apply find_Some in Hf as [Hr Hid]. symmetry.
    apply find_unique; [exact (distinct_ids_perm _ _ Hp Hd)| |exact Hid].
    rewrite <- Hp. exact Hr.
  - symmetry. rewrite find_None in Hf |- *. intros r Hr. apply Hf.
    rewrite Hp. exact Hr.
Qed.

Lemma unlink_Some l idIn r rest :
  unlink l idIn = (Some r, rest) →
  ∃ l1 l2, l = l1 ++ r :: l2 ∧ rest = l1 ++ l2 ∧
           id_eq (res_id r) idIn = true ∧ find l idIn = Some r.
Proof.
  revert rest. induction l as [|a l IH]; simpl; intros rest; [discriminate|].
  destruct (id_eq (res_id a) idIn) eqn:Ha.
  - intros [= <- <-]. exists [], l. auto.
  - destruct (unlink l idIn) as [r' rest'] eqn:Hu. intros [= -> <-].
    destruct (IH rest' eq_refl) as (l1 & l2 & -> & -> & Hid & Hf).
    exists (a :: l1), l2. auto.
Qed.

Lemma unlink_None l idIn rest :
  unlink l idIn = (None, rest) → rest = l ∧ find l idIn = None.
Proof.
  revert rest. induction l as [|a l IH]; simpl; intros rest.
  - intros [= <-]. auto.
  - destruct (id_eq (res_id a) idIn) eqn:Ha; [discriminate|].
    destruct (unlink l idIn) as [r' rest'] eqn:Hu. intros [= -> <-].
    destruct (IH rest' eq_refl) as [-> Hf]. auto.
Qed.

End Chains.

(** ** Bucket arrays *)

Section Arrays.
Context {A : Type}.
Implicit Types (tbl : list (list A)) (chain : list A).

Lemma concat_replicate_nil (n : nat) : concat (replicate n (@nil A)) = [].
Proof. induction n as [|n IH]; simpl; [reflexivity|exact IH]. Qed.

Lemma concat_insert tbl (i : nat) chain :
  (i < length tbl)%nat →
  concat (<[i := chain]> tbl) ≡ₚ chain ++ concat (<[i := []]> tbl).
Proof.
  intros Hi. rewrite !insert_take_drop by exact Hi.
  rewrite !concat_app. simpl. rewrite !(assoc_L (++)).
  apply Permutation_app_tail. apply Permutation_app_comm.
Qed.

Lemma concat_lookup tbl (i : nat) chain :
  tbl !! i = Some chain → concat tbl ≡ₚ chain ++ concat (<[i := []]> tbl).
Proof.
  intros Hi. rewrite <- (list_insert_id tbl i chain Hi) at 1.
  apply concat_insert. exact (lookup_lt_Some _ _ _ Hi).
Qed.

Lemma length_concat_sum tbl : length (concat tbl) = sum_list (length <$> tbl).
Proof.
  induction tbl as [|c tbl IH]; simpl; [reflexivity|].
  rewrite length_app, IH. reflexivity.
Qed.

Lemma elem_of_concat_lookup tbl (x : A) :
  x ∈ concat tbl ↔ ∃ (i : nat) chain, tbl !! i = Some chain ∧ x ∈ chain.
Proof.
  induction tbl as [|c tbl IH]; simpl.
  - split; [intros Hx; inversion Hx|intros (i & chain & Hi & _); inversion Hi].
  - rewrite elem_of_app, IH. split.
    + intros [Hx|(i & chain & Hi & Hx)]; [exists 0%nat, c|exists (S i), chain]; auto.
    + intros ([|i] & chain & Hi & Hx); simpl in Hi.
      * left. congruence.
      * right. eauto.
Qed.
End Arrays.

Lemma mod_pow2_next (h k : Z) :
  0 ≤ k → h mod 2 ^ (k + 1) = h mod 2 ^ k ∨ h mod 2 ^ (k + 1) = h mod 2 ^ k + 2 ^ k.
Proof.
  intros Hk. rewrite Z.pow_add_r by lia. change (2 ^ 1) with 2.
  assert (0 < 2 ^ k) by (apply Z.pow_pos_nonneg; lia).
  rewrite Z.rem_mul_r by lia.
  pose proof (Z.mod_pos_bound (h / 2 ^ k) 2 ltac:(lia)).
  assert ((h / 2 ^ k) mod 2 = 0 ∨ (h / 2 ^ k) mod 2 = 1) as [->| ->] by lia; lia.
Qed.

Section Addressing.
Context {T ID : Type} `{HL : IdentifierLaws ID} `{!Resource T ID}.
Implicit Types (t : resTable T) (idIn : ID).

Lemma addressing_ok_facts t tbl :
  pTable t = Some tbl → addressing_ok t → addressing_facts t tbl.
Proof.
  unfold addressing_ok, UINT_WIDTH. intros Ht. rewrite Ht.
  intros (Hn & Hnl & Hl & Hs & Hm & Hnx & Hlen & Hun).
  set (n := nBitsHashIxSplitMask t) in *.
  assert (2 ^ n = 2 * 2 ^ (n - 1)) as Hd by (apply pow2_double; lia).
  assert (2 ^ 3 ≤ 2 ^ (n - 1)) by (apply Z.pow_le_mono_r; lia).
  assert (2 ^ (n - 1) ≤ 2 ^ 29) by (apply Z.pow_le_mono_r; lia).
  assert (2 ^ n ≤ 2 ^ logBaseTwoTableSize t) by (apply Z.pow_le_mono_r; lia).
  assert (2 ^ logBaseTwoTableSize t ≤ 2 ^ 30) by (apply Z.pow_le_mono_r; lia).
  assert (tableSize t = 2 ^ (n - 1) + nextSplitIndex t) as Hsz.
  { unfold tableSize. rewrite Ht, Hm.
    rewrite (u32_small (_ + 1)) by lia. rewrite u32_small by lia. lia. }
  split; fold n; try lia; try assumption.
Qed.

Lemma hash_range t tbl idIn :
  pTable t = Some tbl → addressing_ok t → 0 ≤ hash t idIn < tableSize t.
Proof.
  intros Ht Hok. destruct (addressing_ok_facts t tbl Ht Hok)
    as [Fb Fl Fsp Fm Fh Fn Fsz Flen Ffit Farr Fun].
  unfold hash. rewrite Fsz, Fm, Fsp.
  set (n := nBitsHashIxSplitMask t) in *.
  replace (2 * 2 ^ (n - 1)) with (2 ^ (n - 1 + 1))
    by (rewrite Z.pow_add_r by lia; lia).
  rewrite !land_low_bits by lia.
  pose proof (Z.mod_pos_bound (id_hash idIn) (2 ^ (n - 1)) ltac:(lia)).
  destruct (Z.geb_spec (id_hash idIn mod 2 ^ (n - 1)) (nextSplitIndex t)); [lia|].
  destruct (mod_pow2_next (id_hash idIn) (n - 1) ltac:(lia)) as [-> | ->]; lia.
Qed.

(** The table indexes its bucket array within its bounds. *)
Lemma index_in_table t tbl idIn :
  pTable t = Some tbl → addressing_ok t →
  (Z.to_nat (hash t idIn) < length tbl)%nat.
Proof.
  intros Ht Hok. pose proof (hash_range t tbl idIn Ht Hok).
  destruct (addressing_ok_facts t tbl Ht Hok)
    as [Fb Fl Fsp Fm Fh Fn Fsz Flen Ffit Farr Fun]. lia.
Qed.

Lemma hash_eq t (a b : ID) : id_eq a b = true → hash t a = hash t b.
Proof. intros Hab. unfold hash. rewrite (id_hash_eq a b Hab). reflexivity. Qed.

Lemma buckets_set_bucket t i chain :
  buckets (set_bucket i chain t) = <[Z.to_nat i := chain]> (buckets t).
Proof. unfold buckets, set_bucket. simpl. destruct (pTable t); reflexivity. Qed.

Lemma bucket_lookup t (i : nat) chain :
  buckets t !! i = Some chain → bucket t (Z.of_nat i) = chain.
Proof. intros Hi. unfold bucket. rewrite Nat2Z.id, Hi. reflexivity. Qed.

Lemma lookup_bucket t tbl i :
  pTable t = Some tbl → (Z.to_nat i < length tbl)%nat →
  buckets t !! Z.to_nat i = Some (bucket t i).
Proof.
  intros Ht Hi. unfold bucket, buckets. rewrite Ht. simpl.
  destruct (lookup_lt_is_Some_2 tbl (Z.to_nat i) Hi) as [c ->]. reflexivity.
Qed.

(** Under the invariants the chain an identifier hashes to holds every
    entry with that identifier: [lookup] scans all residents. *)
Lemma lookup_residents t idIn :
  table_ok t → lookup idIn t = find (residents t) idIn.
Proof.
  intros [Hadr Hbk Hd _]. unfold lookup, residents in *.
  destruct (pTable t) as [tbl|] eqn:Ht; [|unfold buckets; rewrite Ht; reflexivity].
  pose proof (index_in_table t tbl idIn Ht Hadr) as Hlt.
  pose proof (lookup_bucket t tbl _ Ht Hlt) as Hb.
  destruct (find (bucket t (hash t idIn)) idIn) as [r|] eqn:Hf.
  - symmetry. apply find_Some in Hf as [Hr Hid].
    apply find_unique; [exact Hd| |exact Hid].
    apply elem_of_concat_lookup. eauto.
  - symmetry. rewrite find_None in Hf |- *. intros r Hr.
    apply elem_of_concat_lookup in Hr as (i & chain & Hi & Hr).
    destruct (id_eq (res_id r) idIn) eqn:Hid; [|reflexivity].
    pose proof (Hbk i chain r Hi Hr) as Hh.
    rewrite (hash_eq t _ _ Hid) in Hh.
    rewrite Hh in Hb, Hf. rewrite Nat2Z.id, Hi in Hb. injection Hb as Hb.
    rewrite <- Hb in Hf. rewrite (Hf r Hr) in Hid. discriminate.
Qed.

End Addressing.

Section Linking.
Context {T ID : Type} `{HL : IdentifierLaws ID} `{!Resource T ID}.
Implicit Types (t : resTable T) (idIn : ID) (res : T).

Lemma same_addressing_refl t : same_addressing t t.
Proof. repeat split. Qed.

Lemma same_addressing_trans t1 t2 t3 :
  same_addressing t1 t2 → same_addressing t2 t3 → same_addressing t1 t3.
Proof. unfold same_addressing. intros (?&?&?&?&?) (?&?&?&?&?). repeat split; congruence. Qed.

Lemma same_addressing_hash t t' idIn :
  same_addressing t t' → hash t' idIn = hash t idIn.
Proof. intros (Hn & Hm & Hs & _). unfold hash. rewrite Hn, Hm, Hs. reflexivity. Qed.

Lemma same_addressing_set_bucket t i chain :
  same_addressing t (set_bucket i chain t).
Proof.
  repeat split. unfold tableSize, set_bucket. simpl.
  destruct (pTable t); reflexivity.
Qed.

Lemma same_addressing_set_nInUse t n : same_addressing t (set_nInUse n t).
Proof. repeat split. Qed.

(** Replacing the chain an identifier hashes to by a chain [chain'] whose
    entries hash there too. *)
Lemma replace_chain t tbl idIn chain' :
  pTable t = Some tbl → addressing_ok t → bucket_consistent t →
  (∀ r, r ∈ chain' → hash t (res_id r) = hash t idIn) →
  let t' := set_bucket (hash t idIn) chain' t in
  addressing_ok t' ∧ bucket_consistent t' ∧
  residents t' ≡ₚ chain' ++ concat (<[Z.to_nat (hash t idIn) := []]> tbl) ∧
  residents t ≡ₚ bucket t (hash t idIn) ++ concat (<[Z.to_nat (hash t idIn) := []]> tbl).
Proof.
  intros Ht Hadr Hbk Hch t'.
  pose proof (hash_range t tbl idIn Ht Hadr) as Hrange.
  pose proof (index_in_table t tbl idIn Ht Hadr) as Hlt.
  pose proof (same_addressing_set_bucket t (hash t idIn) chain') as Hsame.
  fold t' in Hsame.
  assert (buckets t = tbl) as Hbt by (unfold buckets; rewrite Ht; reflexivity).
  assert (buckets t' = <[Z.to_nat (hash t idIn) := chain']> tbl) as Hbt'.
  { unfold t'. rewrite buckets_set_bucket, Hbt. reflexivity. }
  assert (pTable t' = Some (<[Z.to_nat (hash t idIn) := chain']> tbl)) as Ht'.
  { unfold t', set_bucket. simpl. rewrite Ht. reflexivity. }
  split; [|split; [|split]].
  - unfold addressing_ok in *. rewrite Ht in Hadr. rewrite Ht'.
    destruct Hsame as (-> & -> & -> & -> & Hsz).
    destruct Hadr as (?&?&?&?&?&?&?&Hun).
    change (logBaseTwoTableSize t') with (logBaseTwoTableSize t).
    rewrite length_insert. repeat split; try assumption; try lia.
    intros i Hi. rewrite Hsz in Hi. specialize (Hun i Hi).
    unfold bucket in *. rewrite Hbt', Nat2Z.id. rewrite Hbt, Nat2Z.id in Hun.
    rewrite list_lookup_insert_ne by lia. exact Hun.
  - intros i chain r Hi Hr. rewrite (same_addressing_hash _ _ _ Hsame).
    rewrite Hbt' in Hi.
    destruct (decide (i = Z.to_nat (hash t idIn))) as [->|Hne].
    + rewrite list_lookup_insert_eq in Hi by exact Hlt. injection Hi as <-.
      rewrite (Hch r Hr). lia.
    + rewrite list_lookup_insert_ne in Hi by congruence.
      apply (Hbk i chain r); [rewrite Hbt; exact Hi|exact Hr].
  - unfold residents. rewrite Hbt'. apply concat_insert. exact Hlt.
  - unfold residents. rewrite Hbt. apply concat_lookup.
    rewrite <- Hbt. apply (lookup_bucket t tbl); assumption.
Qed.

Lemma bucket_hash_consistent t tbl idIn r :
  pTable t = Some tbl → addressing_ok t → bucket_consistent t →
  r ∈ bucket t (hash t idIn) → hash t (res_id r) = hash t idIn.
Proof.
  intros Ht Hadr Hbk Hr.
  pose proof (hash_range t tbl idIn Ht Hadr) as Hrange.
  pose proof (index_in_table t tbl idIn Ht Hadr) as Hlt.
  rewrite (Hbk _ _ r (lookup_bucket t tbl _ Ht Hlt) Hr). lia.
Qed.

Lemma chain_lengths_residents t :
  chain_lengths t = Z.of_nat (length (residents t)).
Proof. unfold chain_lengths, residents. rewrite length_concat_sum. reflexivity. Qed.

Lemma add_tail_unfold res t :
  is_Some (pTable t) → add_tail res t = Returns (install res t).
Proof. intros [tbl Ht]. unfold add_tail. rewrite Ht. reflexivity. Qed.

(** [install]: the end of [add]. *)
Lemma install_spec t tbl res :
  pTable t = Some tbl → table_ok t →
  match lookup (res_id res) t with
  | Some _ => install res t = (-1, t)
  | None =>
      ∃ t', install res t = (0, t') ∧ same_addressing t t' ∧
            is_Some (pTable t') ∧
            logBaseTwoTableSize t' = logBaseTwoTableSize t ∧
            residents t' ≡ₚ res :: residents t ∧
            nInUse t' = u32 (nInUse t + 1) ∧
            table_ok t'
  end.
Proof.
  intros Ht Hok. pose proof (lookup_residents t (res_id res) Hok) as Hlr.
  destruct Hok as [Hadr Hbk Hd Hcnt].
  unfold lookup in *. rewrite Ht in *. unfold install.
  destruct (find (bucket t (hash t (res_id res))) (res_id res)) as [r|] eqn:Hf;
    [reflexivity|].
  eexists. split; [reflexivity|].
  destruct (replace_chain t tbl (res_id res)
              (SLList.add res (bucket t (hash t (res_id res)))) Ht Hadr Hbk)
    as (Hadr' & Hbk' & Hres' & Hres).
  { intros r Hr. apply elem_of_cons in Hr as [->|Hr]; [reflexivity|].
    exact (bucket_hash_consistent t tbl _ r Ht Hadr Hbk Hr). }
  set (t1 := set_bucket _ _ t) in *.
  assert (residents t1 ≡ₚ res :: residents t) as Hperm.
  { rewrite Hres', Hres. reflexivity. }
  split; [|split; [|split; [|split; [|split]]]].
  - apply (same_addressing_trans _ t1);
      [apply same_addressing_set_bucket|apply same_addressing_set_nInUse].
  - simpl. rewrite Ht. eauto.
  - reflexivity.
  - exact Hperm.
  - reflexivity.
  - unfold numEntriesInstalled in *.
    rewrite chain_lengths_residents in Hcnt.
    split.
    + exact Hadr'.
    + exact Hbk'.
    + change (distinct_ids (residents t1)).
      apply (distinct_ids_perm (res :: residents t)); [symmetry; exact Hperm|].
      split; [|exact Hd]. intros o Ho. apply id_eq_false_sym.
      symmetry in Hlr. rewrite find_None in Hlr. exact (Hlr o Ho).
    + unfold numEntriesInstalled. rewrite chain_lengths_residents.
      change (u32 (nInUse t + 1) = u32 (Z.of_nat (length (residents t1)))).
      rewrite Hperm, Hcnt, u32_succ. simpl length. f_equal. lia.
Qed.

(** [remove] *)
Lemma remove_spec t idIn :
  table_ok t →
  match lookup idIn t with
  | Some r =>
      ∃ t', remove idIn t = (Some r, t') ∧ same_addressing t t' ∧
            is_Some (pTable t') ∧
            logBaseTwoTableSize t' = logBaseTwoTableSize t ∧
            id_eq (res_id r) idIn = true ∧
            residents t ≡ₚ r :: residents t' ∧
            nInUse t' = u32 (nInUse t - 1) ∧ table_ok t'
  | None => remove idIn t = (None, t)
  end.
Proof.
  intros Hok. destruct Hok as [Hadr Hbk Hd Hcnt].
  unfold lookup, remove. destruct (pTable t) as [tbl|] eqn:Ht; [|reflexivity].
  destruct (unlink (bucket t (hash t idIn)) idIn) as [[r|] rest] eqn:Hu.
  - apply unlink_Some in Hu as (l1 & l2 & Hb & -> & Hid & ->).
    eexists. split; [reflexivity|].
    destruct (replace_chain t tbl idIn (l1 ++ l2) Ht Hadr Hbk)
      as (Hadr' & Hbk' & Hres' & Hres).
    { intros o Ho. apply (bucket_hash_consistent t tbl _ o Ht Hadr Hbk).
      rewrite Hb. apply elem_of_app in Ho as [Ho|Ho]; apply elem_of_app;
        [left|right; right]; exact Ho. }
    set (t1 := set_bucket _ _ t) in *.
    assert (residents t ≡ₚ r :: residents t1) as Hperm.
    { rewrite Hres, Hres', Hb. rewrite <- !(assoc_L (++)). simpl.
      symmetry. apply Permutation_middle. }
    unfold numEntriesInstalled in *.
    rewrite chain_lengths_residents in Hcnt.
    assert (u32 (nInUse t - 1) = u32 (Z.of_nat (length (residents t1)))) as Hu32.
    { rewrite Hcnt, Hperm, u32_pred. simpl length. f_equal. lia. }
    split; [|split; [|split; [|split; [|split; [|split]]]]].
    + apply (same_addressing_trans _ t1);
        [apply same_addressing_set_bucket|apply same_addressing_set_nInUse].
    + simpl. rewrite Ht. eauto.
    + reflexivity.
    + exact Hid.
    + exact Hperm.
    + reflexivity.
    + split.
      * exact Hadr'.
      * exact Hbk'.
      * change (distinct_ids (residents t1)).
        apply (distinct_ids_perm _ _ Hperm) in Hd. exact (proj2 Hd).
      * unfold numEntriesInstalled. rewrite chain_lengths_residents.
        exact Hu32.
  - apply unlink_None in Hu as [-> ->]. reflexivity.
Qed.

End Linking.

Section Growth.
Context {T ID : Type} `{HL : IdentifierLaws ID} `{!Resource T ID}.
Implicit Types (t : resTable T) (idIn : ID) (res : T).

Lemma buckets_Some t tbl : pTable t = Some tbl → buckets t = tbl.
Proof. intros Ht. unfold buckets. rewrite Ht. reflexivity. Qed.

(** The bucket array [setTableSizePrivate] builds: as all chains from
    [tableSize ()] on are empty, it is the old array with empty chains
    added at its end. *)
Lemma moved_chains t tbl (occupied size : nat) :
  buckets t = tbl →
  (∀ i : nat, (occupied ≤ i)%nat → bucket t (Z.of_nat i) = []) →
  (occupied ≤ length tbl)%nat → (length tbl ≤ size)%nat →
  ((λ i : nat, bucket t (Z.of_nat i)) <$> seq 0 occupied)
    ++ replicate (size - occupied) SLList.empty
  = tbl ++ replicate (size - length tbl) [].
Proof.
  intros Hb Hun Hocc Hsize. apply list_eq. intros i.
  assert (length ((λ i : nat, bucket t (Z.of_nat i)) <$> seq 0 occupied) = occupied)
    as Hlen by (rewrite length_fmap, length_seq; reflexivity).
  destruct (decide (i < occupied)%nat) as [Hi|Hi].
  - rewrite !lookup_app_l by lia.
    rewrite list_lookup_fmap, lookup_seq_lt by lia. simpl.
    destruct (lookup_lt_is_Some_2 tbl i ltac:(lia)) as [c Hc].
    rewrite Hc. f_equal. apply bucket_lookup. rewrite Hb. exact Hc.
  - rewrite lookup_app_r by lia. rewrite Hlen.
    destruct (decide (i < length tbl)%nat) as [Hi2|Hi2].
    + rewrite lookup_app_l by lia.
      rewrite lookup_replicate_2 by lia.
      destruct (lookup_lt_is_Some_2 tbl i ltac:(lia)) as [c Hc].
      rewrite Hc. f_equal.
      rewrite <- (bucket_lookup t i c) by (rewrite Hb; exact Hc).
      symmetry. apply Hun. lia.
    + rewrite lookup_app_r by lia.
      destruct (decide (i < size)%nat) as [Hi3|Hi3].
      * rewrite !lookup_replicate_2 by lia. reflexivity.
      * rewrite !(proj1 (lookup_replicate_None _ _ _)) by lia. reflexivity.
Qed.

Lemma setTableSizePrivate_noop alloc n t :
  n ≤ logBaseTwoTableSize t → setTableSizePrivate alloc n t = Returns (true, t).
Proof.
  intros Hn. unfold setTableSizePrivate.
  destruct (Z.geb_spec (logBaseTwoTableSize t) n); [reflexivity|lia].
Qed.

Lemma setTableSizePrivate_undefined alloc n t :
  logBaseTwoTableSize t < n → 32 ≤ n → setTableSizePrivate alloc n t = Undefined.
Proof.
  intros Hn Hbig. unfold setTableSizePrivate, UINT_WIDTH.
  destruct (Z.geb_spec (logBaseTwoTableSize t) n); [lia|].
  destruct (Z.ltb_spec n 4); [lia|].
  destruct (Z.leb_spec 32 n); [reflexivity|lia].
Qed.

Lemma setTableSizePrivate_fail n t :
  logBaseTwoTableSize t < n → n ≤ 31 →
  setTableSizePrivate false n t =
    match pTable t with Some _ => Returns (false, t) | None => Throws end.
Proof.
  intros Hn Hbig. unfold setTableSizePrivate, UINT_WIDTH.
  destruct (Z.geb_spec (logBaseTwoTableSize t) n); [lia|].
  destruct (Z.ltb_spec n 4); [reflexivity|].
  destruct (Z.leb_spec 32 n); [lia|reflexivity].
Qed.

(** A successful allocation for a table that has a bucket array. *)
Lemma setTableSizePrivate_grow n t tbl :
  pTable t = Some tbl → table_ok t → logBaseTwoTableSize t < n → n ≤ 31 →
  ∃ t', setTableSizePrivate true n t = Returns (true, t') ∧
        same_addressing t t' ∧ logBaseTwoTableSize t' = n ∧
        pTable t' = Some (tbl ++ replicate (Z.to_nat (2 ^ n) - length tbl) []) ∧
        nInUse t' = nInUse t ∧ residents t' = residents t ∧
        (n ≤ 30 → table_ok t').
Proof.
  intros Ht [Hadr Hbk Hd Hcnt] Hn Hbig.
  destruct (addressing_ok_facts t tbl Ht Hadr)
    as [Fb Fl Fsp Fm Fh Fn Fsz Flen Ffit Farr Fun].
  assert (2 ^ logBaseTwoTableSize t ≤ 2 ^ n) by (apply Z.pow_le_mono_r; lia).
  pose proof (pow2_le_31 n ltac:(lia)).
  unfold setTableSizePrivate, UINT_WIDTH.
  destruct (Z.geb_spec (logBaseTwoTableSize t) n); [lia|].
  destruct (Z.ltb_spec n 4); [lia|].
  destruct (Z.leb_spec 32 n); [lia|].
  rewrite Ht. rewrite shiftl_1 by lia. rewrite u32_small by lia.
  cbn [SLList.move fst].
  rewrite (moved_chains t tbl _ _ (buckets_Some t tbl Ht)); [| |lia|lia].
  2:{ intros i Hi. apply Fun. lia. }
  eexists. split; [reflexivity|].
  set (tbl' := tbl ++ replicate _ []).
  set (t' := ResTable (Some tbl') _ _ _ _ _ _).
  assert (same_addressing t t') as Hsame.
  { repeat split. unfold tableSize. rewrite Ht. reflexivity. }
  assert (residents t' = residents t) as Hres.
  { unfold residents. rewrite (buckets_Some t tbl Ht).
    change (buckets t') with tbl'. unfold tbl'.
    rewrite concat_app, concat_replicate_nil, app_nil_r. reflexivity. }
  split; [exact Hsame|]. split; [reflexivity|]. split; [reflexivity|].
  split; [reflexivity|]. split; [exact Hres|].
  intros Hsmall. split.
  - unfold addressing_ok in *. rewrite Ht in Hadr. simpl.
    destruct Hadr as (?&?&?&?&?&?&?&Hun). unfold UINT_WIDTH.
    repeat split; try assumption; try lia.
    + unfold tbl'. rewrite length_app, length_replicate. lia.
    + intros i Hi. destruct Hsame as (_&_&_&_&Hsz). rewrite Hsz in Hi.
      specialize (Hun i Hi). unfold bucket in *.
      rewrite (buckets_Some t tbl Ht) in Hun. change (buckets t') with tbl'.
      rewrite Nat2Z.id in *. unfold tbl'.
      destruct (decide (i < length tbl)%nat).
      * rewrite lookup_app_l by lia. exact Hun.
      * rewrite lookup_app_r by lia.
        destruct (replicate _ _ !! _) as [c|] eqn:Hc; [|reflexivity].
        apply lookup_replicate_1 in Hc as [-> _]. reflexivity.
  - intros i chain r Hi Hr. rewrite (same_addressing_hash _ _ _ Hsame).
    change (buckets t') with tbl' in Hi. unfold tbl' in Hi.
    apply lookup_app_Some in Hi as [Hi|[_ Hi]].
    + apply (Hbk i chain r); [rewrite (buckets_Some t tbl Ht); exact Hi|exact Hr].
    + apply lookup_replicate_1 in Hi as [-> _]. inversion Hr.
  - rewrite Hres. exact Hd.
  - unfold numEntriesInstalled in *. rewrite chain_lengths_residents, Hres,
      <- chain_lengths_residents. exact Hcnt.
Qed.

(** The first allocation. *)
Lemma setTableSizePrivate_first n t :
  pTable t = None → table_ok t → 0 < n → n ≤ 30 →
  ∃ t', setTableSizePrivate true n t = Returns (true, t') ∧
        pTable t' = Some (replicate (Z.to_nat (2 ^ Z.max 4 n)) []) ∧
        nBitsHashIxSplitMask t' = Z.max 4 n ∧
        logBaseTwoTableSize t' = Z.max 4 n ∧
        nextSplitIndex t' = 0 ∧
        nInUse t' = 0 ∧ residents t' = [] ∧ table_ok t'.
Proof.
  intros Ht [Hadr Hbk Hd Hcnt] Hn Hbig.
  unfold addressing_ok in Hadr. rewrite Ht in Hadr.
  destruct Hadr as (Hnx & Hm & Hs & Hnb & Hlog).
  assert (nInUse t = 0) as Hzero.
  { unfold numEntriesInstalled, chain_lengths, buckets in Hcnt.
    rewrite Ht in Hcnt. exact Hcnt. }
  unfold setTableSizePrivate, UINT_WIDTH. rewrite Hlog.
  destruct (Z.geb_spec 0 n); [lia|].
  set (n' := if n <? 4 then 4 else n).
  assert (n' = Z.max 4 n) as Hn' by (unfold n'; destruct (Z.ltb_spec n 4); lia).
  rewrite <- Hn'. assert (4 ≤ n' ≤ 30) as Hrange by lia. clearbody n'.
  pose proof (pow2_le_31 n' ltac:(lia)).
  destruct (Z.leb_spec 32 n'); [lia|].
  rewrite Ht. unfold tableSize. rewrite Ht. simpl seq. simpl fmap.
  rewrite shiftl_1 by lia. rewrite u32_small by lia.
  rewrite Nat.sub_0_r, app_nil_l.
  rewrite resTableBitMask_val by lia. bind_returns.
  rewrite half_of_mask by lia.
  eexists. split; [reflexivity|].
  set (tbl' := replicate _ SLList.empty).
  set (t' := ResTable (Some tbl') _ _ _ _ _ _).
  assert (residents t' = []) as Hres.
  { unfold residents. change (buckets t') with tbl'. apply concat_replicate_nil. }
  repeat (split; [first [reflexivity|assumption]|]).
  split.
  - unfold addressing_ok. simpl. unfold UINT_WIDTH.
    assert (2 ^ 3 ≤ 2 ^ (n' - 1)) by (apply Z.pow_le_mono_r; lia).
    repeat split; try lia.
    + unfold tbl'. rewrite length_replicate. lia.
    + intros i _. unfold bucket. change (buckets t') with tbl'. unfold tbl'.
      destruct (replicate _ _ !! _) as [c|] eqn:Hc; [|reflexivity].
      apply lookup_replicate_1 in Hc as [-> _]. reflexivity.
  - intros i chain r Hi Hr. change (buckets t') with tbl' in Hi.
    apply lookup_replicate_1 in Hi as [-> _]. inversion Hr.
  - rewrite Hres. exact I.
  - unfold numEntriesInstalled. rewrite chain_lengths_residents, Hres.
    simpl. exact Hzero.
Qed.

(** The first allocation for more than 2^30 chains succeeds, and the masks
    of the new table cannot be computed. *)
Lemma setTableSizePrivate_first_undefined n t :
  pTable t = None → logBaseTwoTableSize t = 0 → 31 ≤ n →
  setTableSizePrivate true n t = Undefined.
Proof.
  intros Ht Hlog Hn. unfold setTableSizePrivate, UINT_WIDTH. rewrite Hlog.
  destruct (Z.geb_spec 0 n); [lia|].
  destruct (Z.ltb_spec n 4); [lia|].
  destruct (Z.leb_spec 32 n); [reflexivity|].
  rewrite Ht. rewrite resTableBitMask_undefined by lia. reflexivity.
Qed.

End Growth.

Section Split.
Context {T ID : Type} `{HL : IdentifierLaws ID} `{!Resource T ID}.
Implicit Types (t : resTable T) (idIn : ID) (res : T).

(** Linking an entry in front of the chain its identifier hashes to. *)
Lemma link_spec t tbl res :
  pTable t = Some tbl → addressing_ok t → bucket_consistent t →
  let i := hash t (res_id res) in
  let t' := set_bucket i (SLList.add res (bucket t i)) t in
  addressing_ok t' ∧ bucket_consistent t' ∧ residents t' ≡ₚ res :: residents t.
Proof.
  intros Ht Hadr Hbk i t'.
  destruct (replace_chain t tbl (res_id res) (SLList.add res (bucket t i)) Ht Hadr Hbk)
    as (Hadr' & Hbk' & Hres' & Hres).
  { intros r Hr. apply elem_of_cons in Hr as [->|Hr]; [reflexivity|].
    exact (bucket_hash_consistent t tbl _ r Ht Hadr Hbk Hr). }
  split; [exact Hadr'|]. split; [exact Hbk'|].
  fold i in Hres', Hres. fold t' in Hres'. rewrite Hres', Hres. reflexivity.
Qed.

Lemma rehash_spec tmp : ∀ t tbl,
  pTable t = Some tbl → addressing_ok t → bucket_consistent t →
  let t' := rehash tmp t in
  addressing_ok t' ∧ bucket_consistent t' ∧ residents t' ≡ₚ tmp ++ residents t ∧
  same_addressing t t' ∧ is_Some (pTable t') ∧
  logBaseTwoTableSize t' = logBaseTwoTableSize t ∧ nInUse t' = nInUse t.
Proof.
  induction tmp as [|pItem tmp IH]; intros t tbl Ht Hadr Hbk; simpl.
  - rewrite Ht. repeat split; eauto.
  - destruct (link_spec t tbl pItem Ht Hadr Hbk) as (Hadr1 & Hbk1 & Hres1).
    set (t1 := set_bucket _ _ t) in *.
    assert (pTable t1 = Some (<[Z.to_nat (hash t (res_id pItem)) :=
              SLList.add pItem (bucket t (hash t (res_id pItem)))]> tbl)) as Ht1.
    { unfold t1, set_bucket. simpl. rewrite Ht. reflexivity. }
    destruct (IH t1 _ Ht1 Hadr1 Hbk1) as (Hadr' & Hbk' & Hres' & Hsame & Hsome & Hlog & Hn).
    split; [exact Hadr'|]. split; [exact Hbk'|].
    split; [rewrite Hres', Hres1; symmetry; apply Permutation_middle|].
    split; [|split; [exact Hsome|split; [exact Hlog|exact Hn]]].
    apply (same_addressing_trans _ t1); [apply same_addressing_set_bucket|exact Hsame].
Qed.

Lemma doubled_spec t tbl :
  pTable t = Some tbl → table_ok t →
  nextSplitIndex t > hashIxMask t →
  nBitsHashIxSplitMask t + 1 ≤ logBaseTwoTableSize t →
  ∃ t2, doubled t = Returns t2 ∧
        table_ok t2 ∧ tableSize t2 = tableSize t ∧
        nextSplitIndex t2 = 0 ∧
        nBitsHashIxSplitMask t2 = nBitsHashIxSplitMask t + 1 ∧
        pTable t2 = pTable t ∧ nInUse t2 = nInUse t ∧
        logBaseTwoTableSize t2 = logBaseTwoTableSize t ∧
        hashIxMask t2 = 2 ^ nBitsHashIxSplitMask t - 1 ∧
        hashIxSplitMask t2 = 2 ^ (nBitsHashIxSplitMask t + 1) - 1.
Proof.
  intros Ht [Hadr Hbk Hd Hcnt] Hfull Hlog.
  destruct (addressing_ok_facts t tbl Ht Hadr)
    as [Fb Fl Fsp Fm Fh Fn Fsz Flen Ffit Farr Fun].
  set (n := nBitsHashIxSplitMask t) in *.
  assert (nextSplitIndex t = 2 ^ (n - 1)) as Hnx by lia.
  assert (2 ^ (n + 1) = 2 * 2 ^ n) as Hpow by (rewrite Z.pow_add_r by lia; lia).
  assert (2 ^ n = 2 * 2 ^ (n - 1)) as Hpow' by (apply pow2_double; lia).
  assert (2 ^ (n + 1) ≤ 2 ^ logBaseTwoTableSize t) by (apply Z.pow_le_mono_r; lia).
  set (t2 := ResTable (pTable t) 0 (2 ^ n - 1) (2 ^ (n + 1) - 1) (n + 1)
               (logBaseTwoTableSize t) (nInUse t)).
  assert (doubled t = Returns t2) as Hdbl.
  { unfold doubled. fold n. rewrite (u32_small (n + 1)) by lia.
    rewrite resTableBitMask_val by lia. bind_returns.
    rewrite half_of_mask by lia. replace (n + 1 - 1) with n by lia.
    reflexivity. }
  exists t2. split; [exact Hdbl|].
  assert (tableSize t2 = tableSize t) as Hsz.
  { rewrite Fsz. unfold tableSize, t2. cbn [pTable hashIxMask nextSplitIndex].
    rewrite Ht. rewrite (u32_small (_ + 1)) by lia. rewrite u32_small by lia. lia. }
  assert (∀ idIn, hash t2 idIn = hash t idIn) as Hhash.
  { intros idIn. unfold hash, t2. cbn [hashIxMask hashIxSplitMask nextSplitIndex].
    rewrite Fm, Fsp, <- Hpow'.
    rewrite !land_low_bits by lia.
    pose proof (Z.mod_pos_bound (id_hash idIn) (2 ^ n) ltac:(lia)).
    pose proof (Z.mod_pos_bound (id_hash idIn) (2 ^ (n - 1)) ltac:(lia)).
    destruct (Z.geb_spec (id_hash idIn mod 2 ^ n) 0); [|lia].
    destruct (Z.geb_spec (id_hash idIn mod 2 ^ (n - 1)) (nextSplitIndex t)); [lia|].
    reflexivity. }
  split; [|repeat split; auto].
  split.
  - unfold addressing_ok. change (pTable t2) with (pTable t). rewrite Ht.
    change (nBitsHashIxSplitMask t2) with (n + 1).
    change (hashIxSplitMask t2) with (2 ^ (n + 1) - 1).
    change (hashIxMask t2) with (2 ^ n - 1).
    change (nextSplitIndex t2) with 0.
    change (logBaseTwoTableSize t2) with (logBaseTwoTableSize t).
    unfold UINT_WIDTH. repeat split; try lia.
    + f_equal. f_equal. lia.
    + intros i Hi. rewrite Hsz in Hi. exact (Fun i Hi).
  - intros i chain r Hi Hr. rewrite Hhash. exact (Hbk i chain r Hi Hr).
  - exact Hd.
  - exact Hcnt.
Qed.

(** A table whose masks have 30 bits cannot be doubled: the mask of 31
    bits is out of the range of [int]. *)
Lemma doubled_undefined t :
  30 ≤ nBitsHashIxSplitMask t < 2 ^ 32 - 1 → doubled t = Undefined.
Proof.
  intros Hn. unfold doubled. rewrite (u32_small (_ + 1)) by lia.
  rewrite resTableBitMask_undefined by lia. reflexivity.
Qed.

Lemma split_step_spec t tbl :
  pTable t = Some tbl → table_ok t → nextSplitIndex t ≤ hashIxMask t →
  table_ok (split_step t) ∧ residents (split_step t) ≡ₚ residents t ∧
  tableSize (split_step t) = tableSize t + 1 ∧
  nInUse (split_step t) = nInUse t ∧ is_Some (pTable (split_step t)) ∧
  logBaseTwoTableSize (split_step t) = logBaseTwoTableSize t ∧
  nBitsHashIxSplitMask (split_step t) = nBitsHashIxSplitMask t.
Proof.
  intros Ht [Hadr Hbk Hd Hcnt] Hroom.
  destruct (addressing_ok_facts t tbl Ht Hadr)
    as [Fb Fl Fsp Fm Fh Fn Fsz Flen Ffit Farr Fun].
  unfold split_step. cbn [SLList.move].
  set (p := nextSplitIndex t) in *.
  set (t3 := set_bucket p SLList.empty t).
  set (t4 := ResTable (pTable t3) _ _ _ _ _ _).
  assert (pTable t4 = Some (<[Z.to_nat p := []]> tbl)) as Ht4.
  { unfold t4, t3, set_bucket. simpl. rewrite Ht. reflexivity. }
  assert (buckets t4 = <[Z.to_nat p := []]> tbl) as Hb4
    by (apply buckets_Some; exact Ht4).
  assert (nextSplitIndex t4 = p + 1) as Hnx4.
  { unfold t4. simpl. fold p. apply u32_small. lia. }
  assert (tableSize t4 = tableSize t + 1) as Hsz4.
  { rewrite Fsz. unfold tableSize. rewrite Ht4, Hnx4.
    change (hashIxMask t4) with (hashIxMask t). rewrite Fm.
    rewrite (u32_small (_ + 1)) by lia. rewrite u32_small by lia. lia. }
  assert ((Z.to_nat p < length tbl)%nat) as Hplt by lia.
  assert (addressing_ok t4) as Hadr4.
  { unfold addressing_ok. rewrite Ht4, Hnx4.
    change (hashIxMask t4) with (hashIxMask t).
    change (hashIxSplitMask t4) with (hashIxSplitMask t).
    change (nBitsHashIxSplitMask t4) with (nBitsHashIxSplitMask t).
    change (logBaseTwoTableSize t4) with (logBaseTwoTableSize t).
    rewrite length_insert. unfold UINT_WIDTH.
    assert (2 ^ nBitsHashIxSplitMask t = 2 * 2 ^ (nBitsHashIxSplitMask t - 1))
      by (apply pow2_double; lia).
    repeat split; try lia.
    intros i Hi. rewrite Hsz4 in Hi. unfold bucket. rewrite Hb4, Nat2Z.id.
    rewrite list_lookup_insert_ne by lia.
    specialize (Fun i ltac:(lia)). unfold bucket in Fun.
    rewrite (buckets_Some t tbl Ht), Nat2Z.id in Fun. exact Fun. }
  assert (bucket_consistent t4) as Hbk4.
  { intros i chain r Hi Hr. rewrite Hb4 in Hi.
    destruct (decide (i = Z.to_nat p)) as [->|Hne].
    - rewrite list_lookup_insert_eq in Hi by exact Hplt.
      injection Hi as <-. inversion Hr.
    - rewrite list_lookup_insert_ne in Hi by congruence.
      rewrite <- (buckets_Some t tbl Ht) in Hi.
      pose proof (Hbk i chain r Hi Hr) as Hh. revert Hh. unfold hash.
      rewrite Hnx4. change (hashIxMask t4) with (hashIxMask t).
      change (hashIxSplitMask t4) with (hashIxSplitMask t). fold p.
      destruct (Z.geb_spec (Z.land (id_hash (res_id r)) (hashIxMask t)) p);
        destruct (Z.geb_spec (Z.land (id_hash (res_id r)) (hashIxMask t)) (p + 1));
        intros Hh; try lia; try exact Hh. }
  assert (residents t ≡ₚ bucket t p ++ residents t4) as Hres4.
  { unfold residents. rewrite Hb4, (buckets_Some t tbl Ht).
    apply concat_lookup. rewrite <- (buckets_Some t tbl Ht).
    apply (lookup_bucket t tbl); assumption. }
  destruct (rehash_spec (bucket t p) t4 _ Ht4 Hadr4 Hbk4)
    as (Hadr' & Hbk' & Hres' & Hsame & Hsome & Hlog & Hn).
  assert (residents (rehash (bucket t p) t4) ≡ₚ residents t) as Hperm.
  { rewrite Hres', Hres4. reflexivity. }
  split; [|split; [exact Hperm|split; [|split; [exact Hn|split; [exact Hsome|split]]]]].
  - split.
    + exact Hadr'.
    + exact Hbk'.
    + apply (distinct_ids_perm (residents t)); [symmetry; exact Hperm|exact Hd].
    + unfold numEntriesInstalled in *. rewrite Hn.
      rewrite chain_lengths_residents, Hperm, <- chain_lengths_residents.
      exact Hcnt.
  - destruct Hsame as (_&_&_&_&->). exact Hsz4.
  - rewrite Hlog. reflexivity.
  - destruct Hsame as (_&_&_&->&_). reflexivity.
Qed.

End Split.

Ltac conjs := repeat match goal with |- _ ∧ _ => split end.

Section Add.
Context {T ID : Type} `{HL : IdentifierLaws ID} `{!Resource T ID}.
Implicit Types (t : resTable T) (idIn : ID) (res : T).

Lemma splitBucket_no_doubling alloc t tbl :
  pTable t = Some tbl → nextSplitIndex t ≤ hashIxMask t →
  splitBucket alloc t = Returns (split_step t).
Proof.
  intros Ht Hroom. unfold splitBucket. rewrite Ht.
  destruct (Z.gtb_spec (nextSplitIndex t) (hashIxMask t)); [lia|]. reflexivity.
Qed.

Lemma splitBucket_doubling alloc t tbl :
  pTable t = Some tbl → nextSplitIndex t > hashIxMask t →
  splitBucket alloc t =
    match setTableSizePrivate alloc (u32 (nBitsHashIxSplitMask t + 1)) t with
    | Returns (true, t1) => t2 ← doubled t1; Returns (split_step t2)
    | Returns (false, _) => Returns t
    | Throws => Throws
    | Undefined => Undefined
    end.
Proof.
  intros Ht Hfull. unfold splitBucket. rewrite Ht.
  destruct (Z.gtb_spec (nextSplitIndex t) (hashIxMask t)); [|lia].
  destruct (setTableSizePrivate alloc _ t) as [[[] t1]| |]; reflexivity.
Qed.

(** [splitBucket] on a table that can still grow, or whose allocation
    fails. *)
Lemma splitBucket_spec alloc t tbl :
  pTable t = Some tbl → table_ok t → (alloc = true → tableSize t < 2 ^ 30) →
  ∃ t', splitBucket alloc t = Returns t' ∧ table_ok t' ∧
        residents t' ≡ₚ residents t ∧ nInUse t' = nInUse t ∧
        is_Some (pTable t') ∧
        tableSize t ≤ tableSize t' ≤ tableSize t + 1 ∧
        (tableSize t' = tableSize t + 1 ∨
         t' = t ∧ alloc = false ∧ nextSplitIndex t > hashIxMask t ∧
         logBaseTwoTableSize t ≤ nBitsHashIxSplitMask t).
Proof.
  intros Ht Hok Hsmall. pose proof Hok as [Hadr _ _ _].
  destruct (addressing_ok_facts t tbl Ht Hadr)
    as [Fb Fl Fsp Fm Fh Fn Fsz Flen Ffit Farr Fun].
  destruct (Z.le_gt_cases (nextSplitIndex t) (hashIxMask t)) as [Hroom|Hfull].
  - rewrite (splitBucket_no_doubling alloc t tbl Ht Hroom).
    destruct (split_step_spec t tbl Ht Hok Hroom) as (Hok' & Hp & Hsz & Hn & Hs & _).
    exists (split_step t). conjs; try reflexivity; try assumption; try lia.
  - rewrite (splitBucket_doubling alloc t tbl Ht) by lia.
    set (n := nBitsHashIxSplitMask t) in *.
    assert (2 ^ n = 2 * 2 ^ (n - 1)) as Hpow by (apply pow2_double; lia).
    rewrite (u32_small (n + 1)) by lia.
    assert (∀ t1 tbl1, pTable t1 = Some tbl1 → table_ok t1 → same_addressing t t1 →
              n + 1 ≤ logBaseTwoTableSize t1 → residents t1 = residents t →
              nInUse t1 = nInUse t →
              ∃ t', (t2 ← doubled t1; Returns (split_step t2)) = Returns t' ∧
                    table_ok t' ∧ residents t' ≡ₚ residents t ∧
                    nInUse t' = nInUse t ∧ is_Some (pTable t') ∧
                    tableSize t' = tableSize t + 1) as Hgo.
    { intros t1 tbl1 Ht1 Hok1 (Hnx & Hm & Hs & Hnb & Hsz) Hlog Hres Hnu.
      destruct (doubled_spec t1 tbl1 Ht1 Hok1)
        as (t2 & -> & Hok2 & Hsz2 & Hnx2 & Hnb2 & Hp2 & Hnu2 & _); [lia|lia|].
      bind_returns.
      assert (pTable t2 = Some tbl1) as Ht2 by (rewrite Hp2; exact Ht1).
      pose proof Hok2 as [Hadr2 _ _ _].
      destruct (addressing_ok_facts _ tbl1 Ht2 Hadr2)
        as [Gb Gl Gsp Gm Gh Gn Gsz Glen Gfit Garr Gun].
      destruct (split_step_spec _ tbl1 Ht2 Hok2) as (Hok' & Hp & Hsz' & Hn' & Hs' & _);
        [lia|].
      assert (residents t2 = residents t1) as Hres2.
      { unfold residents, buckets. rewrite Hp2. reflexivity. }
      exists (split_step t2). split; [reflexivity|].
      split; [exact Hok'|]. split; [rewrite Hp, Hres2, Hres; reflexivity|].
      split; [rewrite Hn', Hnu2; exact Hnu|]. split; [exact Hs'|]. lia. }
    destruct (Z.le_gt_cases (n + 1) (logBaseTwoTableSize t)) as [Hpre|Hneed].
    + rewrite setTableSizePrivate_noop by lia.
      destruct (Hgo t tbl Ht Hok (same_addressing_refl t) Hpre eq_refl eq_refl)
        as (t' & -> & ? & ? & ? & ? & ?).
      exists t'. conjs; try reflexivity; try assumption; try lia.
    + destruct alloc.
      * specialize (Hsmall eq_refl).
        assert (n < 30) as Hn30.
        { destruct (Z.lt_ge_cases n 30) as [|Hge]; [assumption|].
          assert (2 ^ 30 ≤ 2 ^ n) by (apply Z.pow_le_mono_r; lia). lia. }
        destruct (setTableSizePrivate_grow (n + 1) t tbl Ht Hok)
          as (t1 & -> & Hsame & Hlog & Ht1 & Hnu & Hres & Hok1); [lia|lia|].
        destruct (Hgo t1 _ Ht1 (Hok1 ltac:(lia)) Hsame ltac:(lia) Hres Hnu)
          as (t' & -> & ? & ? & ? & ? & ?).
        exists t'. conjs; try reflexivity; try assumption; try lia.
      * rewrite setTableSizePrivate_fail by lia. rewrite Ht.
        exists t. conjs; try reflexivity; try assumption; try lia; eauto.
        right. conjs; try reflexivity; lia.
Qed.

(** A table of 2^30 chains in use has masks of 30 bits and has split all
    chains of its lower half: the next split doubles the addressing, and
    once the allocation has succeeded the mask of 31 bits is computed. *)
Lemma splitBucket_at_limit t tbl :
  pTable t = Some tbl → table_ok t → 2 ^ 30 ≤ tableSize t →
  splitBucket true t = Undefined.
Proof.
  intros Ht Hok Hbig. pose proof Hok as [Hadr _ _ _].
  destruct (addressing_ok_facts t tbl Ht Hadr)
    as [Fb Fl Fsp Fm Fh Fn Fsz Flen Ffit Farr Fun].
  set (n := nBitsHashIxSplitMask t) in *.
  assert (2 ^ n = 2 * 2 ^ (n - 1)) as Hpow by (apply pow2_double; lia).
  assert (2 ^ n ≤ 2 ^ 30) by lia.
  assert (n = 30) as Hn.
  { destruct (Z.lt_ge_cases n 30) as [Hlt|]; [|lia].
    assert (2 ^ n ≤ 2 ^ 29) by (apply Z.pow_le_mono_r; lia). lia. }
  rewrite (splitBucket_doubling true t tbl Ht) by lia. fold n.
  rewrite (u32_small (n + 1)) by lia.
  destruct (setTableSizePrivate_grow (n + 1) t tbl Ht Hok)
    as (t1 & -> & (_ & _ & _ & Hnb & _) & _); [lia|lia|].
  rewrite doubled_undefined by (rewrite Hnb; fold n; lia). reflexivity.
Qed.

Lemma splitBucket_limit alloc t tbl :
  pTable t = Some tbl → table_ok t →
  (alloc = true → tableSize t < 2 ^ 30) ∨ splitBucket alloc t = Undefined.
Proof.
  intros Ht Hok. destruct alloc; [|left; discriminate].
  destruct (Z.lt_ge_cases (tableSize t) (2 ^ 30)) as [Hlt|Hge].
  - left. intros _. exact Hlt.
  - right. exact (splitBucket_at_limit t tbl Ht Hok Hge).
Qed.

(** What [lookup] returns is determined by the residents. *)
Lemma lookup_perm t t' idIn :
  table_ok t → table_ok t' → residents t' ≡ₚ residents t →
  lookup idIn t' = lookup idIn t.
Proof.
  intros Hok Hok' Hp. rewrite !lookup_residents by assumption.
  apply find_perm; [exact (ok_distinct _ Hok')|exact Hp].
Qed.

Lemma lookup_eq t tbl idIn :
  pTable t = Some tbl → lookup idIn t = find (bucket t (hash t idIn)) idIn.
Proof. intros Ht. unfold lookup. rewrite Ht. reflexivity. Qed.

Lemma add_first_throws res t :
  pTable t = None → table_ok t → add false res t = Throws.
Proof.
  intros Ht Hok. unfold add. rewrite Ht.
  rewrite setTableSizePrivate_fail; [rewrite Ht; reflexivity| |lia].
  pose proof (ok_addressing _ Hok) as Hadr. unfold addressing_ok in Hadr.
  rewrite Ht in Hadr. lia.
Qed.

(** [add] on a table with room to grow, or whose allocation fails. *)
Lemma add_spec alloc res t :
  table_ok t → (alloc = true → tableSize t < 2 ^ 30) →
  (pTable t = None → alloc = true) →
  ∃ status t',
    add alloc res t = Returns (status, t') ∧ table_ok t' ∧ is_Some (pTable t') ∧
    (is_Some (pTable t) →
       tableSize t ≤ tableSize t' ≤ tableSize t + 1 ∧
       (nInUse t < tableSize t → tableSize t' = tableSize t)) ∧
    (pTable t = None → tableSize t' = 512) ∧
    match lookup (res_id res) t with
    | Some _ => status = -1 ∧ residents t' ≡ₚ residents t ∧ nInUse t' = nInUse t
    | None => status = 0 ∧ residents t' ≡ₚ res :: residents t ∧
              nInUse t' = u32 (nInUse t + 1)
    end.
Proof.
  intros Hok Hsmall Halloc. unfold add.
  assert (∀ t1 tbl1, pTable t1 = Some tbl1 → table_ok t1 →
            ∃ status t',
              install res t1 = (status, t') ∧ table_ok t' ∧ is_Some (pTable t') ∧
              tableSize t' = tableSize t1 ∧
              match lookup (res_id res) t1 with
              | Some _ => status = -1 ∧ residents t' ≡ₚ residents t1 ∧
                          nInUse t' = nInUse t1
              | None => status = 0 ∧ residents t' ≡ₚ res :: residents t1 ∧
                        nInUse t' = u32 (nInUse t1 + 1)
              end) as Htail.
  { intros t1 tbl1 Ht1 Hok1. pose proof (install_spec t1 tbl1 res Ht1 Hok1) as Hs.
    destruct (lookup (res_id res) t1) as [r|].
    - exists (-1), t1. rewrite Ht1. conjs; try reflexivity; eauto.
    - destruct Hs as (t' & -> & Hsame & Hsome & _ & Hp & Hn & Hok').
      exists 0, t'. conjs; try reflexivity; try assumption.
      destruct Hsame as (_&_&_&_&->). reflexivity. }
  destruct (pTable t) as [tbl|] eqn:Ht.
  - destruct (Z.geb_spec (nInUse t) (tableSize t)) as [Hfull|Hfree].
    + destruct (splitBucket_spec alloc t tbl Ht Hok Hsmall)
        as (t1 & -> & Hok1 & Hp1 & Hn1 & [tbl1 Ht1] & Hsz1 & _).
      simpl. change (mbind ?f (Returns ?a)) with (f a).
      destruct (Htail t1 tbl1 Ht1 Hok1)
        as (status & t' & Heq & Hok' & Hsome' & Hsz' & Hcase).
      rewrite <- (lookup_eq t1 tbl1 _ Ht1).
      rewrite <- (lookup_perm t t1 (res_id res) Hok Hok1 Hp1).
      destruct (lookup (res_id res) t1) as [r|] eqn:Hl.
      * exists (-1), t1. split; [reflexivity|]. split; [exact Hok1|].
        split; [eauto|]. split; [intros _; split; [lia|intros; lia]|].
        split; [discriminate|]. auto.
      * rewrite (add_tail_unfold res t1) by eauto.
        rewrite Heq. exists status, t'. destruct Hcase as (-> & Hp & Hn).
        split; [reflexivity|]. split; [exact Hok'|].
        split; [exact Hsome'|]. split; [intros _; split; [lia|intros; lia]|].
        split; [discriminate|]. split; [reflexivity|].
        split; [rewrite Hp, Hp1; reflexivity|congruence].
    + destruct (Htail t tbl Ht Hok)
        as (status & t' & Heq & Hok' & Hsome' & Hsz' & Hcase).
      rewrite (add_tail_unfold res t) by eauto.
      rewrite Heq. exists status, t'.
      split; [reflexivity|]. split; [exact Hok'|].
      split; [exact Hsome'|]. split; [intros _; split; [lia|intros; lia]|].
      split; [discriminate|]. exact Hcase.
  - rewrite (Halloc eq_refl).
    destruct (setTableSizePrivate_first 10 t Ht Hok)
      as (t1 & -> & Ht1 & Hnb & Hlog & Hnx & Hn & Hres & Hok1); [lia|lia|].
    simpl. change (mbind ?f (Returns ?a)) with (f a). simpl.
    assert (lookup (res_id res) t = None) as ->.
    { unfold lookup. rewrite Ht. reflexivity. }
    assert (nInUse t = 0) as Hzero.
    { pose proof (ok_count _ Hok) as Hc.
      unfold numEntriesInstalled, chain_lengths, buckets in Hc.
      rewrite Ht in Hc. exact Hc. }
    destruct (Htail t1 _ Ht1 Hok1) as (status & t' & Heq & Hok' & Hsome' & Hsz' & Hcase).
    assert (lookup (res_id res) t1 = None) as Hl1.
    { rewrite lookup_residents by exact Hok1. rewrite Hres. reflexivity. }
    rewrite Hl1 in Hcase. destruct Hcase as (-> & Hp & Hnu).
    rewrite (add_tail_unfold res t1) by eauto.
    rewrite Heq. exists 0, t'.
    split; [reflexivity|]. split; [exact Hok'|]. split; [exact Hsome'|].
    split; [intros [? [=]]|].
    split.
    { intros _. rewrite Hsz'. unfold tableSize. rewrite Ht1.
      pose proof (ok_addressing _ Hok1) as Hadr1.
      destruct (addressing_ok_facts t1 _ Ht1 Hadr1)
        as [Gb Gl Gsp Gm Gh Gn Gsz Glen Gfit Garr Gun].
      unfold tableSize in Gsz. rewrite Ht1 in Gsz. rewrite Gsz, Hnb, Hnx.
      reflexivity. }
    split; [reflexivity|]. split; [|congruence].
    rewrite Hp. unfold residents at 2, buckets. rewrite Hres, Ht. reflexivity.
Qed.

End Add.

(** ** Counting the bits of the size hint *)

Lemma bits_below_32 (m i : Z) : 0 ≤ m < 2 ^ 32 → 32 ≤ i → Z.testbit m i = false.
Proof.
  intros Hm Hi. destruct (Z.eq_dec m 0) as [->|Hnz]; [apply Z.bits_0|].
  apply Z.bits_above_log2; [lia|].
  assert (Z.log2 m < 32) by (apply Z.log2_lt_pow2; lia). lia.
Qed.

(** The test of the loop of [setTableSize] with a mask of [k] bits: no bit of
    [newMask] lies at or above position [k]. *)
Lemma high_bits_clear (m k : Z) :
  0 ≤ m < 2 ^ 32 → 0 ≤ k ≤ 31 →
  Z.land m (u32 (Z.lnot (2 ^ k - 1))) = 0 ↔ m < 2 ^ k.
Proof.
  intros Hm Hk.
  assert (Z.land m (u32 (Z.lnot (2 ^ k - 1))) = Z.shiftl (Z.shiftr m k) k) as ->.
  { apply Z.bits_inj'. intros i Hi.
    rewrite Z.land_spec, Z.shiftl_spec by lia.
    replace (2 ^ k - 1) with (Z.ones k) by (rewrite Z.ones_equiv; lia).
    unfold u32, UINT_WIDTH.
    destruct (Z.lt_ge_cases i 32) as [Hlow|Hhigh].
    - rewrite Z.mod_pow2_bits_low, Z.lnot_spec by lia.
      destruct (Z.lt_ge_cases i k) as [Hik|Hik].
      + rewrite Z.ones_spec_low by lia. rewrite (Z.testbit_neg_r _ (i - k)) by lia.
        apply andb_false_r.
      + rewrite Z.ones_spec_high by lia. rewrite Z.shiftr_spec by lia.
        rewrite andb_true_r. f_equal. lia.
    - rewrite Z.mod_pow2_bits_high by lia. rewrite Z.shiftr_spec by lia.
      replace (i - k + k) with i by lia.
      rewrite (bits_below_32 m i) by lia. reflexivity. }
  rewrite Z.shiftl_mul_pow2, Z.shiftr_div_pow2 by lia.
  assert (0 < 2 ^ k) by (apply Z.pow_pos_nonneg; lia).
  split.
  - intros Hz. assert (m `div` 2 ^ k = 0) as Hd by nia.
    apply Z.div_small_iff in Hd; lia.
  - intros Hlt. rewrite Z.div_small by lia. reflexivity.
Qed.

(** The loop of [setTableSize] finds the number of bits of [newMask] when
    that is at most 30, and calls [resTableBitMask] with 31 bits when it is
    more. *)
Lemma countBits_spec (n : nat) : ∀ nbits m,
  0 ≤ m < 2 ^ 32 → 0 ≤ nbits ≤ 31 → nbits + Z.of_nat n = 32 →
  (0 < nbits → 2 ^ (nbits - 1) ≤ m) →
  match countBits n nbits m with
  | Returns k => nbits ≤ k ≤ 30 ∧ m < 2 ^ k ∧ (0 < k → 2 ^ (k - 1) ≤ m)
  | Throws => False
  | Undefined => 2 ^ 30 ≤ m
  end.
Proof.
  induction n as [|n IH]; intros nbits m Hm Hk Hsum Hlow; simpl countBits; [lia|].
  destruct (Z.eq_dec nbits 31) as [->|Hne].
  - rewrite resTableBitMask_undefined by lia. simpl. apply Hlow. lia.
  - rewrite resTableBitMask_val by lia. bind_returns.
    destruct (Z.eqb_spec (Z.land m (u32 (Z.lnot (2 ^ nbits - 1)))) 0) as [Hz|Hnz].
    + apply high_bits_clear in Hz; [|exact Hm|lia].
      split; [lia|]. split; [exact Hz|exact Hlow].
    + assert (¬ m < 2 ^ nbits) as Hge.
      { intros Hlt. apply Hnz. apply high_bits_clear; [exact Hm|lia|exact Hlt]. }
      specialize (IH (nbits + 1) m Hm ltac:(lia) ltac:(lia)).
      destruct (countBits n (nbits + 1) m) as [k| |].
      * destruct IH as (Hr & Hup & Hdown).
        { intros _. replace (nbits + 1 - 1) with nbits by lia. lia. }
        split; [lia|]. split; [exact Hup|exact Hdown].
      * apply IH. intros _. replace (nbits + 1 - 1) with nbits by lia. lia.
      * apply IH. intros _. replace (nbits + 1 - 1) with nbits by lia. lia.
Qed.

Lemma countBits_returns (m : Z) :
  0 ≤ m < 2 ^ 30 →
  ∃ k, countBits (Z.to_nat UINT_WIDTH) 0 m = Returns k ∧
       0 ≤ k ≤ 30 ∧ m < 2 ^ k ∧ (0 < k → 2 ^ (k - 1) ≤ m).
Proof.
  intros Hm.
  pose proof (countBits_spec (Z.to_nat UINT_WIDTH) 0 m ltac:(lia) ltac:(lia)
                eq_refl ltac:(lia)) as Hs.
  destruct (countBits (Z.to_nat UINT_WIDTH) 0 m) as [k| |]; [|contradiction|lia].
  exists k. split; [reflexivity|exact Hs].
Qed.

Lemma countBits_undefined (m : Z) :
  2 ^ 30 ≤ m < 2 ^ 32 → countBits (Z.to_nat UINT_WIDTH) 0 m = Undefined.
Proof.
  intros Hm.
  pose proof (countBits_spec (Z.to_nat UINT_WIDTH) 0 m ltac:(lia) ltac:(lia)
                eq_refl ltac:(lia)) as Hs.
  destruct (countBits (Z.to_nat UINT_WIDTH) 0 m) as [k| |];
    [|contradiction|reflexivity].
  destruct Hs as (Hk & Hlt & _).
  assert (2 ^ k ≤ 2 ^ 30) by (apply Z.pow_le_mono_r; lia). lia.
Qed.

Section Operations.
Context {T ID : Type} `{HL : IdentifierLaws ID} `{!Resource T ID}.
Implicit Types (t : resTable T) (idIn : ID) (res : T).

Lemma table_ok_new : table_ok (resTable_new (T := T)).
Proof.
  split.
  - unfold addressing_ok. simpl. auto.
  - intros i chain r Hi. inversion Hi.
  - exact I.
  - reflexivity.
Qed.

Lemma no_table_empty t : pTable t = None → table_ok t → nInUse t = 0.
Proof.
  intros Ht Hok. pose proof (ok_count _ Hok) as Hc.
  unfold numEntriesInstalled, chain_lengths, buckets in Hc.
  rewrite Ht in Hc. exact Hc.
Qed.

Lemma no_table_log t : pTable t = None → table_ok t → logBaseTwoTableSize t = 0.
Proof.
  intros Ht Hok. pose proof (ok_addressing _ Hok) as Hadr.
  unfold addressing_ok in Hadr. rewrite Ht in Hadr. lia.
Qed.

(** The size of a table that has just got its bucket array. *)
Lemma first_tableSize t tbl :
  pTable t = Some tbl → table_ok t → nextSplitIndex t = 0 →
  tableSize t = 2 ^ (nBitsHashIxSplitMask t - 1).
Proof.
  intros Ht Hok Hnx. pose proof (ok_addressing _ Hok) as Hadr.
  destruct (addressing_ok_facts t tbl Ht Hadr)
    as [Fb Fl Fsp Fm Fh Fn Fsz Flen Ffit Farr Fun]. lia.
Qed.

(** [setTableSize] *)
Lemma setTableSize_spec alloc newTableSize t :
  table_ok t →
  match setTableSize alloc newTableSize t with
  | Returns t' =>
      table_ok t' ∧ residents t' = residents t ∧ nInUse t' = nInUse t ∧
      (is_Some (pTable t) → is_Some (pTable t') ∧ same_addressing t t') ∧
      (pTable t = None → tableSize t' ≤ 2 ^ 29)
  | Throws => alloc = false ∧ pTable t = None
  | Undefined => 2 ^ 30 ≤ u32 (newTableSize - 1)
  end.
Proof.
  intros Hok. unfold setTableSize.
  assert (table_ok t ∧ residents t = residents t ∧ nInUse t = nInUse t ∧
          (is_Some (pTable t) → is_Some (pTable t) ∧ same_addressing t t) ∧
          (pTable t = None → tableSize t ≤ 2 ^ 29)) as Hsame.
  { split; [exact Hok|]. split; [reflexivity|]. split; [reflexivity|].
    split; [intros Hs; split; [exact Hs|apply same_addressing_refl]|].
    intros Ht. unfold tableSize. rewrite Ht. lia. }
  destruct (Z.eqb_spec newTableSize 0); [exact Hsame|].
  set (newMask := u32 (newTableSize - 1)).
  pose proof (u32_range (newTableSize - 1)) as Hmask. fold newMask in Hmask.
  pose proof (countBits_spec (Z.to_nat UINT_WIDTH) 0 newMask Hmask ltac:(lia)
                eq_refl ltac:(lia)) as Hcount.
  destruct (countBits (Z.to_nat UINT_WIDTH) 0 newMask) as [nbits| |];
    [|contradiction|exact Hcount].
  destruct Hcount as (Hrange & _). bind_returns.
  destruct (Z.le_gt_cases nbits (logBaseTwoTableSize t)) as [Hle|Hgt].
  { rewrite setTableSizePrivate_noop by exact Hle. exact Hsame. }
  destruct alloc.
  - destruct (pTable t) as [tbl|] eqn:Ht.
    + destruct (setTableSizePrivate_grow nbits t tbl Ht Hok)
        as (t' & -> & Hsa & Hlog & Ht' & Hnu & Hres & Hok'); [lia|lia|].
      specialize (Hok' ltac:(lia)).
      simpl. split; [exact Hok'|]. split; [exact Hres|]. split; [exact Hnu|].
      split; [|discriminate]. intros _. rewrite Ht'. eauto.
    + pose proof (no_table_log t Ht Hok) as Hlog0.
      destruct (setTableSizePrivate_first nbits t Ht Hok)
        as (t' & -> & Ht' & Hnb & Hlog & Hnx & Hnu & Hres & Hok'); [lia|lia|].
      simpl. split; [exact Hok'|].
      split; [rewrite Hres; unfold residents, buckets; rewrite Ht; reflexivity|].
      split; [rewrite Hnu; symmetry; exact (no_table_empty t Ht Hok)|].
      split; [intros [? [=]]|]. intros _.
      rewrite (first_tableSize t' _ Ht' Hok' Hnx), Hnb.
      apply Z.pow_le_mono_r; lia.
  - rewrite setTableSizePrivate_fail by lia.
    destruct (pTable t) as [tbl|] eqn:Ht; simpl; [|auto].
    rewrite Ht. exact Hsame.
Qed.

(** A full table of 2^30 chains cannot split another one once the bucket
    array has been doubled. *)
Lemma add_at_limit res t tbl :
  pTable t = Some tbl → table_ok t → 2 ^ 30 ≤ tableSize t →
  tableSize t ≤ nInUse t → add true res t = Undefined.
Proof.
  intros Ht Hok Hbig Hfull. unfold add. rewrite Ht.
  destruct (Z.geb_spec (nInUse t) (tableSize t)); [|lia].
  rewrite (splitBucket_at_limit t tbl Ht Hok Hbig). reflexivity.
Qed.

(** [add], whenever it returns. *)
Lemma add_returns alloc res t status t' :
  table_ok t → add alloc res t = Returns (status, t') →
  table_ok t' ∧ is_Some (pTable t') ∧
  match lookup (res_id res) t with
  | Some _ => status = -1 ∧ residents t' ≡ₚ residents t ∧ nInUse t' = nInUse t
  | None => status = 0 ∧ residents t' ≡ₚ res :: residents t ∧
            nInUse t' = u32 (nInUse t + 1)
  end.
Proof.
  intros Hok Hadd.
  assert ((alloc = true → tableSize t < 2 ^ 30) ∧ (pTable t = None → alloc = true) →
          table_ok t' ∧ is_Some (pTable t') ∧
          match lookup (res_id res) t with
          | Some _ => status = -1 ∧ residents t' ≡ₚ residents t ∧ nInUse t' = nInUse t
          | None => status = 0 ∧ residents t' ≡ₚ res :: residents t ∧
                    nInUse t' = u32 (nInUse t + 1)
          end) as Hmain.
  { intros [Hsmall Halloc].
    destruct (add_spec alloc res t Hok Hsmall Halloc)
      as (s & t1 & Heq & Hok1 & Hsome & _ & _ & Hcase).
    rewrite Heq in Hadd. injection Hadd as -> ->. auto. }
  destruct (pTable t) as [tbl|] eqn:Ht.
  - destruct (Z.lt_ge_cases (tableSize t) (2 ^ 30)) as [Hsmall|Hbig].
    { apply Hmain. split; [intros _; exact Hsmall|discriminate]. }
    destruct (Z.lt_ge_cases (nInUse t) (tableSize t)) as [Hfree|Hfull].
    + unfold add in Hadd. rewrite Ht in Hadd.
      destruct (Z.geb_spec (nInUse t) (tableSize t)); [lia|].
      rewrite (add_tail_unfold res t) in Hadd by eauto.
      injection Hadd as Hadd.
      pose proof (install_spec t tbl res Ht Hok) as Hs.
      destruct (lookup (res_id res) t) as [r|].
      * rewrite Hs in Hadd. injection Hadd as <- <-. rewrite Ht. eauto.
      * destruct Hs as (t1 & Heq & _ & Hsome & _ & Hp & Hn & Hok1).
        rewrite Heq in Hadd. injection Hadd as <- <-.
        split; [exact Hok1|]. split; [exact Hsome|].
        split; [reflexivity|]. split; [exact Hp|exact Hn].
    + destruct alloc.
      * rewrite (add_at_limit res t tbl Ht Hok) in Hadd by lia. discriminate.
      * apply Hmain. split; discriminate.
  - destruct alloc.
    + apply Hmain. split; [|reflexivity]. unfold tableSize. rewrite Ht. lia.
    + rewrite (add_first_throws res t Ht Hok) in Hadd. discriminate.
Qed.

End Operations.

Section Sequences.
Context {T ID : Type} `{HL : IdentifierLaws ID} `{!Resource T ID}.
Implicit Types (t : resTable T) (idIn : ID) (res : T).

Lemma find_id_eq (l : list T) (a b : ID) :
  id_eq a b = true → find l a = find l b.
Proof.
  intros Hab. induction l as [|x l IH]; simpl; [reflexivity|].
  destruct (id_eq (res_id x) a) eqn:Ha.
  - rewrite (id_eq_trans _ _ _ Ha Hab). reflexivity.
  - destruct (id_eq (res_id x) b) eqn:Hb; [|exact IH].
    rewrite (id_eq_trans _ _ _ Hb (id_eq_sym _ _ Hab)) in Ha. discriminate.
Qed.

Lemma lookup_id_eq t (a b : ID) :
  table_ok t → id_eq a b = true → lookup a t = lookup b t.
Proof.
  intros Hok Hab. rewrite !lookup_residents by exact Hok.
  apply find_id_eq. exact Hab.
Qed.

Lemma lookup_of_residents t (l : list T) idIn :
  table_ok t → residents t ≡ₚ l → lookup idIn t = find l idIn.
Proof.
  intros Hok Hp. rewrite lookup_residents by exact Hok.
  apply find_perm; [exact (ok_distinct _ Hok)|exact Hp].
Qed.

(** One operation: the invariants are kept and [lookup] changes as the
    caller expects. *)
Lemma perform_spec (o : operation T ID) t t' :
  table_ok t → perform o t = Returns t' →
  table_ok t' ∧ (length (residents t') ≤ length (residents t) + 1)%nat ∧
  ∀ idIn, lookup idIn t' = expected_step idIn (lookup idIn t) o.
Proof.
  intros Hok Hrun. destruct o as [alloc res|k|alloc n|]; simpl in Hrun.
  - destruct (add alloc res t) as [[status t1]| |] eqn:Hadd; try discriminate.
    injection Hrun as ->.
    destruct (add_returns alloc res t status t' Hok Hadd) as (Hok' & _ & Hcase).
    split; [exact Hok'|].
    destruct (lookup (res_id res) t) as [r|] eqn:Hl.
    + destruct Hcase as (_ & Hp & Hn). split; [rewrite Hp; lia|]. intros idIn. simpl.
      rewrite (lookup_perm t t' idIn Hok Hok' Hp).
      destruct (id_eq (res_id res) idIn) eqn:Hid; [|reflexivity].
      rewrite <- (lookup_id_eq t _ _ Hok Hid), Hl. reflexivity.
    + destruct Hcase as (_ & Hp & Hn). split; [rewrite Hp; simpl; lia|]. intros idIn. simpl.
      rewrite (lookup_of_residents t' _ idIn Hok' Hp). simpl.
      rewrite <- (lookup_residents t idIn Hok).
      destruct (id_eq (res_id res) idIn) eqn:Hid; [|reflexivity].
      rewrite <- (lookup_id_eq t _ _ Hok Hid), Hl. reflexivity.
  - injection Hrun as <-. pose proof (remove_spec t k Hok) as Hs.
    destruct (lookup k t) as [r|] eqn:Hl.
    + destruct Hs as (t1 & -> & _ & _ & _ & Hid & Hp & Hn & Hok1). simpl.
      split; [exact Hok1|]. split; [rewrite Hp; simpl; lia|]. intros idIn.
      rewrite (lookup_of_residents t _ idIn Hok Hp). simpl.
      rewrite <- (lookup_residents t1 idIn Hok1).
      pose proof (ok_distinct _ Hok) as Hd.
      apply (distinct_ids_perm _ _ Hp) in Hd. destruct Hd as [Hr _].
      destruct (id_eq k idIn) eqn:Hk.
      * rewrite (lookup_residents t1 idIn Hok1). apply find_None.
        intros o Ho. destruct (id_eq (res_id o) idIn) eqn:Ho'; [|reflexivity].
        assert (id_eq (res_id r) (res_id o) = true) as Hro.
        { apply id_eq_trans with idIn; [|apply id_eq_sym; exact Ho'].
          apply id_eq_trans with k; assumption. }
        rewrite (Hr o Ho) in Hro. discriminate.
      * destruct (id_eq (res_id r) idIn) eqn:Hr'; [|reflexivity].
        assert (id_eq k idIn = true) as Hk'.
        { apply id_eq_trans with (res_id r); [apply id_eq_sym; exact Hid|exact Hr']. }
        rewrite Hk in Hk'. discriminate.
    + rewrite Hs. simpl. split; [exact Hok|]. split; [lia|]. intros idIn.
      destruct (id_eq k idIn) eqn:Hk; [|reflexivity].
      rewrite <- (lookup_id_eq t _ _ Hok Hk). exact Hl.
  - pose proof (setTableSize_spec alloc n t Hok) as Hs. rewrite Hrun in Hs.
    destruct Hs as (Hok' & Hres & Hn & _). split; [exact Hok'|]. split; [rewrite Hres; lia|].
    intros idIn. simpl. apply (lookup_perm t t' idIn Hok Hok'). rewrite Hres. reflexivity.
  - injection Hrun as <-. split; [exact Hok|]. split; [lia|]. reflexivity.
Qed.

Lemma run_spec (ops : list (operation T ID)) : ∀ t t',
  table_ok t → run ops t = Returns t' →
  table_ok t' ∧
  (length (residents t') ≤ length (residents t) + length ops)%nat ∧
  ∀ idIn, lookup idIn t' = foldl (expected_step idIn) (lookup idIn t) ops.
Proof.
  induction ops as [|o ops IH]; intros t t' Hok Hrun; simpl in Hrun.
  - injection Hrun as <-. split; [exact Hok|]. split; [lia|reflexivity].
  - destruct (perform o t) as [t1| |] eqn:Hp; try discriminate.
    change (run ops t1 = Returns t') in Hrun.
    destruct (perform_spec o t t1 Hok Hp) as (Hok1 & Hn1 & Hl1).
    destruct (IH t1 t' Hok1 Hrun) as (Hok' & Hn' & Hl').
    split; [exact Hok'|]. split; [simpl length; lia|].
    intros idIn. rewrite Hl'. simpl. rewrite Hl1. reflexivity.
Qed.

End Sequences.

(** ** Integer identifiers satisfy the identifier contract *)

#[global] Instance intId_laws (MIN_INDEX_WIDTH MAX_ID_WIDTH : Z)
    `{!HashDefined MAX_ID_WIDTH} :
  IdentifierLaws (intId MIN_INDEX_WIDTH MAX_ID_WIDTH).
Proof.
  split; simpl.
  - intros a. apply Z.eqb_refl.
  - intros a b Hab. rewrite Z.eqb_sym. exact Hab.
  - intros a b c Hab Hbc. apply Z.eqb_eq in Hab, Hbc. apply Z.eqb_eq. congruence.
  - intros a b Hab. apply Z.eqb_eq in Hab. rewrite Hab. reflexivity.
Qed.

Section Claims.
Context {T ID : Type} `{HL : IdentifierLaws ID} `{!Resource T ID}.
Implicit Types (t : resTable T) (idIn : ID) (res : T).

(** C1. After any sequence of operations that the table completes,
    [lookup (id)] returns the entry exactly while the identifier is
    resident: from a successful [add] of it up to the matching [remove],
    and null at every other point. *)
Theorem lookup_follows_add_and_remove (ops : list (operation T ID)) t idIn :
  run ops resTable_new = Returns t →
  lookup idIn t = expected_lookup ops idIn.
Proof.
  intros Hrun.
  destruct (run_spec ops resTable_new t table_ok_new Hrun) as (_ & _ & Hl).
  rewrite Hl. reflexivity.
Qed.

(** C3. In every state the table reaches, the bucket index of an
    identifier with raw hash [h] is [h & halfMask] when that value is at
    least [nextSplitIndex], and [h & fullMask] otherwise, where
    [fullMask = 2 * halfMask + 1] is the split mask of a table that has its
    bucket array. *)
Theorem bucket_index_of_split_state (ops : list (operation T ID)) t idIn :
  run ops resTable_new = Returns t →
  let h := id_hash idIn in
  let halfMask := hashIxMask t in
  let fullMask := 2 * halfMask + 1 in
  (is_Some (pTable t) → hashIxSplitMask t = fullMask) ∧
  hash t idIn =
    (if Z.land h halfMask >=? nextSplitIndex t
     then Z.land h halfMask else Z.land h fullMask).
Proof.
  intros Hrun h halfMask fullMask.
  destruct (run_spec ops resTable_new t table_ok_new Hrun) as [[Hadr _ _ _] _].
  unfold hash, fullMask, halfMask, h.
  destruct (pTable t) as [tbl|] eqn:Ht.
  - destruct (addressing_ok_facts t tbl Ht Hadr)
      as [Fb Fl Fsp Fm Fh Fn Fsz Flen Ffit Farr Fun].
    assert (hashIxSplitMask t = 2 * hashIxMask t + 1) as -> by lia. auto.
  - unfold addressing_ok in Hadr. rewrite Ht in Hadr.
    destruct Hadr as (-> & -> & _). split; [intros [? [=]]|].
    rewrite Z.land_0_r. reflexivity.
Qed.

(** C9. A table that never got a bucket array, whatever was looked up in
    it or removed from it before, answers [lookup (id)] and [remove (id)]
    with null for every identifier, and [remove] leaves
    [numEntriesInstalled ()] at 0. *)
Theorem no_storage_lookup_remove (removed : list ID) idIn :
  let t := foldl (λ t k, (remove k t).2) (resTable_new (T := T)) removed in
  pTable t = None ∧
  lookup idIn t = None ∧
  (remove idIn t).1 = None ∧
  numEntriesInstalled (remove idIn t).2 = 0.
Proof.
  simpl.
  assert (foldl (λ t k, (remove k t).2) (resTable_new (T := T)) removed
          = resTable_new) as ->.
  { induction removed as [|k l IH] using rev_ind; [reflexivity|].
    rewrite foldl_app. simpl. rewrite IH. reflexivity. }
  repeat split.
Qed.

(** C10. [setTableSize] on a table that has its bucket array returns for
    every hint up to 2^30, whether its allocation succeeds or not. Whenever
    it returns, for any hint, it has left [nextSplitIndex], [hashIxMask],
    [hashIxSplitMask] and the number of split bits as they are; so the
    bucket index of every identifier, the chains in use, [tableSize ()] and
    [numEntriesInstalled ()] are the same after the call. Only the call that
    allocates the first bucket array sets the masks. *)
Theorem setTableSize_keeps_addressing alloc newTableSize t tbl :
  pTable t = Some tbl →
  (0 ≤ newTableSize ≤ 2 ^ 30 →
   ∃ t', setTableSize alloc newTableSize t = Returns t') ∧
  (∀ t', setTableSize alloc newTableSize t = Returns t' →
     is_Some (pTable t') ∧
     nextSplitIndex t' = nextSplitIndex t ∧
     hashIxMask t' = hashIxMask t ∧
     hashIxSplitMask t' = hashIxSplitMask t ∧
     nBitsHashIxSplitMask t' = nBitsHashIxSplitMask t ∧
     (∀ idIn, hash t' idIn = hash t idIn) ∧
     (∀ i : nat, Z.of_nat i < tableSize t →
        bucket t' (Z.of_nat i) = bucket t (Z.of_nat i)) ∧
     tableSize t' = tableSize t ∧
     numEntriesInstalled t' = numEntriesInstalled t).
Proof.
  intros Ht. split.
  - intros Hn. unfold setTableSize.
    destruct (Z.eqb_spec newTableSize 0); [eauto|].
    rewrite (u32_small (newTableSize - 1)) by lia.
    destruct (countBits_returns (newTableSize - 1) ltac:(lia))
      as (nbits & -> & Hr & _). bind_returns.
    unfold setTableSizePrivate.
    destruct (logBaseTwoTableSize t >=? nbits); [eauto|].
    set (n' := if nbits <? 4 then 4 else nbits).
    assert (n' ≤ 30) by (unfold n'; destruct (nbits <? 4); lia).
    unfold UINT_WIDTH. destruct (Z.leb_spec 32 n'); [lia|].
    rewrite Ht. destruct alloc; eauto.
  - intros t' Hrun.
    assert (Returns t = Returns t' →
            is_Some (pTable t') ∧
            nextSplitIndex t' = nextSplitIndex t ∧ hashIxMask t' = hashIxMask t ∧
            hashIxSplitMask t' = hashIxSplitMask t ∧
            nBitsHashIxSplitMask t' = nBitsHashIxSplitMask t ∧
            (∀ idIn, hash t' idIn = hash t idIn) ∧
            (∀ i : nat, Z.of_nat i < tableSize t →
               bucket t' (Z.of_nat i) = bucket t (Z.of_nat i)) ∧
            tableSize t' = tableSize t ∧
            numEntriesInstalled t' = numEntriesInstalled t) as Hsame.
    { intros [= <-]. rewrite Ht. repeat split; eauto. }
    unfold setTableSize in Hrun.
    destruct (Z.eqb_spec newTableSize 0); [exact (Hsame Hrun)|].
    destruct (countBits (Z.to_nat UINT_WIDTH) 0 (u32 (newTableSize - 1)))
      as [nbits| |]; [|discriminate|discriminate].
    bind_returns_in Hrun. unfold setTableSizePrivate in Hrun.
    destruct (logBaseTwoTableSize t >=? nbits); [exact (Hsame Hrun)|].
    destruct (UINT_WIDTH <=? (if nbits <? 4 then 4 else nbits)); [discriminate|].
    rewrite Ht in Hrun. destruct alloc; [|exact (Hsame Hrun)].
    injection Hrun as <-. simpl.
    split; [eauto|]. repeat (split; [reflexivity|]).
    split; [|split; [unfold tableSize; simpl; rewrite Ht; reflexivity|reflexivity]].
    intros i Hi. unfold bucket at 1. unfold buckets. cbn [SLList.move fst]. simpl.
    assert (Z.of_nat i < Z.of_nat (Z.to_nat (tableSize t))) by lia.
    rewrite Nat2Z.id, lookup_app_l by (rewrite length_fmap, length_seq; lia).
    rewrite list_lookup_fmap, lookup_seq_lt by lia. reflexivity.
Qed.

End Claims.

Section Traversal.
Context {T ID : Type} `{HL : IdentifierLaws ID} `{!Resource T ID}.
Implicit Types (t : resTable T) (idIn : ID) (res : T).

(** A traversal visits all residents, chain after chain. *)
Lemma visited_residents t : table_ok t → visited t = residents t.
Proof.
  intros Hok. unfold visited, residents.
  destruct (pTable t) as [tbl|] eqn:Ht.
  - pose proof (ok_addressing _ Hok) as Hadr.
    destruct (addressing_ok_facts t tbl Ht Hadr)
      as [Fb Fl Fsp Fm Fh Fn Fsz Flen Ffit Farr Fun].
    assert (((λ i : nat, bucket t (Z.of_nat i)) <$> seq 0 (Z.to_nat (tableSize t)))
              ++ replicate (length tbl - Z.to_nat (tableSize t)) [] = tbl) as Hm.
    { transitivity (tbl ++ replicate (length tbl - length tbl) []).
      - apply (moved_chains t tbl _ _ (buckets_Some t tbl Ht)); [|lia|lia].
        intros i Hi. apply Fun. lia.
      - rewrite Nat.sub_diag. apply app_nil_r. }
    rewrite (buckets_Some t tbl Ht). rewrite <- Hm at 1.
    rewrite concat_app, concat_replicate_nil, app_nil_r. reflexivity.
  - unfold tableSize, buckets. rewrite Ht. reflexivity.
Qed.

Lemma splitBucket_returns alloc t tbl t' :
  pTable t = Some tbl → table_ok t → splitBucket alloc t = Returns t' →
  table_ok t' ∧ residents t' ≡ₚ residents t ∧ nInUse t' = nInUse t ∧
  is_Some (pTable t') ∧
  (tableSize t' = tableSize t + 1 ∨
   t' = t ∧ alloc = false ∧ nextSplitIndex t > hashIxMask t ∧
   logBaseTwoTableSize t ≤ nBitsHashIxSplitMask t).
Proof.
  intros Ht Hok Hrun.
  destruct (splitBucket_limit alloc t tbl Ht Hok) as [Hsmall|Hundef].
  - destruct (splitBucket_spec alloc t tbl Ht Hok Hsmall)
      as (t1 & Heq & Hok1 & Hp & Hn & Hs & _ & Hsz).
    rewrite Heq in Hrun. injection Hrun as <-. auto.
  - rewrite Hundef in Hrun. discriminate.
Qed.

(** C5. A growth of the table, be it a split of a bucket with or without
    doubling of the bucket array or a [setTableSize], leaves the entries
    that a full traversal visits the same: the traversal after the growth
    is a rearrangement of the traversal before it, so no entry is lost and
    none is visited twice. [setTableSize] does not even change the order. *)
Theorem growth_preserves_traversal t :
  table_ok t →
  (∀ alloc t', is_Some (pTable t) → splitBucket alloc t = Returns t' →
     visited t' ≡ₚ visited t) ∧
  (∀ alloc newTableSize t', setTableSize alloc newTableSize t = Returns t' →
     visited t' = visited t).
Proof.
  intros Hok. split.
  - intros alloc t' [tbl Ht] Hrun.
    destruct (splitBucket_returns alloc t tbl t' Ht Hok Hrun) as (Hok' & Hp & _).
    rewrite !visited_residents by assumption. exact Hp.
  - intros alloc n t' Hrun.
    pose proof (setTableSize_spec alloc n t Hok) as Hs. rewrite Hrun in Hs.
    destruct Hs as (Hok' & Hres & _).
    rewrite !visited_residents by assumption. exact Hres.
Qed.

Lemma add_without_split alloc res t tbl :
  pTable t = Some tbl → nInUse t < tableSize t →
  add alloc res t = Returns (install res t).
Proof.
  intros Ht Hfree. unfold add. rewrite Ht.
  destruct (Z.geb_spec (nInUse t) (tableSize t)); [lia|].
  apply add_tail_unfold. eauto.
Qed.

Lemma install_duplicate res t tbl r :
  pTable t = Some tbl → lookup (res_id res) t = Some r → install res t = (-1, t).
Proof.
  intros Ht Hl. unfold lookup in Hl. rewrite Ht in Hl.
  unfold install. rewrite Hl. reflexivity.
Qed.

(** C4, as the code has it. An [add] of an identifier that is already
    resident, whenever it returns, returns -1. It leaves
    [numEntriesInstalled ()] as it is, the entries of the table are the
    entries from before the call, and [lookup] returns for every identifier
    what it returned before. The table itself is the same after the call if
    it was not full. On a full table [add] has called [splitBucket] before
    it looks for the identifier, and leaves the table as [splitBucket] left
    it: with one more chain in use, or, when the split needed a larger
    bucket array and the allocation failed, unchanged. The call returns in
    every case but one: on a full table with 2^30 chains in use, where the
    allocation of the doubled array succeeds, the split computes a mask of
    31 bits. *)
Theorem duplicate_add_keeps_entries alloc res t r :
  table_ok t → lookup (res_id res) t = Some r →
  (∀ status t', add alloc res t = Returns (status, t') →
     status = -1 ∧
     numEntriesInstalled t' = numEntriesInstalled t ∧
     residents t' ≡ₚ residents t ∧
     (∀ idIn, lookup idIn t' = lookup idIn t) ∧
     table_ok t' ∧
     (nInUse t < tableSize t → t' = t) ∧
     (tableSize t ≤ nInUse t →
        splitBucket alloc t = Returns t' ∧
        (tableSize t' = tableSize t + 1 ∨
         t' = t ∧ alloc = false ∧ nextSplitIndex t > hashIxMask t ∧
         logBaseTwoTableSize t ≤ nBitsHashIxSplitMask t))) ∧
  ((alloc = true → tableSize t < 2 ^ 30 ∨ nInUse t < tableSize t) →
     ∃ t', add alloc res t = Returns (-1, t')) ∧
  (alloc = true → 2 ^ 30 ≤ tableSize t ≤ nInUse t →
     add alloc res t = Undefined).
Proof.
  intros Hok Hl.
  assert (is_Some (pTable t)) as [tbl Ht].
  { unfold lookup in Hl. destruct (pTable t); [eauto|discriminate]. }
  split; [|split].
  - intros status t' Hadd.
    destruct (add_returns alloc res t status t' Hok Hadd) as (Hok' & _ & Hcase).
    rewrite Hl in Hcase. destruct Hcase as (-> & Hp & Hn).
    split; [reflexivity|]. split; [exact Hn|]. split; [exact Hp|].
    split; [intros idIn; exact (lookup_perm t t' idIn Hok Hok' Hp)|].
    split; [exact Hok'|]. split.
    + intros Hfree. rewrite (add_without_split alloc res t tbl Ht Hfree) in Hadd.
      rewrite (install_duplicate res t tbl r Ht Hl) in Hadd. congruence.
    + intros Hfull. unfold add in Hadd. rewrite Ht in Hadd.
      destruct (Z.geb_spec (nInUse t) (tableSize t)); [|lia].
      destruct (splitBucket alloc t) as [t1| |] eqn:Hsplit;
        [|discriminate|discriminate].
      destruct (splitBucket_returns alloc t tbl t1 Ht Hok Hsplit)
        as (Hok1 & Hp1 & _ & [tbl1 Ht1] & Hsz).
      simpl in Hadd. bind_returns_in Hadd.
      rewrite <- (lookup_eq t1 tbl1 _ Ht1) in Hadd.
      rewrite (lookup_perm t t1 (res_id res) Hok Hok1 Hp1), Hl in Hadd.
      injection Hadd as <-. auto.
  - intros Hroom.
    destruct (Z.lt_ge_cases (nInUse t) (tableSize t)) as [Hfree|Hfull].
    + exists t. rewrite (add_without_split alloc res t tbl Ht Hfree).
      rewrite (install_duplicate res t tbl r Ht Hl). reflexivity.
    + destruct (add_spec alloc res t Hok)
        as (status & t' & Hadd & _ & _ & _ & _ & Hcase).
      { intros Ha. destruct (Hroom Ha); lia. }
      { rewrite Ht. discriminate. }
      rewrite Hl in Hcase. destruct Hcase as (-> & _). eauto.
  - intros -> Hbig. apply (add_at_limit res t tbl Ht Hok); lia.
Qed.

Lemma setTableSize_first_throws newTableSize t :
  pTable t = None → table_ok t → 1 < newTableSize ≤ 2 ^ 30 →
  setTableSize false newTableSize t = Throws.
Proof.
  intros Ht Hok Hn. unfold setTableSize.
  destruct (Z.eqb_spec newTableSize 0); [lia|].
  rewrite (u32_small (newTableSize - 1)) by lia.
  destruct (countBits_returns (newTableSize - 1) ltac:(lia))
    as (nbits & -> & Hr & Hup & _). bind_returns.
  assert (0 < nbits) as Hpos.
  { destruct (Z.eq_dec nbits 0) as [->|]; [|lia].
    change (2 ^ 0) with 1 in Hup. lia. }
  rewrite setTableSizePrivate_fail; [rewrite Ht; reflexivity| |lia].
  rewrite (no_table_log t Ht Hok). exact Hpos.
Qed.

Lemma setTableSize_fail_keeps newTableSize t :
  is_Some (pTable t) → 0 ≤ newTableSize ≤ 2 ^ 30 →
  setTableSize false newTableSize t = Returns t.
Proof.
  intros [tbl Ht] Hn. unfold setTableSize.
  destruct (Z.eqb_spec newTableSize 0); [reflexivity|].
  rewrite (u32_small (newTableSize - 1)) by lia.
  destruct (countBits_returns (newTableSize - 1) ltac:(lia))
    as (nbits & -> & Hr & _). bind_returns.
  destruct (Z.le_gt_cases nbits (logBaseTwoTableSize t)) as [Hle|Hgt].
  - rewrite setTableSizePrivate_noop by exact Hle. reflexivity.
  - rewrite setTableSizePrivate_fail by lia. rewrite Ht. reflexivity.
Qed.

(** C6. While the table has no bucket array, a failed allocation makes
    [add] throw, and [setTableSize] with a hint from 2 up to 2^30 as well.
    On a table that has one, a failed allocation in [setTableSize], with a
    hint up to 2^30, leaves the table as it is, and [add] returns although
    the allocation fails, whatever the size of the table. If the table was
    full and its split index had reached the end of the half in use, so
    that the split asked for a larger array, the split is abandoned with
    the table unchanged and the entry is added by the last lines of [add]
    to the table as it was; the table keeps its size and its bucket array,
    and the invariants hold. *)
Theorem allocation_failure res t :
  table_ok t →
  (pTable t = None → add false res t = Throws) ∧
  (pTable t = None → ∀ newTableSize, 1 < newTableSize ≤ 2 ^ 30 →
     setTableSize false newTableSize t = Throws) ∧
  (is_Some (pTable t) → ∀ newTableSize, 0 ≤ newTableSize ≤ 2 ^ 30 →
     setTableSize false newTableSize t = Returns t) ∧
  (is_Some (pTable t) →
   ∃ status t',
     add false res t = Returns (status, t') ∧ table_ok t' ∧
     (tableSize t ≤ nInUse t → nextSplitIndex t > hashIxMask t →
      logBaseTwoTableSize t ≤ nBitsHashIxSplitMask t →
        splitBucket false t = Returns t ∧
        add_tail res t = Returns (status, t') ∧
        tableSize t' = tableSize t ∧
        logBaseTwoTableSize t' = logBaseTwoTableSize t ∧
        match lookup (res_id res) t with
        | Some _ => status = -1 ∧ t' = t
        | None => status = 0 ∧ residents t' ≡ₚ res :: residents t ∧
                  numEntriesInstalled t' = u32 (numEntriesInstalled t + 1)
        end)).
Proof.
  intros Hok. split; [intros Ht; exact (add_first_throws res t Ht Hok)|].
  split; [intros Ht n Hn; exact (setTableSize_first_throws n t Ht Hok Hn)|].
  split; [intros Hs n Hn; exact (setTableSize_fail_keeps n t Hs Hn)|].
  intros [tbl Ht].
  destruct (add_spec false res t Hok)
    as (status & t' & Hadd & Hok' & _ & _ & _ & Hcase).
  { discriminate. }
  { rewrite Ht. discriminate. }
  exists status, t'. split; [exact Hadd|]. split; [exact Hok'|].
  intros Hfull Hend Hlog.
  pose proof (ok_addressing _ Hok) as Hadr.
  destruct (addressing_ok_facts t tbl Ht Hadr)
    as [Fb Fl Fsp Fm Fh Fn Fsz Flen Ffit Farr Fun].
  assert (splitBucket false t = Returns t) as Hsplit.
  { rewrite (splitBucket_doubling false t tbl Ht) by lia.
    rewrite u32_small by lia.
    rewrite setTableSizePrivate_fail by lia. rewrite Ht. reflexivity. }
  assert (add false res t = Returns (install res t)) as Hadd'.
  { unfold add. rewrite Ht.
    destruct (Z.geb_spec (nInUse t) (tableSize t)); [|lia].
    rewrite Hsplit. simpl. change (mbind ?f (Returns ?a)) with (f a).
    rewrite (add_tail_unfold res t) by eauto.
    unfold install. destruct (find _ _); reflexivity. }
  rewrite Hadd' in Hadd. injection Hadd as Hadd.
  split; [exact Hsplit|].
  split; [rewrite (add_tail_unfold res t) by eauto; rewrite Hadd; reflexivity|].
  pose proof (install_spec t tbl res Ht Hok) as Hs.
  destruct (lookup (res_id res) t) as [r|].
  - rewrite Hs in Hadd. injection Hadd as <- <-. auto.
  - destruct Hs as (t1 & Heq & Hsame & _ & Hlog1 & _).
    rewrite Heq in Hadd. injection Hadd as <- <-.
    destruct Hsame as (_&_&_&_&Hsz). destruct Hcase as (_ & Hp & Hn). auto.
Qed.

End Traversal.

(** C4, as the spec states it, fails on the table of 16 buckets with the
    eight entries 1 .. 8: the table is full, so [add] splits bucket 0 before
    it looks for the identifier, and the entry 8 moves to bucket 8. *)
Lemma duplicate_add_splits_full_table :
  ¬ @duplicate_add_changes_nothing (chronIntIdRes unit) chronIntId _ _.
Proof.
  intros Hclaim.
  destruct (add true (Sample.item 1) Sample.full) as [[status t']| |] eqn:Hadd;
    [|vm_compute in Hadd; discriminate..].
  destruct (Hclaim (take 9 Sample.ops) Sample.full true (Sample.item 1) status t')
    as [_ Hsame].
  - vm_compute. reflexivity.
  - vm_compute. eauto.
  - exact Hadd.
  - rewrite Hsame in Hadd. vm_compute in Hadd. discriminate.
Qed.

Section SelfTest.
Context {T ID : Type} `{HL : IdentifierLaws ID} `{!Resource T ID}.
Implicit Types (t : resTable T) (idIn : ID) (res : T).

Lemma verify_chains t :
  table_ok t →
  forallb (λ i : nat,
    forallb (λ pItem, hash t (res_id pItem) =? Z.of_nat i) (bucket t (Z.of_nat i)))
    (seq 0 (Z.to_nat (tableSize t))) = true.
Proof.
  intros Hok. apply forallb_forall. intros i Hi. apply in_seq in Hi.
  apply forallb_forall. intros pItem Hin. apply list_elem_of_In in Hin.
  apply Z.eqb_eq. destruct (pTable t) as [tbl|] eqn:Ht.
  - pose proof (ok_addressing _ Hok) as Hadr.
    destruct (addressing_ok_facts t tbl Ht Hadr)
      as [Fb Fl Fsp Fm Fh Fn Fsz Flen Ffit Farr Fun].
    apply (ok_buckets _ Hok i (bucket t (Z.of_nat i))); [|exact Hin].
    rewrite <- (Nat2Z.id i) at 1. apply (lookup_bucket t tbl); [exact Ht|lia].
  - unfold tableSize in Hi. rewrite Ht in Hi. simpl in Hi. lia.
Qed.

Lemma verify_total t :
  table_ok t →
  u32 (Z.of_nat (sum_list ((λ i : nat, length (bucket t (Z.of_nat i)))
                             <$> seq 0 (Z.to_nat (tableSize t)))))
  = nInUse t.
Proof.
  intros Hok.
  assert (sum_list ((λ i : nat, length (bucket t (Z.of_nat i)))
                      <$> seq 0 (Z.to_nat (tableSize t)))
          = length (visited t)) as ->.
  { unfold visited. rewrite length_concat_sum, <- list_fmap_compose. reflexivity. }
  rewrite (visited_residents t Hok), <- chain_lengths_residents.
  symmetry. exact (ok_count _ Hok).
Qed.

(** The self test of the table passes in every state that satisfies the
    invariants. *)
Lemma verify_passes t : table_ok t → verify t = Returns true.
Proof.
  intros Hok. unfold verify.
  rewrite (verify_chains t Hok), (verify_total t Hok), Z.eqb_refl.
  pose proof (ok_addressing _ Hok) as Hadr.
  destruct (pTable t) as [tbl|] eqn:Ht.
  - destruct (addressing_ok_facts t tbl Ht Hadr)
      as [Fb Fl Fsp Fm Fh Fn Fsz Flen Ffit Farr Fun].
    set (n := nBitsHashIxSplitMask t) in *.
    assert (2 ^ n = 2 * 2 ^ (n - 1)) as Hpow by (apply pow2_double; lia).
    assert (hashIxSplitMask t = 2 ^ n - 1) as Hs by lia.
    rewrite (resTableBitMask_val n) by lia. rewrite Hs, Fm.
    rewrite half_of_mask by lia. rewrite u32_small by lia.
    rewrite !Z.eqb_refl.
    destruct (Z.leb_spec (nextSplitIndex t) (2 ^ (n - 1) - 1 + 1)); [|lia].
    destruct (Z.eqb_spec (2 ^ (n - 1) - 1) 0); [lia|].
    destruct (Z.eqb_spec (2 ^ n - 1) 0); [lia|].
    destruct (Z.eqb_spec n 0); [lia|].
    destruct (Z.eqb_spec (logBaseTwoTableSize t) 0); [lia|].
    destruct (Z.leb_spec n (logBaseTwoTableSize t)); [|lia].
    cbn [andb negb]. bind_returns. rewrite Z.eqb_refl. reflexivity.
  - unfold addressing_ok in Hadr. rewrite Ht in Hadr.
    destruct Hadr as (-> & -> & -> & -> & ->). reflexivity.
Qed.

(** C2. After every completed operation ([add], [remove], [setTableSize],
    [traverse]) of a sequence that starts on a new table, every entry lies
    in the chain its identifier hashes to under the current split state, no
    two entries have identifiers that compare equal, and
    [numEntriesInstalled ()] is the sum of the lengths of the chains, in
    the arithmetic of [unsigned] in which the code counts: it is that sum
    itself whenever the sum fits an [unsigned], and a sequence of
    operations installs at most one entry per operation. The assertions of
    [verify ()] hold. *)
Theorem invariants_after_every_operation (ops : list (operation T ID)) t :
  run ops resTable_new = Returns t →
  bucket_consistent t ∧ distinct_ids (residents t) ∧
  numEntriesInstalled t = u32 (chain_lengths t) ∧
  (chain_lengths t ≤ UINT_MAX → numEntriesInstalled t = chain_lengths t) ∧
  chain_lengths t ≤ Z.of_nat (length ops) ∧
  verify t = Returns true.
Proof.
  intros Hrun.
  destruct (run_spec ops resTable_new t table_ok_new Hrun) as (Hok & Hn & _).
  pose proof (verify_passes t Hok) as Hv.
  destruct Hok as [_ Hb Hd Hc].
  split; [exact Hb|]. split; [exact Hd|]. split; [exact Hc|].
  rewrite chain_lengths_residents in *.
  change (length (residents resTable_new)) with 0%nat in Hn.
  split; [|split; [lia|exact Hv]].
  intros Hfit. rewrite Hc. apply u32_small.
  unfold UINT_MAX, UINT_WIDTH in Hfit. lia.
Qed.

(** One operation whose allocation succeeds returns, on a table that can
    still grow. *)
Lemma perform_returns (o : operation T ID) t :
  table_ok t → allocates o → tableSize t < 2 ^ 30 →
  ∃ t', perform o t = Returns t' ∧ table_ok t' ∧
        (is_Some (pTable t) → is_Some (pTable t') ∧ tableSize t' ≤ tableSize t + 1) ∧
        (pTable t = None → tableSize t' ≤ 2 ^ 29).
Proof.
  intros Hok Halloc Hsmall.
  destruct o as [alloc res|k|alloc n|]; simpl in Halloc; simpl perform.
  - subst alloc.
    destruct (add_spec true res t Hok (λ _, Hsmall) (λ _, eq_refl))
      as (status & t' & -> & Hok' & Hsome' & Hsz1 & Hsz2 & Hcase).
    exists t'. split; [reflexivity|]. split; [exact Hok'|].
    split; [intros Hs; split; [exact Hsome'|apply (Hsz1 Hs)]|].
    intros Ht; rewrite (Hsz2 Ht); lia.
  - pose proof (remove_spec t k Hok) as Hs.
    destruct (lookup k t) as [r|].
    + destruct Hs as (t1 & -> & Hsame & Hsome1 & _ & _ & _ & Hn & Hok1). simpl.
      exists t1. split; [reflexivity|]. split; [exact Hok1|].
      destruct Hsame as (_&_&_&_&->). split; [intros; split; [exact Hsome1|lia]|].
      intros Ht. unfold tableSize. rewrite Ht. lia.
    + rewrite Hs. simpl. exists t. split; [reflexivity|]. split; [exact Hok|].
      split; [intros Hs'; split; [exact Hs'|lia]|].
      intros Ht. unfold tableSize. rewrite Ht. lia.
  - destruct Halloc as [-> Hn].
    pose proof (setTableSize_spec true n t Hok) as Hs.
    destruct (setTableSize true n t) as [t'| |] eqn:Hrun.
    + destruct Hs as (Hok' & _ & Hnu & Hsome & Hnone).
      exists t'. split; [reflexivity|]. split; [exact Hok'|].
      split; [|exact Hnone].
      intros Hs. destruct (Hsome Hs) as (Hs' & _&_&_&_&->). split; [exact Hs'|lia].
    + destruct Hs as [[=] _].
    + unfold setTableSize in Hrun.
      destruct (Z.eqb_spec n 0); [discriminate|].
      rewrite (u32_small (n - 1)) in Hs by lia. lia.
  - exists t. split; [reflexivity|]. split; [exact Hok|].
    split; [intros Hs; split; [exact Hs|lia]|].
    intros Ht. unfold tableSize. rewrite Ht. lia.
Qed.

Lemma run_returns_from (ops : list (operation T ID)) : ∀ t,
  table_ok t → Forall allocates ops →
  (is_Some (pTable t) → tableSize t + Z.of_nat (length ops) < 2 ^ 30) →
  (pTable t = None → 2 ^ 29 + Z.of_nat (length ops) < 2 ^ 30) →
  ∃ t', run ops t = Returns t'.
Proof.
  induction ops as [|o ops IH]; intros t Hok Hall Hsome Hnone.
  - exists t. reflexivity.
  - pose proof (Forall_inv Hall) as Ho. apply Forall_inv_tail in Hall.
    simpl length in *.
    assert (tableSize t < 2 ^ 30) as Hsmall.
    { destruct (pTable t) as [tbl|] eqn:Ht.
      - specialize (Hsome ltac:(eauto)). lia.
      - unfold tableSize. rewrite Ht. lia. }
    destruct (perform_returns o t Hok Ho Hsmall)
      as (t1 & Hp & Hok1 & Hsz1 & Hsz2).
    simpl run. rewrite Hp. change (mbind ?f (Returns ?a)) with (f a).
    apply (IH t1 Hok1 Hall).
    + intros _. destruct (pTable t) as [tbl|] eqn:Ht.
      * specialize (Hsome ltac:(eauto)). destruct (Hsz1 ltac:(eauto)). lia.
      * specialize (Hnone eq_refl). specialize (Hsz2 eq_refl). lia.
    + intros Ht1. destruct (pTable t) as [tbl|] eqn:Ht.
      * destruct (Hsz1 ltac:(eauto)) as [[? Hs1] _]. congruence.
      * specialize (Hnone eq_refl). lia.
Qed.

(** Up to 2^29 operations on a new table all return when their
    allocations succeed. *)
Lemma run_returns (ops : list (operation T ID)) :
  Forall allocates ops → Z.of_nat (length ops) < 2 ^ 29 →
  ∃ t, run ops resTable_new = Returns t.
Proof.
  intros Hall Hlen. apply (run_returns_from ops resTable_new table_ok_new Hall).
  - intros [? [=]].
  - intros _. lia.
Qed.

End SelfTest.

Section Chronological.
Context {B : Type}.
Implicit Types (c : chronIntIdResTable B) (item : chronIntIdRes B)
  (t : resTable (chronIntIdRes B)).

Lemma setId_setId (a b : Z) item : setId a (setId b item) = setId a item.
Proof. reflexivity. Qed.

(** One call of [add] probes the identifiers from [allocId] on, wrapping
    around at [UINT_MAX], and installs the item under the first one that is
    not resident. *)
Lemma chron_add_probes (k : nat) : ∀ c (rounds : nat) (alloc : nat → bool) (j : nat) item,
  table_ok (table c) → 0 ≤ allocId c < 2 ^ 32 →
  (∀ i : nat, (i < k)%nat →
     is_Some (lookup (IntId (u32 (allocId c + Z.of_nat i)) : chronIntId) (table c))) →
  lookup (IntId (u32 (allocId c + Z.of_nat k)) : chronIntId) (table c) = None →
  tableSize (table c) + Z.of_nat k < 2 ^ 30 →
  (pTable (table c) = None → alloc j = true) →
  (k < rounds)%nat →
  ∃ c', chron_add rounds alloc j item c
          = Some (Returns (setId (u32 (allocId c + Z.of_nat k)) item, c')) ∧
        allocId c' = u32 (allocId c + Z.of_nat k + 1) ∧
        table_ok (table c') ∧ is_Some (pTable (table c')) ∧
        residents (table c') ≡ₚ
          setId (u32 (allocId c + Z.of_nat k)) item :: residents (table c) ∧
        nInUse (table c') = u32 (nInUse (table c) + 1) ∧
        tableSize (table c') ≤
          Z.max 512 (Z.max (tableSize (table c) + Z.of_nat k) (nInUse (table c) + 1)).
Proof.
  induction k as [|k IH]; intros c rounds alloc j item Hok Hid Hres Hfree Hsize Halloc Hrounds.
  - destruct rounds as [|rounds]; [lia|]. simpl chron_add.
    rewrite Z.add_0_r, (u32_small (allocId c)) in * by exact Hid.
    destruct (add_spec (alloc j) (setId (allocId c) item) (table c) Hok)
      as (status & t' & Hadd & Hok' & Hsome & Hsz1 & Hsz2 & Hcase);
      [intros _; lia|exact Halloc|].
    change (res_id (setId (allocId c) item)) with (IntId (allocId c) : chronIntId) in Hcase.
    rewrite Hfree in Hcase. destruct Hcase as (-> & Hp & Hn).
    rewrite Hadd. simpl. eexists. split; [reflexivity|]. simpl.
    split; [reflexivity|]. split; [exact Hok'|]. split; [exact Hsome|].
    split; [exact Hp|]. split; [exact Hn|].
    destruct (pTable (table c)) as [tbl|] eqn:Ht.
    + destruct (Hsz1 ltac:(eauto)) as [Hle Hsame].
      destruct (Z.lt_ge_cases (nInUse (table c)) (tableSize (table c))); [|lia].
      rewrite Hsame by assumption. lia.
    + rewrite (Hsz2 eq_refl). lia.
  - destruct rounds as [|rounds]; [lia|]. simpl chron_add.
    destruct (Hres 0%nat ltac:(lia)) as [r Hr].
    rewrite Z.add_0_r, (u32_small (allocId c)) in Hr by exact Hid.
    assert (is_Some (pTable (table c))) as Hsome.
    { unfold lookup in Hr. destruct (pTable (table c)); [eauto|discriminate]. }
    destruct (add_spec (alloc j) (setId (allocId c) item) (table c) Hok)
      as (status & t1 & Hadd & Hok1 & _ & Hsz1 & _ & Hcase).
    { intros _. lia. }
    { intros Hnone. destruct Hsome as [? Hs]. congruence. }
    change (res_id (setId (allocId c) item)) with (IntId (allocId c) : chronIntId) in Hcase.
    rewrite Hr in Hcase. destruct Hcase as (-> & Hp1 & Hn1).
    destruct (Hsz1 Hsome) as [Hsz1' _]. clear Hsz1. rename Hsz1' into Hsz1.
    pose proof (λ idIn, lookup_perm (table c) t1 idIn Hok Hok1 Hp1) as Hl1.
    rewrite Hadd. simpl.
    assert (is_Some (pTable t1)) as Hsome1.
    { specialize (Hl1 (IntId (allocId c))). rewrite Hr in Hl1.
      unfold lookup in Hl1. destruct (pTable t1); [eauto|discriminate]. }
    set (c1 := ChronIntIdResTable t1 (u32 (allocId c + 1))).
    assert (∀ i : Z, u32 (allocId c1 + i) = u32 (allocId c + (1 + i))) as Hshift.
    { intros i. unfold c1. simpl. rewrite u32_add_l. f_equal. lia. }
    destruct (IH c1 rounds alloc (S j) (setId (allocId c) item))
      as (c' & Hrun & Hal & Hok' & Hsome' & Hp' & Hn' & Hsz').
    + exact Hok1.
    + apply u32_range.
    + intros i Hi. rewrite Hshift. change (table c1) with t1. rewrite Hl1.
      replace (1 + Z.of_nat i) with (Z.of_nat (S i)) by lia. apply Hres. lia.
    + rewrite Hshift. change (table c1) with t1. rewrite Hl1.
      replace (1 + Z.of_nat k) with (Z.of_nat (S k)) by lia. exact Hfree.
    + change (table c1) with t1. lia.
    + change (table c1) with t1. destruct Hsome1 as [? ->]. discriminate.
    + lia.
    + rewrite Hshift in Hrun, Hp'. change (table c1) with t1 in *.
      replace (1 + Z.of_nat k) with (Z.of_nat (S k)) in * by lia.
      rewrite setId_setId in Hrun, Hp'.
      exists c'. split; [exact Hrun|].
      split; [rewrite Hal, <- Z.add_assoc, Hshift; f_equal; lia|].
      split; [exact Hok'|]. split; [exact Hsome'|].
      split; [rewrite Hp', Hp1; reflexivity|].
      unfold numEntriesInstalled in Hn1.
      split; [rewrite Hn', Hn1; reflexivity|]. lia.
Qed.


Lemma chron_after_new : chron_after 0 (chronIntIdResTable_new (B := B)).
Proof.
  split; simpl.
  - apply table_ok_new.
  - reflexivity.
  - reflexivity.
  - intros item Hin. inversion Hin.
  - unfold tableSize. simpl. lia.
  - lia.
Qed.

Lemma chron_after_fresh (n : Z) c :
  chron_after n c → lookup (IntId (n + 1) : chronIntId) (table c) = None.
Proof.
  intros [Hok _ _ Hids _ _]. rewrite lookup_residents by exact Hok.
  apply find_None. intros r Hr. specialize (Hids r Hr). unfold idOf in Hids.
  simpl. apply Z.eqb_neq. lia.
Qed.

(** Calls of [add] one after the other on a table that has seen nothing
    else hand out the identifiers in sequence. *)
Lemma chron_adds_spec (rounds : nat) (alloc : nat → nat → bool)
    (items : list (chronIntIdRes B)) : ∀ (j : nat) (n : Z) c,
  (0 < rounds)%nat → 0 ≤ n → chron_after n c →
  n + Z.of_nat (length items) ≤ 2 ^ 30 →
  (n = 0 → alloc j 0%nat = true) →
  ∃ installed c',
    chron_adds rounds alloc j items c = Some (Returns (installed, c')) ∧
    idOf <$> installed = seqZ (n + 1) (Z.of_nat (length items)) ∧
    body <$> installed = body <$> items ∧
    chron_after (n + Z.of_nat (length items)) c' ∧
    residents (table c') ≡ₚ installed ++ residents (table c).
Proof.
  induction items as [|item items IH]; intros j n c Hrounds Hn Hc Hlen Halloc.
  - exists [], c. simpl. rewrite Z.add_0_r. auto.
  - simpl length in Hlen. pose proof Hc as [Hok Hal Hcnt Hids Hsz Hst].
    destruct (chron_add_probes 0 c rounds (alloc j) 0%nat item Hok)
      as (c1 & Hrun & Hal1 & Hok1 & Hsome1 & Hp1 & Hn1 & Hsz1).
    + rewrite Hal. lia.
    + intros i Hi. lia.
    + simpl. rewrite Z.add_0_r, Hal, u32_small by lia. exact (chron_after_fresh n c Hc).
    + lia.
    + intros Hnone. apply Halloc.
      destruct (Z.eq_dec n 0) as [|Hne]; [assumption|].
      destruct (Hst ltac:(lia)) as [? Hs]. congruence.
    + exact Hrounds.
    + simpl Z.of_nat in *. rewrite Z.add_0_r, Hal in *.
      rewrite Hcnt in *. rewrite (u32_small (n + 1)) in * by lia.
      assert (chron_after (n + 1) c1) as Hc1.
      { split.
        - exact Hok1.
        - rewrite Hal1. apply u32_small. lia.
        - lia.
        - intros x Hx. rewrite Hp1 in Hx. apply elem_of_cons in Hx as [->|Hx].
          + unfold idOf. simpl. lia.
          + specialize (Hids x Hx). lia.
        - lia.
        - intros _. exact Hsome1. }
      destruct (IH (S j) (n + 1) c1 Hrounds ltac:(lia) Hc1 ltac:(lia) ltac:(lia))
        as (installed & c' & Hrun' & Hids' & Hbody' & Hc' & Hp').
      exists (setId (n + 1) item :: installed), c'.
      simpl chron_adds. rewrite Hrun, Hrun'.
      split; [reflexivity|].
      split.
      { rewrite fmap_cons, Hids'. unfold idOf at 1. simpl getId.
        replace (Z.of_nat (S (length items))) with (Z.succ (Z.of_nat (length items))) by lia.
        rewrite (seqZ_cons (n + 1) (Z.succ (Z.of_nat (length items)))) by lia.
        f_equal. f_equal; lia. }
      split; [rewrite !fmap_cons, Hbody'; reflexivity|].
      split.
      { replace (n + Z.of_nat (S (length items))) with (n + 1 + Z.of_nat (length items)) by lia.
        exact Hc'. }
      rewrite Hp', Hp1. simpl. symmetry. apply Permutation_middle.
Qed.

End Chronological.


(** ** String identifiers *)

Module StringIdFacts.
Import StringId.

Lemma content_cons (b : byte) (s : c_str) :
  content (b :: s) = if to_Z b =? 0 then [] else b :: content s.
Proof. unfold content. simpl. destruct (to_Z b =? 0); reflexivity. Qed.

Lemma to_Z_inj (a b : byte) : to_Z a = to_Z b → a = b.
Proof.
  unfold to_Z. intros Hab. apply N2Z.inj in Hab.
  pose proof (Byte.of_to_N a) as Ha. rewrite Hab, Byte.of_to_N in Ha.
  congruence.
Qed.

(** The hash reads a string up to its terminator. *)
Lemma hash_loop_content (s : c_str) : ∀ lane h,
  hash_loop s lane h = hash_loop (content s) lane h.
Proof.
  induction s as [|b s IH]; intros lane h; [reflexivity|].
  rewrite content_cons. simpl. destruct (to_Z b =? 0) eqn:Hb; [reflexivity|].
  simpl. rewrite Hb. destruct lane as [|[|[|lane]]]; apply IH.
Qed.

(** [strcmp] compares the contents. *)
Lemma strcmp_eq_content (a : c_str) : ∀ b : c_str,
  strcmp_eq a b = true ↔ content a = content b.
Proof.
  induction a as [|x a IH]; intros [|y b]; rewrite ?content_cons; simpl.
  - split; reflexivity.
  - destruct (to_Z y =? 0); split; (reflexivity || discriminate).
  - destruct (to_Z x =? 0); split; (reflexivity || discriminate).
  - destruct (Z.eqb_spec (to_Z x) (to_Z y)) as [Hxy|Hxy].
    + rewrite <- Hxy. destruct (to_Z x =? 0); [split; reflexivity|].
      rewrite IH. apply to_Z_inj in Hxy. subst y.
      split; [intros ->; reflexivity|intros [= ?]; assumption].
    + destruct (Z.eqb_spec (to_Z x) 0) as [Hx|Hx];
        destruct (Z.eqb_spec (to_Z y) 0) as [Hy|Hy];
        split; try discriminate; try congruence.
Qed.

(** The copy that [copyString] makes has the content of the original. *)
Lemma content_copy (s : c_str) : content (take (strlen s + 1) s) = content s.
Proof.
  induction s as [|b s IH]; [reflexivity|].
  rewrite content_cons. simpl strlen.
  destruct (to_Z b =? 0) eqn:Hb; simpl take; rewrite content_cons, Hb;
    [reflexivity|]. rewrite IH. reflexivity.
Qed.

Lemma hash_content (a b : stringId) (sa sb : c_str) :
  pStr a = Some sa → pStr b = Some sb → content sa = content sb →
  hash a = hash b.
Proof.
  intros Ha Hb Hc. unfold hash. rewrite Ha, Hb.
  rewrite (hash_loop_content sa), (hash_loop_content sb), Hc. reflexivity.
Qed.

(** On identifiers that have a string, [operator ==] and [hash] meet the
    identifier contract. *)
Lemma equal_with_string (a b c : stringId) :
  (is_Some (pStr a) → equal a a = true) ∧
  (equal a b = true → equal b a = true) ∧
  (equal a b = true → equal b c = true → equal a c = true) ∧
  (equal a b = true → hash a = hash b).
Proof.
  unfold equal, hash.
  destruct (pStr a) as [sa|], (pStr b) as [sb|], (pStr c) as [sc|];
    rewrite ?strcmp_eq_content;
    repeat split; try discriminate; try congruence; try (intros [? [=]]).
  all: intros Hab; rewrite (hash_loop_content sa), (hash_loop_content sb), Hab;
    reflexivity.
Qed.

(** The identifier that [copyString] constructs, when it constructs one. *)
Lemma stringId_new_copy (alloc : bool) (s : c_str) (a : stringId) :
  stringId_new alloc (Some s) copyString = Returns a →
  a = StringId (Some (take (strlen s + 1) s)) copyString.
Proof.
  unfold stringId_new. destruct alloc; [|discriminate].
  destruct (Z.eqb_spec (u32 (Z.of_nat (strlen s) + 1)) (Z.of_nat (strlen s) + 1))
    as [Heq|]; [|discriminate].
  intros [= <-]. rewrite Heq.
  replace (Z.to_nat (Z.of_nat (strlen s) + 1)) with (strlen s + 1)%nat by lia.
  reflexivity.
Qed.

(** C8. A string identifier that owns a copy of a string and one that
    refers to a string with the same bytes up to the terminator have the
    same hash, hence the same bucket index in every table, and compare
    equal in both directions. The constructor returns the referring
    identifier for every pointer, and the copying one for every string
    whose length with its terminator fits an [unsigned], when its
    allocation succeeds. A string identifier without a string equals no
    identifier, not even itself. *)
Theorem string_id_allocation_mode :
  (∀ (s1 s2 : c_str) (alloc1 alloc2 : bool) (a b : stringId),
     content s1 = content s2 →
     stringId_new alloc1 (Some s1) copyString = Returns a →
     stringId_new alloc2 (Some s2) refString = Returns b →
     allocType a = copyString ∧ allocType b = refString ∧
     hash a = hash b ∧
     (∀ (T : Type) (t : resTable T), resTable_hash t a = resTable_hash t b) ∧
     equal a b = true ∧ equal b a = true) ∧
  (∀ s : c_str, Z.of_nat (strlen s) + 1 ≤ UINT_MAX →
     ∃ a, stringId_new true (Some s) copyString = Returns a) ∧
  (∀ (alloc : bool) (idIn : option c_str),
     stringId_new alloc idIn refString = Returns (StringId idIn refString)) ∧
  (∀ a b : stringId, pStr a = None ∨ pStr b = None → equal a b = false).
Proof.
  split; [|split; [|split]].
  - intros s1 s2 alloc1 alloc2 a b Hc Ha Hb.
    apply stringId_new_copy in Ha. subst a.
    injection Hb as <-.
    assert (content (take (strlen s1 + 1) s1) = content s2) as Hc'
      by (rewrite content_copy; exact Hc).
    assert (hash (StringId (Some (take (strlen s1 + 1) s1)) copyString)
            = hash (StringId (Some s2) refString)) as Hh
      by (apply (hash_content _ _ (take (strlen s1 + 1) s1) s2); [reflexivity..|exact Hc']).
    repeat (split; [reflexivity|]).
    split; [exact Hh|].
    split; [intros T t; unfold resTable_hash; simpl id_hash; rewrite Hh; reflexivity|].
    unfold equal. simpl. split; apply strcmp_eq_content; [|symmetry]; exact Hc'.
  - intros s Hlen. unfold stringId_new.
    rewrite u32_small by (unfold UINT_MAX, UINT_WIDTH in Hlen; lia).
    rewrite Z.eqb_refl. eauto.
  - intros alloc idIn. reflexivity.
  - intros a b [Ha|Hb]; unfold equal.
    + rewrite Ha. reflexivity.
    + rewrite Hb. destruct (pStr a); reflexivity.
Qed.

End StringIdFacts.

(** ** The theorems at work on small tables *)

Lemma sample_state_ok (l : list (operation (chronIntIdRes unit) chronIntId)) :
  run l resTable_new = Returns (Sample.state_after l) →
  table_ok (Sample.state_after l).
Proof.
  intros Hrun.
  exact (proj1 (run_spec l resTable_new (Sample.state_after l) table_ok_new Hrun)).
Qed.

Lemma lookup_follows_add_and_remove_witness :
  lookup (IntId 3) (Sample.state_after Sample.ops) = expected_lookup Sample.ops (IntId 3) ∧
  lookup (IntId 4) (Sample.state_after Sample.ops) = expected_lookup Sample.ops (IntId 4).
Proof.
  split; apply lookup_follows_add_and_remove; vm_compute; reflexivity.
Defined.

Lemma invariants_after_every_operation_witness :
  bucket_consistent (Sample.state_after Sample.ops) ∧
  distinct_ids (residents (Sample.state_after Sample.ops)) ∧
  numEntriesInstalled (Sample.state_after Sample.ops)
    = chain_lengths (Sample.state_after Sample.ops) ∧
  verify (Sample.state_after Sample.ops) = Returns true.
Proof.
  destruct (invariants_after_every_operation Sample.ops (Sample.state_after Sample.ops))
    as (Hb & Hd & _ & Hc & _ & Hv); [vm_compute; reflexivity|].
  split; [exact Hb|]. split; [exact Hd|]. split; [|exact Hv].
  apply Hc. apply Z.leb_le. vm_compute. reflexivity.
Defined.

Lemma bucket_index_of_split_state_witness :
  hashIxSplitMask (Sample.state_after Sample.ops) = 15 ∧
  hash (Sample.state_after Sample.ops) (IntId 8 : chronIntId) = 8.
Proof.
  destruct (bucket_index_of_split_state Sample.ops (Sample.state_after Sample.ops)
              (IntId 8 : chronIntId)) as [Hmask Hhash].
  - vm_compute. reflexivity.
  - split.
    + rewrite Hmask; [vm_compute; reflexivity|vm_compute; eauto].
    + rewrite Hhash. vm_compute. reflexivity.
Defined.

Lemma duplicate_add_keeps_entries_witness :
  ∃ t', add true (Sample.item 1) Sample.full = Returns (-1, t') ∧
        splitBucket true Sample.full = Returns t' ∧
        numEntriesInstalled t' = 8 ∧
        lookup (IntId 8) t' = Some (Sample.item 8).
Proof.
  destruct (duplicate_add_keeps_entries true (Sample.item 1) Sample.full (Sample.item 1))
    as (Hfacts & Hreturns & _).
  - apply sample_state_ok; vm_compute; reflexivity.
  - vm_compute. reflexivity.
  - destruct Hreturns as [t' Hadd].
    { intros _. left. apply Z.ltb_lt. vm_compute. reflexivity. }
    destruct (Hfacts (-1) t' Hadd) as (_ & Hn & _ & Hl & _ & _ & Hfull).
    destruct Hfull as [Hsplit _]; [apply Z.leb_le; vm_compute; reflexivity|].
    exists t'. split; [exact Hadd|]. split; [exact Hsplit|]. split.
    + rewrite Hn. vm_compute. reflexivity.
    + rewrite Hl. vm_compute. reflexivity.
Defined.

Lemma growth_preserves_traversal_witness :
  (∀ t', splitBucket true Sample.full = Returns t' → visited t' ≡ₚ visited Sample.full) ∧
  (∀ t', setTableSize true 64 Sample.full = Returns t' → visited t' = visited Sample.full).
Proof.
  destruct (growth_preserves_traversal Sample.full) as [Hsplit Hsize].
  - apply sample_state_ok; vm_compute; reflexivity.
  - split.
    + intros t'. apply Hsplit. vm_compute. eauto.
    + intros t'. apply Hsize.
Defined.

Lemma allocation_failure_witness :
  splitBucket false Sample.brimful = Returns Sample.brimful ∧
  ∃ t', add false (Sample.item 17) Sample.brimful = Returns (0, t') ∧
        numEntriesInstalled t' = 17 ∧ tableSize t' = 16.
Proof.
  assert (table_ok Sample.brimful) as Hok
    by (apply sample_state_ok; vm_compute; reflexivity).
  destruct (allocation_failure (Sample.item 17) Sample.brimful Hok) as (_ & _ & _ & Hfail).
  destruct Hfail as (status & t' & Hadd & _ & Hgrow).
  - vm_compute. eauto.
  - destruct Hgrow as (Hsplit & _ & Hsz & _ & Hcase).
    + apply Z.leb_le. vm_compute. reflexivity.
    + apply Z.lt_gt, Z.ltb_lt. vm_compute. reflexivity.
    + apply Z.leb_le. vm_compute. reflexivity.
    + split; [exact Hsplit|].
      assert (lookup (res_id (Sample.item 17)) Sample.brimful = None) as Hnone
        by (vm_compute; reflexivity).
      rewrite Hnone in Hcase.
      destruct Hcase as (-> & _ & Hn).
      exists t'. split; [exact Hadd|]. split.
      * rewrite Hn. vm_compute. reflexivity.
      * rewrite Hsz. vm_compute. reflexivity.
Defined.


Lemma string_id_allocation_mode_witness :
  ∃ a b : StringId.stringId,
    StringId.stringId_new true (Some Sample.name_in_buffer) StringId.copyString
      = Returns a ∧
    StringId.stringId_new false (Some Sample.name) StringId.refString = Returns b ∧
    StringId.hash a = StringId.hash b ∧ StringId.equal a b = true.
Proof.
  destruct StringIdFacts.string_id_allocation_mode as (Hmode & Hcopy & Href & _).
  destruct (Hcopy Sample.name_in_buffer) as [a Ha].
  { apply Z.leb_le. vm_compute. reflexivity. }
  exists a, (StringId.StringId (Some Sample.name) StringId.refString).
  destruct (Hmode Sample.name_in_buffer Sample.name true false a _ eq_refl Ha
              (Href false (Some Sample.name)))
    as (_ & _ & Hh & _ & He & _).
  split; [exact Ha|]. split; [exact (Href false (Some Sample.name))|].
  split; [exact Hh|exact He].
Defined.

Lemma setTableSize_keeps_addressing_witness :
  ∃ t', setTableSize true 1000 Sample.full = Returns t' ∧
        tableSize t' = 8 ∧ hashIxMask t' = 7 ∧ hashIxSplitMask t' = 15 ∧
        numEntriesInstalled t' = 8.
Proof.
  destruct (pTable Sample.full) as [tbl|] eqn:Ht; [|vm_compute in Ht; discriminate].
  destruct (setTableSize_keeps_addressing true 1000 Sample.full tbl Ht)
    as (Hreturns & Hkeeps).
  destruct Hreturns as [t' Hrun]; [lia|].
  destruct (Hkeeps t' Hrun) as (_ & _ & Hm & Hs & _ & _ & _ & Hsz & Hn).
  exists t'. split; [exact Hrun|].
  rewrite Hsz, Hm, Hs, Hn. vm_compute. auto.
Defined.

(** ** The iterator *)

Section Iterator.
Context {T ID : Type} `{HL : IdentifierLaws ID} `{!Resource T ID}.
Implicit Types (t : resTable T) (it : resTableIter T).

Lemma tableSize_range t : 0 ≤ tableSize t < 2 ^ 32.
Proof.
  unfold tableSize. destruct (pTable t); [apply u32_range|lia].
Qed.

Lemma next_chain_pending (rounds : nat) : ∀ t it,
  iter it = [] → 0 ≤ index it → rounds = Z.to_nat (tableSize t - index it) →
  (next_chain rounds (tableSize t) t it).1 = head (pending t it) ∧
  pending t (next_chain rounds (tableSize t) t it).2 = tail (pending t it) ∧
  0 ≤ index (next_chain rounds (tableSize t) t it).2.
Proof.
  induction rounds as [|rounds IH]; intros t it Hit Hix Hr.
  - simpl. unfold pending. rewrite Hit.
    replace (Z.to_nat (tableSize t) - Z.to_nat (index it))%nat with 0%nat by lia.
    simpl. auto.
  - pose proof (tableSize_range t) as HN.
    simpl next_chain.
    destruct (Z.geb_spec (index it) (tableSize t)) as [|Hlt]; [lia|].
    rewrite (u32_small (index it + 1)) by lia.
    assert (pending t it
            = bucket t (index it)
              ++ pending t (ResTableIter [] (index it + 1))) as Hp.
    { unfold pending. rewrite Hit. simpl iter. simpl index.
      replace (Z.to_nat (tableSize t) - Z.to_nat (index it))%nat
        with (S (Z.to_nat (tableSize t) - Z.to_nat (index it + 1)))%nat by lia.
      simpl seq. rewrite fmap_cons. simpl concat.
      rewrite Z2Nat.id by lia.
      replace (S (Z.to_nat (index it))) with (Z.to_nat (index it + 1)) by lia.
      reflexivity. }
    unfold SLIter.firstIter. simpl iter. simpl index.
    destruct (bucket t (index it)) as [|p rest] eqn:Hb.
    + simpl SLIter.valid. cbv iota.
      rewrite Hp. simpl app.
      apply (IH t (ResTableIter [] (index it + 1))); simpl; [reflexivity|lia|lia].
    + simpl. rewrite Hp. simpl. split; [reflexivity|]. split; [|lia].
      unfold pending. simpl. reflexivity.
Qed.

Lemma next_pending t it :
  0 ≤ index it →
  (next t it).1 = head (pending t it) ∧
  pending t (next t it).2 = tail (pending t it) ∧
  0 ≤ index (next t it).2.
Proof.
  intros Hix. unfold next.
  destruct (iter it) as [|p rest] eqn:Hit.
  - simpl SLIter.valid. cbv iota.
    apply next_chain_pending; [exact Hit|exact Hix|reflexivity].
  - simpl. unfold pending. rewrite Hit. simpl. auto.
Qed.

Lemma nexts_pending (n : nat) : ∀ t it,
  0 ≤ index it →
  nexts n t it
  = take n (Some <$> pending t it)
    ++ replicate (n - length (pending t it)) None.
Proof.
  induction n as [|n IH]; intros t it Hix; [reflexivity|].
  simpl nexts.
  destruct (next_pending t it Hix) as (Hp & Hrest & Hix').
  destruct (next t it) as [p it'] eqn:Hn. simpl in Hp, Hrest, Hix'.
  rewrite (IH t it' Hix'), Hrest, Hp.
  destruct (pending t it) as [|x l]; simpl.
  - rewrite ?fmap_nil, ?take_nil, ?Nat.sub_0_r. reflexivity.
  - reflexivity.
Qed.

Lemma pending_new t :
  addressing_ok t → pending t (resTableIter_new t) = visited t.
Proof.
  intros Hadr. unfold pending, visited, resTableIter_new. simpl iter. simpl index.
  destruct (pTable t) as [tbl|] eqn:Ht.
  - destruct (addressing_ok_facts t tbl Ht Hadr)
      as [Fb Fl Fsp Fm Fh Fn Fsz Flen Ffit Farr Fun].
    unfold SLIter.firstIter.
    replace (Z.to_nat (tableSize t)) with (S (Z.to_nat (tableSize t) - Z.to_nat 1))%nat
      at 2 by lia.
    simpl seq. rewrite fmap_cons. reflexivity.
  - unfold tableSize. rewrite Ht. reflexivity.
Qed.

(** X1. On a table in a state that satisfies the invariants, the calls of
    [next] on a new iterator return the entries a traversal visits, in the
    order of the traversal: chain after chain, each chain from its first
    entry on. Every call after that returns null. *)
Theorem iterator_returns_the_traversal (n : nat) t :
  table_ok t →
  nexts n t (resTableIter_new t)
  = take n (Some <$> visited t) ++ replicate (n - length (visited t)) None.
Proof.
  intros Hok.
  rewrite nexts_pending by (simpl; lia).
  rewrite (pending_new t (ok_addressing _ Hok)). reflexivity.
Qed.

End Iterator.

(** ** Entries in and out *)

Section Entries.
Context {T ID : Type} `{HL : IdentifierLaws ID} `{!Resource T ID}.
Implicit Types (t : resTable T) (idIn : ID) (res : T) (l : list T).

Lemma unlink_find l idIn : (unlink l idIn).1 = find l idIn.
Proof.
  induction l as [|item l IH]; simpl; [reflexivity|].
  destruct (id_eq (res_id item) idIn); [reflexivity|].
  destruct (unlink l idIn) as [r rest]. exact IH.
Qed.

Lemma remove_buckets_length idIn t :
  length (buckets (remove idIn t).2) = length (buckets t).
Proof.
  unfold remove. destruct (pTable t) as [tbl|] eqn:Ht; [|reflexivity].
  destruct (unlink (bucket t (hash t idIn)) idIn) as [[item|] rest]; [|reflexivity].
  simpl. change (buckets (set_nInUse ?n ?x)) with (buckets x).
  rewrite buckets_set_bucket, length_insert. reflexivity.
Qed.

(** X2. In every state of the table [remove (id)] returns what
    [lookup (id)] returns in that state: the first entry of the chain the
    identifier hashes to whose identifier compares equal, or null. When it
    returns null it has not written the table. *)
Theorem remove_returns_what_lookup_finds idIn t :
  (remove idIn t).1 = lookup idIn t ∧
  (lookup idIn t = None → (remove idIn t).2 = t).
Proof.
  unfold remove, lookup. destruct (pTable t) as [tbl|]; [|auto].
  pose proof (unlink_find (bucket t (hash t idIn)) idIn) as Hu.
  destruct (unlink (bucket t (hash t idIn)) idIn) as [[item|] rest];
    simpl in *; rewrite <- Hu; [|auto].
  split; [reflexivity|discriminate].
Qed.

(** X3. On a table that satisfies the invariants, [remove (id)] of a
    resident identifier takes exactly that entry out: the entries before
    the call are the entry returned and the entries after it, [lookup]
    answers null for the identifier removed and as before for every other
    one, and [numEntriesInstalled ()] has gone down by one. The table does
    not shrink: [tableSize ()], the bucket array and the bucket index of
    every identifier are as before. *)
Theorem remove_takes_one_entry_out idIn t r :
  table_ok t → lookup idIn t = Some r →
  ∃ t', remove idIn t = (Some r, t') ∧ id_eq (res_id r) idIn = true ∧
        residents t ≡ₚ r :: residents t' ∧
        (∀ k, lookup k t' = if id_eq idIn k then None else lookup k t) ∧
        numEntriesInstalled t' = u32 (numEntriesInstalled t - 1) ∧
        tableSize t' = tableSize t ∧
        length (buckets t') = length (buckets t) ∧
        (∀ k, hash t' k = hash t k) ∧
        table_ok t'.
Proof.
  intros Hok Hl.
  pose proof (remove_spec t idIn Hok) as Hs. rewrite Hl in Hs.
  destruct Hs as (t' & Hrm & Hsame & _ & _ & Heq & Hp & Hn & Hok').
  exists t'. split; [exact Hrm|]. split; [exact Heq|]. split; [exact Hp|].
  split.
  { intros k.
    assert (perform (OpRemove idIn) t = Returns t') as Hperf
      by (simpl; rewrite Hrm; reflexivity).
    destruct (perform_spec _ t t' Hok Hperf) as (_ & _ & Hlk).
    rewrite (Hlk k). reflexivity. }
  split; [exact Hn|].
  split; [destruct Hsame as (_&_&_&_&Hsz); exact Hsz|].
  split.
  { pose proof (remove_buckets_length idIn t) as Hlen.
    rewrite Hrm in Hlen. exact Hlen. }
  split; [intros k; apply same_addressing_hash; exact Hsame|exact Hok'].
Qed.

(** X4. On a table that satisfies the invariants, [lookup (id)] returns an
    entry exactly when a traversal visits that entry and its identifier
    compares equal to [id]: what [lookup] returns is resident, and every
    resident entry is found under its identifier. *)
Theorem lookup_finds_the_visited_entries idIn t r :
  table_ok t →
  lookup idIn t = Some r ↔ r ∈ visited t ∧ id_eq (res_id r) idIn = true.
Proof.
  intros Hok. rewrite (visited_residents t Hok), (lookup_residents t idIn Hok).
  split.
  - apply find_Some.
  - intros [Hin Heq]. apply find_unique; [exact (ok_distinct _ Hok)|exact Hin|exact Heq].
Qed.

(** X5. An [add] of an identifier that is not resident, followed by a
    [remove] of that identifier: the [add] returns 0 and [lookup] finds the
    entry added; the [remove] returns that entry, and the table then holds
    the entries it held before the two calls, answers every [lookup] as
    before and counts as many entries as before. *)
Theorem add_then_remove alloc res t status t1 :
  table_ok t → lookup (res_id res) t = None →
  add alloc res t = Returns (status, t1) →
  status = 0 ∧ lookup (res_id res) t1 = Some res ∧
  ∃ t2, remove (res_id res) t1 = (Some res, t2) ∧
        residents t2 ≡ₚ residents t ∧
        (∀ k, lookup k t2 = lookup k t) ∧
        numEntriesInstalled t2 = numEntriesInstalled t ∧
        table_ok t2.
Proof.
  intros Hok Hl Hadd.
  destruct (add_returns alloc res t status t1 Hok Hadd) as (Hok1 & _ & Hcase).
  rewrite Hl in Hcase. destruct Hcase as (-> & Hp1 & Hn1).
  assert (lookup (res_id res) t1 = Some res) as Hl1.
  { rewrite (lookup_of_residents t1 _ (res_id res) Hok1 Hp1). simpl.
    rewrite id_eq_refl. reflexivity. }
  split; [reflexivity|]. split; [exact Hl1|].
  pose proof (remove_spec t1 (res_id res) Hok1) as Hs. rewrite Hl1 in Hs.
  destruct Hs as (t2 & Hrm & _ & _ & _ & _ & Hp2 & Hn2 & Hok2).
  assert (residents t2 ≡ₚ residents t) as Hp.
  { apply (Permutation_cons_inv (a := res)). rewrite <- Hp2, Hp1. reflexivity. }
  exists t2. split; [exact Hrm|]. split; [exact Hp|].
  split; [intros k; exact (lookup_perm t t2 k Hok Hok2 Hp)|].
  split; [|exact Hok2].
  unfold numEntriesInstalled. rewrite Hn2, Hn1, u32_pred.
  replace (nInUse t + 1 - 1) with (nInUse t) by lia.
  pose proof (ok_count _ Hok) as Hc. unfold numEntriesInstalled in Hc.
  rewrite Hc. unfold u32. apply Z.mod_mod. unfold UINT_WIDTH. lia.
Qed.

(** X6. In every state the table reaches that has a bucket array, the
    bucket index the table computes for an identifier, whatever its raw
    hash, lies below [tableSize ()], and [tableSize ()] is at most the
    number of chains of the bucket array: [pTable] is never indexed outside
    the array. *)
Theorem bucket_index_within_array (ops : list (operation T ID)) t idIn :
  run ops resTable_new = Returns t → is_Some (pTable t) →
  0 ≤ hash t idIn < tableSize t ∧
  tableSize t ≤ Z.of_nat (length (buckets t)) ∧
  is_Some (buckets t !! Z.to_nat (hash t idIn)).
Proof.
  intros Hrun [tbl Ht].
  destruct (run_spec ops resTable_new t table_ok_new Hrun) as (Hok & _).
  pose proof (ok_addressing _ Hok) as Hadr.
  pose proof (hash_range t tbl idIn Ht Hadr) as Hh.
  destruct (addressing_ok_facts t tbl Ht Hadr)
    as [Fb Fl Fsp Fm Fh Fn Fsz Flen Ffit Farr Fun].
  rewrite (buckets_Some t tbl Ht).
  split; [exact Hh|]. split; [lia|].
  apply lookup_lt_is_Some. lia.
Qed.

End Entries.

(** ** How the table grows *)

Section Capacity.
Context {T ID : Type} `{HL : IdentifierLaws ID} `{!Resource T ID}.
Implicit Types (t : resTable T) (idIn : ID) (res : T).

Lemma split_after_doubling t tbl :
  pTable t = Some tbl → table_ok t →
  nextSplitIndex t > hashIxMask t →
  nBitsHashIxSplitMask t + 1 ≤ logBaseTwoTableSize t →
  ∃ t2, doubled t = Returns t2 ∧
        table_ok (split_step t2) ∧
        is_Some (pTable (split_step t2)) ∧
        tableSize (split_step t2) = tableSize t + 1 ∧
        logBaseTwoTableSize (split_step t2) = logBaseTwoTableSize t.
Proof.
  intros Ht Hok Hfull Hlog.
  destruct (doubled_spec t tbl Ht Hok Hfull Hlog)
    as (t2 & Hdbl & Hok2 & Hsz2 & Hnx2 & Hnb2 & Hp2 & _ & Hlog2 & _).
  assert (pTable t2 = Some tbl) as Ht2 by (rewrite Hp2; exact Ht).
  pose proof (ok_addressing _ Hok2) as Hadr2.
  destruct (addressing_ok_facts _ tbl Ht2 Hadr2)
    as [Gb Gl Gsp Gm Gh Gn Gsz Glen Gfit Garr Gun].
  destruct (split_step_spec _ tbl Ht2 Hok2) as (Hok' & _ & Hsz' & _ & Hs' & Hlog' & _);
    [lia|].
  exists t2. split; [exact Hdbl|].
  split; [exact Hok'|]. split; [exact Hs'|]. split; [lia|].
  rewrite Hlog'. exact Hlog2.
Qed.

(** What a call of [splitBucket] that returns has done to the size of the
    table and of its bucket array. *)
Lemma splitBucket_growth alloc t tbl t' :
  pTable t = Some tbl → table_ok t → splitBucket alloc t = Returns t' →
  table_ok t' ∧ is_Some (pTable t') ∧
  logBaseTwoTableSize t ≤ logBaseTwoTableSize t' ∧
  (tableSize t' = tableSize t + 1 ∨
   (alloc = false ∧ t' = t ∧ tableSize t = 2 ^ logBaseTwoTableSize t)) ∧
  (alloc = false → logBaseTwoTableSize t' = logBaseTwoTableSize t) ∧
  (tableSize t < 2 ^ logBaseTwoTableSize t →
     logBaseTwoTableSize t' = logBaseTwoTableSize t ∧
     ∀ alloc', splitBucket alloc' t = Returns t').
Proof.
  intros Ht Hok Hrun.
  pose proof (ok_addressing _ Hok) as Hadr.
  destruct (addressing_ok_facts t tbl Ht Hadr)
    as [Fb Fl Fsp Fm Fh Fn Fsz Flen Ffit Farr Fun].
  destruct (Z.le_gt_cases (nextSplitIndex t) (hashIxMask t)) as [Hroom|Hfull].
  - rewrite (splitBucket_no_doubling alloc t tbl Ht Hroom) in Hrun.
    injection Hrun as <-.
    destruct (split_step_spec t tbl Ht Hok Hroom) as (Hok' & _ & Hsz & _ & Hs & Hlog & _).
    split; [exact Hok'|]. split; [exact Hs|]. split; [lia|].
    split; [left; exact Hsz|]. split; [intros _; exact Hlog|].
    intros _. split; [exact Hlog|].
    intros alloc'. exact (splitBucket_no_doubling alloc' t tbl Ht Hroom).
  - set (n := nBitsHashIxSplitMask t) in *.
    assert (2 ^ n = 2 * 2 ^ (n - 1)) as Hpow by (apply pow2_double; lia).
    assert (∀ a, splitBucket a t =
              match setTableSizePrivate a (n + 1) t with
              | Returns (true, t1) => t2 ← doubled t1; Returns (split_step t2)
              | Returns (false, _) => Returns t
              | Throws => Throws
              | Undefined => Undefined
              end) as Hshape.
    { intros a. rewrite (splitBucket_doubling a t tbl Ht) by lia.
      fold n. rewrite (u32_small (n + 1)) by lia. reflexivity. }
    rewrite Hshape in Hrun.
    destruct (Z.le_gt_cases (n + 1) (logBaseTwoTableSize t)) as [Hpre|Hneed].
    + rewrite setTableSizePrivate_noop in Hrun by lia.
      destruct (split_after_doubling t tbl Ht Hok)
        as (t2 & Hdbl & Hok' & Hs & Hsz & Hlog); [lia|fold n; lia|].
      rewrite Hdbl in Hrun. bind_returns_in Hrun. injection Hrun as <-.
      split; [exact Hok'|]. split; [exact Hs|]. split; [lia|].
      split; [left; exact Hsz|]. split; [intros _; exact Hlog|].
      intros _. split; [exact Hlog|].
      intros alloc'. rewrite Hshape, setTableSizePrivate_noop by lia.
      rewrite Hdbl. reflexivity.
    + assert (logBaseTwoTableSize t = n) as Hlogn by lia.
      assert (tableSize t = 2 ^ logBaseTwoTableSize t) as Hfullarr by (rewrite Hlogn; lia).
      destruct alloc.
      * destruct (Z.lt_ge_cases (tableSize t) (2 ^ 30)) as [Hsmall|Hbig].
        2:{ rewrite <- Hshape in Hrun.
            rewrite (splitBucket_at_limit t tbl Ht Hok Hbig) in Hrun. discriminate. }
        assert (n < 30) as Hn30.
        { destruct (Z.lt_ge_cases n 30) as [|Hge]; [assumption|].
          assert (2 ^ 30 ≤ 2 ^ n) by (apply Z.pow_le_mono_r; lia). lia. }
        destruct (setTableSizePrivate_grow (n + 1) t tbl Ht Hok)
          as (t1 & Heq & Hsame & Hlog1 & Ht1 & Hnu & Hres & Hok1); [lia|lia|].
        rewrite Heq in Hrun.
        destruct Hsame as (Hnx & Hm & Hs & Hnb & Hsz).
        destruct (split_after_doubling t1 _ Ht1 (Hok1 ltac:(lia)))
          as (t2 & Hdbl & Hok' & Hs' & Hsz' & Hlog'); [lia|lia|].
        rewrite Hdbl in Hrun. bind_returns_in Hrun. injection Hrun as <-.
        split; [exact Hok'|]. split; [exact Hs'|]. split; [lia|].
        split; [left; lia|]. split; [discriminate|]. intros; lia.
      * rewrite setTableSizePrivate_fail in Hrun by lia. rewrite Ht in Hrun.
        injection Hrun as <-.
        split; [exact Hok|]. split; [eauto|]. split; [lia|].
        split; [right; auto|]. split; [reflexivity|]. intros; lia.
Qed.

Lemma install_frame res t tbl :
  pTable t = Some tbl →
  tableSize (install res t).2 = tableSize t ∧
  logBaseTwoTableSize (install res t).2 = logBaseTwoTableSize t.
Proof.
  intros Ht. unfold install.
  destruct (find _ _); simpl; [auto|].
  unfold tableSize. simpl. rewrite Ht. auto.
Qed.

Lemma add_after_split res t :
  is_Some (pTable t) →
  match find (bucket t (hash t (res_id res))) (res_id res) with
  | Some _ => Returns (-1, t)
  | None => add_tail res t
  end = Returns (install res t).
Proof.
  intros [tbl Ht]. unfold add_tail, install. rewrite Ht.
  destruct (find _ _); reflexivity.
Qed.

(** What a call of [add] that returns has done to the size of the table
    and of its bucket array. *)
Lemma add_growth alloc res t status t' :
  table_ok t → add alloc res t = Returns (status, t') →
  logBaseTwoTableSize t ≤ logBaseTwoTableSize t' ∧
  tableSize t ≤ tableSize t' ∧
  (is_Some (pTable t) →
     tableSize t' ≤ tableSize t + 1 ∧
     (nInUse t < tableSize t →
        tableSize t' = tableSize t ∧
        logBaseTwoTableSize t' = logBaseTwoTableSize t) ∧
     (tableSize t ≤ nInUse t → alloc = true → tableSize t' = tableSize t + 1) ∧
     (alloc = false → logBaseTwoTableSize t' = logBaseTwoTableSize t) ∧
     (tableSize t < 2 ^ logBaseTwoTableSize t →
        logBaseTwoTableSize t' = logBaseTwoTableSize t ∧
        (tableSize t ≤ nInUse t → tableSize t' = tableSize t + 1) ∧
        ∀ alloc', add alloc' res t = Returns (status, t'))).
Proof.
  intros Hok Hadd.
  destruct (pTable t) as [tbl|] eqn:Ht.
  - destruct (Z.lt_ge_cases (nInUse t) (tableSize t)) as [Hfree|Hfull].
    + assert (∀ a, add a res t = Returns (install res t)) as Hshape
        by (intros a; exact (add_without_split a res t tbl Ht Hfree)).
      rewrite Hshape in Hadd. injection Hadd as Hadd.
      destruct (install_frame res t tbl Ht) as [Hsz Hlog].
      rewrite Hadd in Hsz, Hlog. simpl in Hsz, Hlog.
      split; [lia|]. split; [lia|]. intros _.
      split; [lia|]. split; [auto|]. split; [intros; lia|].
      split; [intros _; exact Hlog|]. intros _.
      split; [exact Hlog|]. split; [intros; lia|].
      intros alloc'. rewrite Hshape, Hadd. reflexivity.
    + assert (∀ a, add a res t =
                t1 ← splitBucket a t;
                match find (bucket t1 (hash t1 (res_id res))) (res_id res) with
                | Some _ => Returns (-1, t1)
                | None => add_tail res t1
                end) as Hshape.
      { intros a. unfold add. rewrite Ht.
        destruct (Z.geb_spec (nInUse t) (tableSize t)); [reflexivity|lia]. }
      rewrite Hshape in Hadd.
      destruct (splitBucket alloc t) as [t1| |] eqn:Hsp; try discriminate.
      change (mbind ?f (Returns ?a)) with (f a) in Hadd. cbv beta in Hadd.
      destruct (splitBucket_growth alloc t tbl t1 Ht Hok Hsp)
        as (Hok1 & [tbl1 Ht1] & Hlog & Hsz & Hfalse & Hpre).
      rewrite (add_after_split res t1) in Hadd by eauto.
      injection Hadd as Hadd.
      destruct (install_frame res t1 tbl1 Ht1) as [Hsz' Hlog'].
      rewrite Hadd in Hsz', Hlog'. simpl in Hsz', Hlog'.
      split; [lia|].
      split; [destruct Hsz as [|(_ & -> & _)]; lia|]. intros _.
      split; [destruct Hsz as [|(_ & -> & _)]; lia|].
      split; [intros; lia|].
      split; [intros _ ->; destruct Hsz as [|([=] & _)]; lia|].
      split; [intros Ha; rewrite Hlog'; exact (Hfalse Ha)|].
      intros Harr. destruct (Hpre Harr) as [Hlogsame Hany].
      split; [lia|].
      split; [intros _; destruct Hsz as [|(_ & _ & ?)]; lia|].
      intros alloc'. rewrite Hshape, (Hany alloc').
      change (mbind ?f (Returns ?a)) with (f a). cbv beta.
      rewrite (add_after_split res t1) by eauto. rewrite Hadd. reflexivity.
  - pose proof (no_table_log t Ht Hok) as Hlog0.
    assert (tableSize t = 0) as Hsz0 by (unfold tableSize; rewrite Ht; reflexivity).
    pose proof (tableSize_range t') as Hr.
    destruct alloc.
    + destruct (add_returns true res t status t' Hok Hadd) as (Hok' & [tbl' Ht'] & _).
      pose proof (ok_addressing _ Hok') as Hadr'.
      destruct (addressing_ok_facts t' tbl' Ht' Hadr')
        as [Fb Fl Fsp Fm Fh Fn Fsz Flen Ffit Farr Fun].
      split; [lia|]. split; [lia|]. intros [? [=]].
    + rewrite (add_first_throws res t Ht Hok) in Hadd. discriminate.
Qed.

End Capacity.

(** ** The size hint *)

Section SizeHint.
Context {T ID : Type} `{HL : IdentifierLaws ID} `{!Resource T ID}.
Implicit Types (t : resTable T) (idIn : ID) (res : T).

Lemma setTableSize_unfold alloc n t :
  n ≠ 0 →
  setTableSize alloc n t =
    nbits ← countBits (Z.to_nat UINT_WIDTH) 0 (u32 (n - 1));
    '(_, t') ← setTableSizePrivate alloc nbits t;
    Returns t'.
Proof.
  intros Hn. unfold setTableSize.
  destruct (Z.eqb_spec n 0); [contradiction|reflexivity].
Qed.

(** X7. [setTableSize] on a table that has no bucket array, with a hint
    from 2 up to 2^30 and a successful allocation: the new bucket array has
    2^k chains, where 2^k is the smallest power of two that is at least
    the hint and at least 16, and half of them, 2^(k-1), are in use. A hint
    of 0 or of 1 leaves the table without bucket array. *)
Theorem setTableSize_rounds_up_to_a_power_of_two (n : Z) :
  (1 < n ≤ 2 ^ 30 →
   ∃ (t : resTable T) (k : Z),
     setTableSize true n resTable_new = Returns t ∧
     4 ≤ k ≤ 30 ∧ n ≤ 2 ^ k ∧ (4 < k → 2 ^ (k - 1) < n) ∧
     Z.of_nat (length (buckets t)) = 2 ^ k ∧
     logBaseTwoTableSize t = k ∧
     tableSize t = 2 ^ (k - 1) ∧
     numEntriesInstalled t = 0 ∧
     table_ok t) ∧
  (0 ≤ n ≤ 1 →
   ∀ alloc, setTableSize alloc n (resTable_new (T := T)) = Returns resTable_new).
Proof.
  split.
  - intros Hn.
    rewrite setTableSize_unfold by lia.
    rewrite (u32_small (n - 1)) by lia.
    destruct (countBits_returns (n - 1) ltac:(lia)) as (k0 & -> & Hr & Hup & Hdown).
    bind_returns.
    assert (0 < k0) as Hk0.
    { destruct (Z.eq_dec k0 0) as [Hz|]; [|lia].
      rewrite Hz in Hup. change (2 ^ 0) with 1 in Hup. lia. }
    destruct (setTableSizePrivate_first k0 (resTable_new (T := T)) eq_refl table_ok_new)
      as (t & -> & Ht & Hnb & Hlog & Hnx & Hnu & Hres & Hok); [lia|lia|].
    exists t, (Z.max 4 k0).
    bind_returns. cbv beta iota.
    split; [reflexivity|]. split; [lia|].
    assert (2 ^ k0 ≤ 2 ^ Z.max 4 k0) by (apply Z.pow_le_mono_r; lia).
    split; [lia|].
    split.
    { intros Hbig. replace (Z.max 4 k0) with k0 by lia. specialize (Hdown Hk0). lia. }
    split.
    { rewrite (buckets_Some t _ Ht), length_replicate. apply Z2Nat.id.
      apply Z.pow_nonneg. lia. }
    split; [exact Hlog|].
    split; [rewrite (first_tableSize t _ Ht Hok Hnx), Hnb; reflexivity|].
    split; [exact Hnu|exact Hok].
  - intros Hn alloc. destruct (Z.eq_dec n 0) as [->|Hnz]; [reflexivity|].
    assert (n = 1) as -> by lia. reflexivity.
Qed.

(** X8. A size hint above 2^31 makes [setTableSize] undefined in every
    state of the table that satisfies the invariants: the loop that counts
    the bits of the hint asks [resTableBitMask] for a mask of 31 bits
    before the table is looked at. *)
Theorem setTableSize_hint_above_range alloc (n : Z) t :
  table_ok t → 2 ^ 31 < n < 2 ^ 32 →
  setTableSize alloc n t = Undefined.
Proof.
  intros Hok Hn. rewrite setTableSize_unfold by lia.
  rewrite (u32_small (n - 1)) by lia.
  rewrite countBits_undefined by lia. reflexivity.
Qed.

(** X23. The largest size hint [setTableSize] can take is 2^30: with a hint
    above it and below 2^32 the loop that counts the bits of the hint asks
    [resTableBitMask] for a mask of 31 bits, in every state of the table
    and before any allocation is made. *)
Theorem setTableSize_largest_hint alloc (n : Z) t :
  2 ^ 30 < n < 2 ^ 32 → setTableSize alloc n t = Undefined.
Proof.
  intros Hn. rewrite setTableSize_unfold by lia.
  rewrite (u32_small (n - 1)) by lia.
  rewrite countBits_undefined by lia. reflexivity.
Qed.

End SizeHint.

(** ** Entries and buckets *)

Section Load.
Context {T ID : Type} `{HL : IdentifierLaws ID} `{!Resource T ID}.
Implicit Types (t : resTable T) (idIn : ID) (res : T).

Lemma chain_lengths_nonneg t : 0 ≤ chain_lengths t.
Proof. unfold chain_lengths. lia. Qed.

Lemma chain_lengths_perm t t' :
  residents t' ≡ₚ residents t → chain_lengths t' = chain_lengths t.
Proof. intros Hp. rewrite !chain_lengths_residents, Hp. reflexivity. Qed.

Lemma chain_lengths_perm_cons t t' res :
  residents t' ≡ₚ res :: residents t → chain_lengths t' = chain_lengths t + 1.
Proof. intros Hp. rewrite !chain_lengths_residents, Hp. simpl length. lia. Qed.

Lemma no_table_chains t : pTable t = None → chain_lengths t = 0.
Proof. intros Ht. unfold chain_lengths, buckets. rewrite Ht. reflexivity. Qed.

Lemma storage_size t tbl :
  pTable t = Some tbl → table_ok t →
  8 ≤ tableSize t ≤ 2 ^ logBaseTwoTableSize t ∧
  Z.of_nat (length (buckets t)) = 2 ^ logBaseTwoTableSize t ∧
  4 ≤ logBaseTwoTableSize t ≤ 30.
Proof.
  intros Ht Hok. pose proof (ok_addressing _ Hok) as Hadr.
  destruct (addressing_ok_facts t tbl Ht Hadr)
    as [Fb Fl Fsp Fm Fh Fn Fsz Flen Ffit Farr Fun].
  rewrite (buckets_Some t tbl Ht). lia.
Qed.

Lemma count_is_chain_lengths t :
  table_ok t → chain_lengths t < 2 ^ 32 → nInUse t = chain_lengths t.
Proof.
  intros Hok Hlt. pose proof (ok_count _ Hok) as Hc.
  unfold numEntriesInstalled in Hc. rewrite Hc. apply u32_small.
  pose proof (chain_lengths_nonneg t). lia.
Qed.

(** X9. A call of [add] on a table that has its bucket array splits at
    most one bucket: [tableSize ()] stays as it is when the table holds
    fewer entries than [tableSize ()], and grows by exactly one when the
    table is full and the allocation, if one is made, succeeds. It never
    grows by more. *)
Theorem add_splits_at_most_one_bucket alloc res t status t' :
  table_ok t → is_Some (pTable t) → add alloc res t = Returns (status, t') →
  tableSize t ≤ tableSize t' ≤ tableSize t + 1 ∧
  (numEntriesInstalled t < tableSize t → tableSize t' = tableSize t) ∧
  (tableSize t ≤ numEntriesInstalled t → alloc = true →
     tableSize t' = tableSize t + 1).
Proof.
  intros Hok Hs Hadd.
  destruct (add_growth alloc res t status t' Hok Hadd) as (_ & Hle & Hrest).
  destruct (Hrest Hs) as (Hup & Hfree & Hfull & _).
  unfold numEntriesInstalled.
  split; [lia|]. split; [intros Hlt; apply (Hfree Hlt)|exact Hfull].
Qed.

Lemma perform_load (o : operation T ID) t t' :
  table_ok t → chain_lengths t ≤ tableSize t →
  (∀ alloc res, o = OpAdd alloc res → alloc = true) →
  perform o t = Returns t' →
  table_ok t' ∧ chain_lengths t' ≤ tableSize t'.
Proof.
  intros Hok Hload Halloc Hperf.
  destruct (perform_spec o t t' Hok Hperf) as (Hok' & _).
  split; [exact Hok'|].
  pose proof (tableSize_range t) as Hr.
  pose proof (chain_lengths_nonneg t) as Hnn.
  pose proof (count_is_chain_lengths t Hok ltac:(lia)) as Hcnt.
  destruct o as [alloc res|k|alloc n|]; simpl in Hperf.
  - rewrite (Halloc alloc res eq_refl) in Hperf.
    destruct (add true res t) as [[status t1]| |] eqn:Hadd; try discriminate.
    injection Hperf as ->.
    destruct (add_returns true res t status t' Hok Hadd) as (_ & [tbl' Ht'] & Hcase).
    destruct (add_growth true res t status t' Hok Hadd) as (_ & Hle & Hrest).
    assert (chain_lengths t' ≤ chain_lengths t + 1) as Hone.
    { destruct (lookup (res_id res) t).
      - destruct Hcase as (_ & Hp & _). rewrite (chain_lengths_perm t t' Hp). lia.
      - destruct Hcase as (_ & Hp & _). rewrite (chain_lengths_perm_cons t t' res Hp). lia. }
    destruct (pTable t) as [tbl|] eqn:Ht.
    + destruct (Hrest ltac:(eauto)) as (_ & Hfree & Hfull & _).
      destruct (Z.lt_ge_cases (nInUse t) (tableSize t)) as [Hlt|Hge].
      * destruct (Hfree Hlt) as [-> _]. lia.
      * rewrite (Hfull Hge eq_refl). lia.
    + rewrite (no_table_chains t Ht) in Hone.
      destruct (storage_size t' tbl' Ht' Hok') as (Hsz & _). lia.
  - injection Hperf as <-.
    pose proof (remove_spec t k Hok) as Hs.
    destruct (lookup k t) as [r|].
    + destruct Hs as (t1 & -> & Hsame & _ & _ & _ & Hp & _). simpl.
      destruct Hsame as (_&_&_&_&->).
      rewrite (chain_lengths_perm_cons t1 t r Hp) in Hload. lia.
    + rewrite Hs. simpl. exact Hload.
  - pose proof (setTableSize_spec alloc n t Hok) as Hs. rewrite Hperf in Hs.
    destruct Hs as (_ & Hres & _ & Hsome & _).
    assert (chain_lengths t' = chain_lengths t) as ->
      by (rewrite !chain_lengths_residents, Hres; reflexivity).
    destruct (pTable t) as [tbl|] eqn:Ht.
    + destruct (Hsome ltac:(eauto)) as (_ & _&_&_&_&->). exact Hload.
    + rewrite (no_table_chains t Ht). pose proof (tableSize_range t'). lia.
  - injection Hperf as <-. exact Hload.
Qed.

Lemma run_load (ops : list (operation T ID)) : ∀ t t',
  table_ok t → chain_lengths t ≤ tableSize t →
  (∀ alloc res, OpAdd alloc res ∈ ops → alloc = true) →
  run ops t = Returns t' →
  table_ok t' ∧ chain_lengths t' ≤ tableSize t'.
Proof.
  induction ops as [|o ops IH]; intros t t' Hok Hload Halloc Hrun; simpl in Hrun.
  - injection Hrun as <-. auto.
  - destruct (perform o t) as [t1| |] eqn:Hp; try discriminate.
    change (run ops t1 = Returns t') in Hrun.
    destruct (perform_load o t t1 Hok Hload) as (Hok1 & Hload1); [|exact Hp|].
    { intros alloc res ->. apply (Halloc alloc res). apply elem_of_cons. left. reflexivity. }
    apply (IH t1 t' Hok1 Hload1); [|exact Hrun].
    intros alloc res Hin. apply (Halloc alloc res). apply elem_of_cons. right. exact Hin.
Qed.

(** X10. As long as no allocation made by [add] fails, the table never
    holds more entries than [tableSize ()] buckets: after every sequence
    of operations on a new table, [numEntriesInstalled ()] is the number
    of entries in the chains and is at most [tableSize ()]. *)
Theorem entries_never_exceed_buckets (ops : list (operation T ID)) t :
  (∀ alloc res, OpAdd alloc res ∈ ops → alloc = true) →
  run ops resTable_new = Returns t →
  numEntriesInstalled t = chain_lengths t ∧
  numEntriesInstalled t ≤ tableSize t.
Proof.
  intros Halloc Hrun.
  destruct (run_load ops resTable_new t table_ok_new) as (Hok & Hload);
    [unfold tableSize; simpl; reflexivity|exact Halloc|exact Hrun|].
  pose proof (tableSize_range t) as Hr.
  unfold numEntriesInstalled.
  rewrite (count_is_chain_lengths t Hok) by lia. split; [reflexivity|exact Hload].
Qed.

End Load.

(** ** The bucket array *)

Section Storage.
Context {T ID : Type} `{HL : IdentifierLaws ID} `{!Resource T ID}.
Implicit Types (t : resTable T) (idIn : ID) (res : T).

(** An [add] into a table whose bucket array has a chain to spare. *)
Lemma add_without_allocation alloc res t :
  table_ok t → is_Some (pTable t) →
  chain_lengths t < 2 ^ logBaseTwoTableSize t →
  ∃ status t',
    add alloc res t = Returns (status, t') ∧
    add true res t = Returns (status, t') ∧
    table_ok t' ∧ is_Some (pTable t') ∧
    logBaseTwoTableSize t' = logBaseTwoTableSize t ∧
    chain_lengths t' ≤ chain_lengths t + 1.
Proof.
  intros Hok [tbl Ht] Hroom.
  destruct (storage_size t tbl Ht Hok) as (Hsz & _ & Hlog).
  assert (2 ^ logBaseTwoTableSize t ≤ 2 ^ 30) as Hpow
    by (apply Z.pow_le_mono_r; lia).
  pose proof (count_is_chain_lengths t Hok ltac:(lia)) as Hcnt.
  assert (∃ status t', add alloc res t = Returns (status, t') ∧
                       add true res t = Returns (status, t') ∧
                       logBaseTwoTableSize t' = logBaseTwoTableSize t)
    as (status & t' & Hadd & Htrue & Hlogsame).
  { destruct (Z.lt_ge_cases (nInUse t) (tableSize t)) as [Hfree|Hfull].
    - exists (install res t).1, (install res t).2.
      rewrite <- surjective_pairing.
      split; [exact (add_without_split alloc res t tbl Ht Hfree)|].
      split; [exact (add_without_split true res t tbl Ht Hfree)|].
      apply (install_frame res t tbl Ht).
    - destruct (add_spec alloc res t Hok) as (status & t' & Hadd & _);
        [intros _; lia|rewrite Ht; discriminate|].
      destruct (add_growth alloc res t status t' Hok Hadd) as (_ & _ & Hrest).
      destruct (Hrest ltac:(eauto)) as (_ & _ & _ & _ & Hpre).
      destruct (Hpre ltac:(lia)) as (Hlogsame & _ & Hany).
      exists status, t'. auto. }
  destruct (add_returns alloc res t status t' Hok Hadd) as (Hok' & Hs' & Hcase).
  exists status, t'. split; [exact Hadd|]. split; [exact Htrue|].
  split; [exact Hok'|]. split; [exact Hs'|]. split; [exact Hlogsame|].
  destruct (lookup (res_id res) t).
  - destruct Hcase as (_ & Hp & _). rewrite (chain_lengths_perm t t' Hp). lia.
  - destruct Hcase as (_ & Hp & _). rewrite (chain_lengths_perm_cons t t' res Hp). lia.
Qed.

(** X11. A table whose bucket array has 2^k chains takes up entries
    without asking for memory until it holds 2^k of them: as long as the
    entries in the table and the entries to add are at most 2^k, every
    [add] returns and does what it does when every allocation succeeds,
    whatever the allocator would have answered, and the bucket array stays
    the one the table had. *)
Theorem adds_within_the_bucket_array (adds : list (bool * T)) : ∀ t,
  table_ok t → is_Some (pTable t) →
  chain_lengths t + Z.of_nat (length adds) ≤ 2 ^ logBaseTwoTableSize t →
  ∃ t', run ((λ a, OpAdd a.1 a.2) <$> adds) t = Returns t' ∧
        run ((λ a, OpAdd true a.2) <$> adds) t = Returns t' ∧
        table_ok t' ∧
        logBaseTwoTableSize t' = logBaseTwoTableSize t ∧
        length (buckets t') = length (buckets t).
Proof.
  induction adds as [|[alloc res] adds IH]; intros t Hok Hs Hroom.
  - exists t. simpl. auto.
  - simpl length in Hroom.
    destruct (add_without_allocation alloc res t Hok Hs)
      as (status & t1 & Hadd & Htrue & Hok1 & Hs1 & Hlog1 & Hlen1); [lia|].
    destruct (IH t1 Hok1 Hs1) as (t' & Hrun & Hruntrue & Hok' & Hlog' & Hlen');
      [rewrite Hlog1; lia|].
    exists t'. rewrite !fmap_cons. simpl run. simpl fst. simpl snd.
    rewrite Hadd, Htrue.
    change (mbind ?f (Returns ?a)) with (f a). cbv beta iota.
    change (mbind ?f (Returns ?a)) with (f a).
    split; [exact Hrun|]. split; [exact Hruntrue|]. split; [exact Hok'|].
    split; [congruence|].
    destruct Hs as [tbl Ht]. destruct Hs1 as [tbl1 Ht1].
    destruct (storage_size t tbl Ht Hok) as (_ & Hl & _).
    destruct (storage_size t1 tbl1 Ht1 Hok1) as (_ & Hl1 & _).
    rewrite Hlen'. apply Nat2Z.inj. rewrite Hl, Hl1, Hlog1. reflexivity.
Qed.

Lemma setTableSize_log alloc n t t' :
  table_ok t → setTableSize alloc n t = Returns t' →
  logBaseTwoTableSize t ≤ logBaseTwoTableSize t'.
Proof.
  intros Hok Hrun.
  destruct (Z.eq_dec n 0) as [->|Hnz]; [injection Hrun as <-; lia|].
  rewrite setTableSize_unfold in Hrun by exact Hnz.
  pose proof (countBits_spec (Z.to_nat UINT_WIDTH) 0 (u32 (n - 1))
                (u32_range (n - 1)) ltac:(lia) eq_refl ltac:(lia)) as Hcount.
  destruct (countBits (Z.to_nat UINT_WIDTH) 0 (u32 (n - 1))) as [k| |];
    [|discriminate|discriminate].
  bind_returns_in Hrun. destruct Hcount as (Hk & _).
  destruct (Z.le_gt_cases k (logBaseTwoTableSize t)) as [Hle|Hgt].
  - rewrite setTableSizePrivate_noop in Hrun by exact Hle.
    injection Hrun as <-. lia.
  - destruct (Z.le_gt_cases 32 k) as [Hbig|Hsmall].
    + lia.
    + destruct alloc.
      * destruct (pTable t) as [tbl|] eqn:Ht.
        -- destruct (setTableSizePrivate_grow k t tbl Ht Hok)
             as (t1 & Heq & _ & Hlog & _); [lia|lia|].
           rewrite Heq in Hrun. injection Hrun as <-. lia.
        -- pose proof (no_table_log t Ht Hok) as Hlog0.
           destruct (setTableSizePrivate_first k t Ht Hok)
             as (t1 & Heq & _ & _ & Hlog & _); [lia|lia|].
           rewrite Heq in Hrun. injection Hrun as <-. lia.
      * rewrite setTableSizePrivate_fail in Hrun by lia.
        destruct (pTable t); [|discriminate]. injection Hrun as <-. lia.
Qed.

Lemma perform_growth (o : operation T ID) t t' :
  table_ok t → perform o t = Returns t' →
  table_ok t' ∧ tableSize t ≤ tableSize t' ∧
  logBaseTwoTableSize t ≤ logBaseTwoTableSize t' ∧
  (is_Some (pTable t) → is_Some (pTable t')).
Proof.
  intros Hok Hperf.
  destruct (perform_spec o t t' Hok Hperf) as (Hok' & _).
  split; [exact Hok'|].
  destruct o as [alloc res|k|alloc n|]; simpl in Hperf.
  - destruct (add alloc res t) as [[status t1]| |] eqn:Hadd; try discriminate.
    injection Hperf as ->.
    destruct (add_returns alloc res t status t' Hok Hadd) as (_ & Hs' & _).
    destruct (add_growth alloc res t status t' Hok Hadd) as (Hlog & Hle & _).
    auto.
  - injection Hperf as <-.
    pose proof (remove_spec t k Hok) as Hs.
    destruct (lookup k t) as [r|].
    + destruct Hs as (t1 & -> & Hsame & Hs1 & Hlog & _). simpl.
      destruct Hsame as (_&_&_&_&->). split; [lia|]. split; [lia|auto].
    + rewrite Hs. simpl. split; [lia|]. split; [lia|auto].
  - pose proof (setTableSize_log alloc n t t' Hok Hperf) as Hlog.
    pose proof (setTableSize_spec alloc n t Hok) as Hs. rewrite Hperf in Hs.
    destruct Hs as (_ & _ & _ & Hsome & _).
    split; [|split; [exact Hlog|intros Hst; apply (Hsome Hst)]].
    destruct (pTable t) as [tbl|] eqn:Ht.
    + destruct (Hsome ltac:(eauto)) as (_ & _&_&_&_&->). lia.
    + unfold tableSize at 1. rewrite Ht. apply tableSize_range.
  - injection Hperf as <-. split; [lia|]. split; [lia|auto].
Qed.

Lemma run_growth (ops : list (operation T ID)) : ∀ t t',
  table_ok t → run ops t = Returns t' →
  table_ok t' ∧ tableSize t ≤ tableSize t' ∧
  logBaseTwoTableSize t ≤ logBaseTwoTableSize t' ∧
  (is_Some (pTable t) → is_Some (pTable t')).
Proof.
  induction ops as [|o ops IH]; intros t t' Hok Hrun; simpl in Hrun.
  - injection Hrun as <-. split; [exact Hok|]. split; [lia|]. split; [lia|auto].
  - destruct (perform o t) as [t1| |] eqn:Hp; try discriminate.
    change (run ops t1 = Returns t') in Hrun.
    destruct (perform_growth o t t1 Hok Hp) as (Hok1 & Hsz1 & Hlog1 & Hs1).
    destruct (IH t1 t' Hok1 Hrun) as (Hok' & Hsz' & Hlog' & Hs').
    split; [exact Hok'|]. split; [lia|]. split; [lia|auto].
Qed.

(** X12. The table never shrinks: over every sequence of operations that
    starts in a state satisfying the invariants, [tableSize ()] and the
    number of chains of the bucket array do not go down, whatever is
    removed, and a table that has got its bucket array keeps one. *)
Theorem table_never_shrinks (ops : list (operation T ID)) t t' :
  table_ok t → run ops t = Returns t' →
  tableSize t ≤ tableSize t' ∧
  (length (buckets t) ≤ length (buckets t'))%nat ∧
  (is_Some (pTable t) → is_Some (pTable t')).
Proof.
  intros Hok Hrun.
  destruct (run_growth ops t t' Hok Hrun) as (Hok' & Hsz & Hlog & Hs).
  split; [exact Hsz|]. split; [|exact Hs].
  destruct (pTable t) as [tbl|] eqn:Ht.
  - destruct (Hs ltac:(eauto)) as [tbl' Ht'].
    destruct (storage_size t tbl Ht Hok) as (_ & Hl & _).
    destruct (storage_size t' tbl' Ht' Hok') as (_ & Hl' & _).
    assert (2 ^ logBaseTwoTableSize t ≤ 2 ^ logBaseTwoTableSize t')
      by (apply Z.pow_le_mono_r; lia).
    lia.
  - unfold buckets at 1. rewrite Ht. simpl. lia.
Qed.

(** X22. The first [add] gives the table a bucket array of 1024 chains,
    of which 512 are in use, and installs the entry: it returns 0, the
    entry is the only one in the table and [lookup] finds it. *)
Theorem first_add_allocates_1024_chains res :
  ∃ t', add true res resTable_new = Returns (0, t') ∧
        length (buckets t') = 1024%nat ∧
        tableSize t' = 512 ∧
        residents t' = [res] ∧
        numEntriesInstalled t' = 1 ∧
        lookup (res_id res) t' = Some res.
Proof.
  destruct (add_spec true res resTable_new table_ok_new)
    as (status & t' & Hadd & Hok' & [tbl' Ht'] & _ & Hsz & Hcase);
    [intros _; unfold tableSize; simpl; lia|reflexivity|].
  change (lookup (res_id res) resTable_new) with (@None T) in Hcase.
  destruct Hcase as (-> & Hp & Hn).
  change (residents resTable_new) with (@nil T) in Hp.
  apply Permutation_singleton_r in Hp.
  exists t'. split; [exact Hadd|].
  assert (logBaseTwoTableSize t' = 10) as Hlog.
  { unfold add in Hadd. simpl pTable in Hadd. cbv iota in Hadd.
    destruct (setTableSizePrivate_first 10 (resTable_new (T := T)) eq_refl table_ok_new)
      as (t1 & Heq & Ht1 & _ & Hlog1 & _); [lia|lia|].
    rewrite Heq in Hadd.
    change (mbind ?f (Returns ?a)) with (f a) in Hadd. cbv beta iota in Hadd.
    rewrite (add_tail_unfold res t1) in Hadd by eauto.
    injection Hadd as Hadd.
    destruct (install_frame res t1 _ Ht1) as [_ Hl]. rewrite Hadd in Hl.
    simpl in Hl. rewrite Hl, Hlog1. reflexivity. }
  split.
  { destruct (storage_size t' tbl' Ht' Hok') as (_ & Hl & _).
    rewrite Hlog in Hl. apply Nat2Z.inj. rewrite Hl. reflexivity. }
  split; [exact (Hsz eq_refl)|]. split; [exact Hp|].
  split; [exact Hn|].
  rewrite (lookup_residents t' _ Hok'), Hp. simpl. rewrite id_eq_refl. reflexivity.
Qed.

End Storage.

(** ** What a split moves *)

Section SplitBuckets.
Context {T ID : Type} `{HL : IdentifierLaws ID} `{!Resource T ID}.
Implicit Types (t : resTable T) (idIn : ID) (res : T).

Lemma bucket_set_bucket_ne t (i j : Z) (l : list T) :
  0 ≤ i → 0 ≤ j → i ≠ j → bucket (set_bucket j l t) i = bucket t i.
Proof.
  intros Hi Hj Hne. unfold bucket. rewrite buckets_set_bucket.
  rewrite list_lookup_insert_ne by lia. reflexivity.
Qed.

Lemma bucket_set_bucket_eq t (j : Z) (l : list T) :
  (Z.to_nat j < length (buckets t))%nat → bucket (set_bucket j l t) j = l.
Proof.
  intros Hj. unfold bucket. rewrite buckets_set_bucket.
  rewrite list_lookup_insert_eq by exact Hj. reflexivity.
Qed.

Lemma filter_none (P : T → Prop) `{∀ x, Decision (P x)} (l : list T) :
  (∀ r, r ∈ l → ¬ P r) → filter P l = [].
Proof.
  induction l as [|x l IH]; intros Hno; [reflexivity|].
  rewrite filter_cons. destruct (decide (P x)) as [Hp|_].
  - exfalso. apply (Hno x); [apply elem_of_cons; left; reflexivity|exact Hp].
  - apply IH. intros r Hr. apply Hno. apply elem_of_cons. right. exact Hr.
Qed.

(** The loop of [splitBucket] links each entry in front of the chain it
    hashes to: a chain ends up with the entries of [tmp] that hash to it,
    the last one taken first, in front of what it held. *)
Lemma rehash_buckets (h : ID → Z) (tmp : list T) : ∀ t tbl (i : Z),
  pTable t = Some tbl → addressing_ok t → bucket_consistent t →
  (∀ k, hash t k = h k) → 0 ≤ i →
  bucket (rehash tmp t) i
  = reverse (filter (λ r, h (res_id r) = i) tmp) ++ bucket t i.
Proof.
  induction tmp as [|p tmp IH]; intros t tbl i Ht Hadr Hbk Hh Hi.
  - reflexivity.
  - simpl rehash.
    destruct (link_spec t tbl p Ht Hadr Hbk) as (Hadr1 & Hbk1 & _).
    pose proof (hash_range t tbl (res_id p) Ht Hadr) as Hrange.
    pose proof (index_in_table t tbl (res_id p) Ht Hadr) as Hlt.
    set (idx := hash t (res_id p)) in *.
    set (t1 := set_bucket idx (SLList.add p (bucket t idx)) t) in *.
    assert (pTable t1 = Some (<[Z.to_nat idx := SLList.add p (bucket t idx)]> tbl))
      as Ht1 by (unfold t1, set_bucket; simpl; rewrite Ht; reflexivity).
    assert (∀ k, hash t1 k = h k) as Hh1.
    { intros k. rewrite <- Hh. apply same_addressing_hash.
      apply same_addressing_set_bucket. }
    rewrite (IH t1 _ i Ht1 Hadr1 Hbk1 Hh1 Hi).
    rewrite filter_cons. destruct (decide (h (res_id p) = i)) as [Heq|Hne].
    + assert (idx = i) as Hidx by (unfold idx; rewrite Hh; exact Heq).
      rewrite reverse_cons, <- app_assoc. f_equal.
      unfold t1. rewrite Hidx. rewrite bucket_set_bucket_eq; [reflexivity|].
      rewrite (buckets_Some t tbl Ht), <- Hidx. exact Hlt.
    + f_equal. unfold t1. apply bucket_set_bucket_ne; [exact Hi|lia|].
      intros Hidx. apply Hne. rewrite <- Hh. fold idx. congruence.
Qed.

Lemma split_step_buckets t tbl :
  pTable t = Some tbl → table_ok t → nextSplitIndex t ≤ hashIxMask t →
  let p := nextSplitIndex t in
  let N := tableSize t in
  let t' := split_step t in
  nextSplitIndex t' = p + 1 ∧
  (∀ r, r ∈ bucket t p → hash t' (res_id r) = p ∨ hash t' (res_id r) = N) ∧
  bucket t' p = reverse (filter (λ r, hash t' (res_id r) = p) (bucket t p)) ∧
  bucket t' N = reverse (filter (λ r, hash t' (res_id r) = N) (bucket t p)) ∧
  (∀ i, 0 ≤ i → i ≠ p → i ≠ N → bucket t' i = bucket t i).
Proof.
  intros Ht [Hadr Hbk Hd Hcnt] Hroom p N t'.
  destruct (addressing_ok_facts t tbl Ht Hadr)
    as [Fb Fl Fsp Fm Fh Fn Fsz Flen Ffit Farr Fun].
  unfold t', split_step. cbn [SLList.move].
  fold p.
  set (t3 := set_bucket p SLList.empty t).
  set (t4 := ResTable (pTable t3) _ _ _ _ _ _).
  assert (pTable t4 = Some (<[Z.to_nat p := []]> tbl)) as Ht4.
  { unfold t4, t3, set_bucket. simpl. rewrite Ht. reflexivity. }
  assert (buckets t4 = <[Z.to_nat p := []]> tbl) as Hb4
    by (apply buckets_Some; exact Ht4).
  assert (nextSplitIndex t4 = p + 1) as Hnx4.
  { unfold t4. simpl. fold p. apply u32_small. lia. }
  assert (tableSize t4 = tableSize t + 1) as Hsz4.
  { rewrite Fsz. unfold tableSize. rewrite Ht4, Hnx4.
    change (hashIxMask t4) with (hashIxMask t). rewrite Fm.
    rewrite (u32_small (_ + 1)) by lia. rewrite u32_small by lia. lia. }
  assert ((Z.to_nat p < length tbl)%nat) as Hplt by lia.
  assert (2 ^ nBitsHashIxSplitMask t = 2 * 2 ^ (nBitsHashIxSplitMask t - 1)) as Hpow
    by (apply pow2_double; lia).
  assert (addressing_ok t4) as Hadr4.
  { unfold addressing_ok. rewrite Ht4, Hnx4.
    change (hashIxMask t4) with (hashIxMask t).
    change (hashIxSplitMask t4) with (hashIxSplitMask t).
    change (nBitsHashIxSplitMask t4) with (nBitsHashIxSplitMask t).
    change (logBaseTwoTableSize t4) with (logBaseTwoTableSize t).
    rewrite length_insert. unfold UINT_WIDTH.
    repeat split; try lia.
    intros i Hi. rewrite Hsz4 in Hi. unfold bucket. rewrite Hb4, Nat2Z.id.
    rewrite list_lookup_insert_ne by lia.
    specialize (Fun i ltac:(lia)). unfold bucket in Fun.
    rewrite (buckets_Some t tbl Ht), Nat2Z.id in Fun. exact Fun. }
  assert (bucket_consistent t4) as Hbk4.
  { intros i chain r Hi Hr. rewrite Hb4 in Hi.
    destruct (decide (i = Z.to_nat p)) as [->|Hne].
    - rewrite list_lookup_insert_eq in Hi by exact Hplt.
      injection Hi as <-. inversion Hr.
    - rewrite list_lookup_insert_ne in Hi by congruence.
      rewrite <- (buckets_Some t tbl Ht) in Hi.
      pose proof (Hbk i chain r Hi Hr) as Hh. revert Hh. unfold hash.
      rewrite Hnx4. change (hashIxMask t4) with (hashIxMask t).
      change (hashIxSplitMask t4) with (hashIxSplitMask t). fold p.
      destruct (Z.geb_spec (Z.land (id_hash (res_id r)) (hashIxMask t)) p);
        destruct (Z.geb_spec (Z.land (id_hash (res_id r)) (hashIxMask t)) (p + 1));
        intros Hh; try lia; try exact Hh. }
  destruct (rehash_spec (bucket t p) t4 _ Ht4 Hadr4 Hbk4)
    as (_ & _ & _ & Hsame & _).
  set (t5 := rehash (bucket t p) t4) in *.
  assert (∀ k, hash t4 k = hash t5 k) as Hh45
    by (intros k; symmetry; apply same_addressing_hash; exact Hsame).
  assert (bucket t4 p = []) as Hb4p.
  { unfold bucket. rewrite Hb4, list_lookup_insert_eq by exact Hplt. reflexivity. }
  assert (∀ i, 0 ≤ i → i ≠ p → bucket t4 i = bucket t i) as Hb4i.
  { intros i Hi Hne. unfold bucket. rewrite Hb4, (buckets_Some t tbl Ht).
    rewrite list_lookup_insert_ne by lia. reflexivity. }
  assert (bucket t N = []) as HbN.
  { specialize (Fun (Z.to_nat N)). rewrite Z2Nat.id in Fun by (unfold N; lia).
    apply Fun. unfold N. lia. }
  assert (∀ r, r ∈ bucket t p → hash t5 (res_id r) = p ∨ hash t5 (res_id r) = N)
    as Hwhere.
  { intros r Hr. rewrite <- Hh45.
    assert (hash t (res_id r) = p) as Hhp.
    { pose proof (Hbk (Z.to_nat p) (bucket t p) r) as Hc.
      rewrite Z2Nat.id in Hc by (unfold p; lia). apply Hc; [|exact Hr].
      apply (lookup_bucket t tbl); assumption. }
    revert Hhp. unfold hash. rewrite Hnx4.
    change (hashIxMask t4) with (hashIxMask t).
    change (hashIxSplitMask t4) with (hashIxSplitMask t). fold p.
    rewrite Fm, Fsp, <- Hpow. rewrite !land_low_bits by lia.
    set (h := id_hash (res_id r)).
    pose proof (Z.mod_pos_bound h (2 ^ (nBitsHashIxSplitMask t - 1)) ltac:(lia)) as Hb1.
    destruct (mod_pow2_next h (nBitsHashIxSplitMask t - 1) ltac:(lia)) as [Hm|Hm];
      replace (nBitsHashIxSplitMask t - 1 + 1) with (nBitsHashIxSplitMask t) in Hm by lia.
    - destruct (Z.geb_spec (h mod 2 ^ (nBitsHashIxSplitMask t - 1)) p);
        destruct (Z.geb_spec (h mod 2 ^ (nBitsHashIxSplitMask t - 1)) (p + 1));
        intros Hhp; try lia; left; lia.
    - destruct (Z.geb_spec (h mod 2 ^ (nBitsHashIxSplitMask t - 1)) p);
        destruct (Z.geb_spec (h mod 2 ^ (nBitsHashIxSplitMask t - 1)) (p + 1));
        intros Hhp; try lia; right; unfold N; lia. }
  split; [destruct Hsame as (-> & _); exact Hnx4|].
  split; [exact Hwhere|].
  assert (∀ i, 0 ≤ i →
            bucket t5 i
            = reverse (filter (λ r, hash t5 (res_id r) = i) (bucket t p))
              ++ bucket t4 i) as Hb5.
  { intros i Hi.
    exact (rehash_buckets (hash t5) (bucket t p) t4 _ i Ht4 Hadr4 Hbk4 Hh45 Hi). }
  split.
  { rewrite Hb5 by (unfold p; lia). rewrite Hb4p, app_nil_r. reflexivity. }
  split.
  { rewrite Hb5 by (unfold N; lia).
    rewrite Hb4i by (unfold N, p; lia). rewrite HbN, app_nil_r. reflexivity. }
  intros i Hi Hip HiN.
  rewrite (Hb5 i Hi), (Hb4i i Hi Hip).
  rewrite filter_none; [reflexivity|].
  intros r Hr Hhi. destruct (Hwhere r Hr); congruence.
Qed.

Lemma bucket_extended t t1 tbl (k : nat) (i : Z) :
  pTable t = Some tbl → pTable t1 = Some (tbl ++ replicate k []) →
  bucket t1 i = bucket t i.
Proof.
  intros Ht Ht1. unfold bucket.
  rewrite (buckets_Some t tbl Ht), (buckets_Some t1 _ Ht1).
  destruct (decide (Z.to_nat i < length tbl)%nat) as [Hlt|Hge].
  - rewrite lookup_app_l by exact Hlt. reflexivity.
  - rewrite lookup_app_r by lia.
    rewrite (proj2 (lookup_ge_None tbl (Z.to_nat i))) by lia.
    destruct (replicate k [] !! (Z.to_nat i - length tbl)%nat) as [c|] eqn:Hc;
      [|reflexivity].
    apply lookup_replicate_1 in Hc as [-> _]. reflexivity.
Qed.

(** X13. A split redistributes one bucket and touches no other. The bucket
    split is the one at [nextSplitIndex], or bucket 0 when the index had
    reached the end of the half in use and the addressing was doubled; the
    new bucket is the one at the old [tableSize ()]. Under the addressing
    after the split every entry of the split bucket hashes either to that
    bucket or to the new one; each of the two chains holds the entries that
    hash to it, in the reverse of their order in the old chain, and every
    other chain is as it was. The only call that returns without having
    split is one whose allocation failed with the bucket array used up. *)
Theorem split_redistributes_one_bucket alloc t t' :
  table_ok t → is_Some (pTable t) → splitBucket alloc t = Returns t' →
  let s := if nextSplitIndex t >? hashIxMask t then 0 else nextSplitIndex t in
  let N := tableSize t in
  (alloc = false ∧ t' = t ∧ tableSize t = 2 ^ logBaseTwoTableSize t) ∨
  (nextSplitIndex t' = s + 1 ∧ tableSize t' = N + 1 ∧
   N = s + (hashIxMask t' + 1) ∧
   (∀ r, r ∈ bucket t s → hash t' (res_id r) = s ∨ hash t' (res_id r) = N) ∧
   bucket t' s = reverse (filter (λ r, hash t' (res_id r) = s) (bucket t s)) ∧
   bucket t' N = reverse (filter (λ r, hash t' (res_id r) = N) (bucket t s)) ∧
   (∀ i, 0 ≤ i → i ≠ s → i ≠ N → bucket t' i = bucket t i)).
Proof.
  intros Hok [tbl Ht] Hrun s N.
  pose proof (ok_addressing _ Hok) as Hadr.
  destruct (addressing_ok_facts t tbl Ht Hadr)
    as [Fb Fl Fsp Fm Fh Fn Fsz Flen Ffit Farr Fun].
  assert (∀ t2 tbl2, pTable t2 = Some tbl2 → table_ok t2 →
            nextSplitIndex t2 ≤ hashIxMask t2 →
            nextSplitIndex t2 = s → tableSize t2 = N →
            (∀ i, bucket t2 i = bucket t i) →
            let t' := split_step t2 in
            nextSplitIndex t' = s + 1 ∧ tableSize t' = N + 1 ∧
            N = s + (hashIxMask t' + 1) ∧
            (∀ r, r ∈ bucket t s → hash t' (res_id r) = s ∨ hash t' (res_id r) = N) ∧
            bucket t' s = reverse (filter (λ r, hash t' (res_id r) = s) (bucket t s)) ∧
            bucket t' N = reverse (filter (λ r, hash t' (res_id r) = N) (bucket t s)) ∧
            (∀ i, 0 ≤ i → i ≠ s → i ≠ N → bucket t' i = bucket t i)) as Hgo.
  { intros t2 tbl2 Ht2 Hok2 Hroom2 Hs2 HN2 Hb2.
    destruct (split_step_buckets t2 tbl2 Ht2 Hok2 Hroom2)
      as (Hnx & Hwhere & Hbs & HbN & Hother).
    destruct (split_step_spec t2 tbl2 Ht2 Hok2 Hroom2)
      as (Hok' & _ & Hsz' & _ & [tbl' Ht'] & _ & _).
    rewrite Hs2, HN2, !Hb2 in *. cbv zeta.
    split; [exact Hnx|]. split; [lia|].
    split.
    { pose proof (ok_addressing _ Hok') as Hadr'.
      destruct (addressing_ok_facts _ tbl' Ht' Hadr')
        as [Gb Gl Gsp Gm Gh Gn Gsz Glen Gfit Garr Gun]. lia. }
    split; [exact Hwhere|]. split; [exact Hbs|]. split; [exact HbN|].
    intros i Hi His HiN. rewrite (Hother i Hi His HiN). apply Hb2. }
  destruct (Z.le_gt_cases (nextSplitIndex t) (hashIxMask t)) as [Hroom|Hfull].
  - rewrite (splitBucket_no_doubling alloc t tbl Ht Hroom) in Hrun.
    injection Hrun as <-. right.
    apply (Hgo t tbl Ht Hok Hroom); [|reflexivity|reflexivity].
    unfold s. destruct (Z.gtb_spec (nextSplitIndex t) (hashIxMask t)); [lia|reflexivity].
  - assert (s = 0) as Hs0.
    { unfold s. destruct (Z.gtb_spec (nextSplitIndex t) (hashIxMask t)); [reflexivity|lia]. }
    set (n := nBitsHashIxSplitMask t) in *.
    assert (2 ^ n = 2 * 2 ^ (n - 1)) as Hpow by (apply pow2_double; lia).
    pose proof Hrun as Hrun0.
    rewrite (splitBucket_doubling alloc t tbl Ht) in Hrun by lia.
    fold n in Hrun. rewrite (u32_small (n + 1)) in Hrun by lia.
    assert (∀ t1 tbl1, pTable t1 = Some tbl1 → table_ok t1 → same_addressing t t1 →
              n + 1 ≤ logBaseTwoTableSize t1 → (∀ i, bucket t1 i = bucket t i) →
              ∃ t2 tbl2, doubled t1 = Returns t2 ∧
                      pTable t2 = Some tbl2 ∧ table_ok t2 ∧
                      nextSplitIndex t2 ≤ hashIxMask t2 ∧
                      nextSplitIndex t2 = s ∧ tableSize t2 = N ∧
                      (∀ i, bucket t2 i = bucket t i)) as Hdbl.
    { intros t1 tbl1 Ht1 Hok1 (Hnx & Hm & Hsp & Hnb & Hsz) Hlog Hb1.
      destruct (doubled_spec t1 tbl1 Ht1 Hok1)
        as (t2 & Heq2 & Hok2 & Hsz2 & Hnx2 & Hnb2 & Hp2 & _); [lia|lia|].
      assert (pTable t2 = Some tbl1) as Ht2 by (rewrite Hp2; exact Ht1).
      pose proof (ok_addressing _ Hok2) as Hadr2.
      destruct (addressing_ok_facts _ tbl1 Ht2 Hadr2)
        as [Gb Gl Gsp Gm Gh Gn Gsz Glen Gfit Garr Gun].
      exists t2, tbl1. split; [exact Heq2|]. split; [exact Ht2|].
      split; [exact Hok2|].
      split; [lia|]. split; [lia|]. split; [unfold N; lia|].
      intros i. rewrite <- Hb1. unfold bucket, buckets. rewrite Hp2. reflexivity. }
    destruct (Z.le_gt_cases (n + 1) (logBaseTwoTableSize t)) as [Hpre|Hneed].
    + rewrite setTableSizePrivate_noop in Hrun by lia.
      destruct (Hdbl t tbl Ht Hok (same_addressing_refl t) Hpre (λ _, eq_refl))
        as (t2 & tbl2 & Heq2 & Ht2 & Hok2 & Hroom2 & Hs2 & HN2 & Hb2).
      rewrite Heq2 in Hrun. bind_returns_in Hrun. injection Hrun as <-.
      right. exact (Hgo _ tbl2 Ht2 Hok2 Hroom2 Hs2 HN2 Hb2).
    + destruct alloc.
      * destruct (Z.lt_ge_cases (tableSize t) (2 ^ 30)) as [Hsmall|Hbig].
        2:{ rewrite (splitBucket_at_limit t tbl Ht Hok Hbig) in Hrun0.
            discriminate. }
        assert (n < 30) as Hn30.
        { destruct (Z.lt_ge_cases n 30) as [|Hge]; [assumption|].
          assert (2 ^ 30 ≤ 2 ^ n) by (apply Z.pow_le_mono_r; lia). lia. }
        destruct (setTableSizePrivate_grow (n + 1) t tbl Ht Hok)
          as (t1 & Heq & Hsame & Hlog1 & Ht1 & _ & _ & Hok1); [lia|lia|].
        rewrite Heq in Hrun.
        destruct (Hdbl t1 _ Ht1 (Hok1 ltac:(lia)) Hsame ltac:(lia))
          as (t2 & tbl2 & Heq2 & Ht2 & Hok2 & Hroom2 & Hs2 & HN2 & Hb2).
        { intros i. exact (bucket_extended t t1 tbl _ i Ht Ht1). }
        rewrite Heq2 in Hrun. bind_returns_in Hrun. injection Hrun as <-.
        right. exact (Hgo _ tbl2 Ht2 Hok2 Hroom2 Hs2 HN2 Hb2).
      * rewrite setTableSizePrivate_fail in Hrun by lia. rewrite Ht in Hrun.
        injection Hrun as <-. left.
        split; [reflexivity|]. split; [reflexivity|].
        assert (logBaseTwoTableSize t = n) as -> by lia. lia.
Qed.

End SplitBuckets.

(** ** The integer hash *)

Lemma xor_self_shift_0 (h : Z) : Z.lxor h (Z.shiftr h 0) = 0.
Proof. rewrite Z.shiftr_0_r. apply Z.lxor_nilpotent. Qed.

Lemma integerHash_loop_min_0 (width : positive) : ∀ hashid,
  integerHash_loop 0 width hashid = 0.
Proof.
  induction width as [w IH|w IH|]; intros hashid; simpl.
  - apply IH.
  - apply IH.
  - apply xor_self_shift_0.
Qed.

Lemma integerHash_returns (MIN_INDEX_WIDTH MAX_ID_WIDTH id : Z) :
  Z.shiftr MAX_ID_WIDTH 1 < SIZE_WIDTH →
  integerHash MIN_INDEX_WIDTH MAX_ID_WIDTH id
    = Returns (integerHash_rounds MIN_INDEX_WIDTH MAX_ID_WIDTH (to_resTableIndex id)).
Proof.
  intros Hw. unfold integerHash.
  destruct (Z.leb_spec SIZE_WIDTH (Z.shiftr MAX_ID_WIDTH 1)); [lia|reflexivity].
Qed.

(** The hash of an integer identifier is what [integerHash] returns. *)
Lemma intId_hash_integerHash (MIN_INDEX_WIDTH MAX_ID_WIDTH : Z)
    `{!HashDefined MAX_ID_WIDTH} (a : intId MIN_INDEX_WIDTH MAX_ID_WIDTH) :
  integerHash MIN_INDEX_WIDTH MAX_ID_WIDTH (getId a) = Returns (id_hash a).
Proof. unfold integerHash. rewrite hash_defined. reflexivity. Qed.

Lemma to_resTableIndex_range (id : Z) : 0 ≤ to_resTableIndex id < 2 ^ SIZE_WIDTH.
Proof. unfold to_resTableIndex, SIZE_WIDTH. apply Z.mod_pos_bound. lia. Qed.

Lemma to_resTableIndex_small (id : Z) :
  0 ≤ id < 2 ^ 64 → to_resTableIndex id = id.
Proof. intros Hid. unfold to_resTableIndex, SIZE_WIDTH. apply Z.mod_small. exact Hid. Qed.

Lemma integerHash_rounds_min_0 (MAX_ID_WIDTH hashid : Z) :
  integerHash_rounds 0 MAX_ID_WIDTH hashid = 0.
Proof.
  unfold integerHash_rounds.
  destruct MAX_ID_WIDTH as [|w|w]; try apply xor_self_shift_0.
  apply integerHash_loop_min_0.
Qed.

Lemma integerHash_rounds_narrow (MIN_INDEX_WIDTH MAX_ID_WIDTH hashid : Z) :
  MAX_ID_WIDTH ≤ 1 → integerHash_rounds MIN_INDEX_WIDTH MAX_ID_WIDTH hashid = 0.
Proof.
  intros Hw. unfold integerHash_rounds.
  destruct MAX_ID_WIDTH as [|w|w]; try apply xor_self_shift_0.
  assert (w = 1%positive) as -> by lia. apply xor_self_shift_0.
Qed.

(** X14. With [MIN_INDEX_WIDTH] 0 the loop of [integerHash] runs until
    [width] is 0, and its last round computes [hashid ^ (hashid >> 0)]: for
    every [MAX_ID_WIDTH] whose half is less than the width of
    [resTableIndex], so that the shifts are defined, the hash of every
    integer is 0, and a table keyed by [intId<T, 0, W>] keeps all its entries
    in bucket 0. The hash is 0 as well when [MAX_ID_WIDTH] is at most 1, where
    the first round already shifts by 0. *)
Theorem integerHash_min_width_0 (MAX_ID_WIDTH : Z) :
  0 ≤ MAX_ID_WIDTH → Z.shiftr MAX_ID_WIDTH 1 < SIZE_WIDTH →
  (∀ id, integerHash 0 MAX_ID_WIDTH id = Returns 0) ∧
  (∀ (Hd : HashDefined MAX_ID_WIDTH) (T : Type) (t : resTable T)
     (a : intId 0 MAX_ID_WIDTH), resTable_hash t a = 0) ∧
  (∀ MIN_INDEX_WIDTH id,
     MAX_ID_WIDTH ≤ 1 → integerHash MIN_INDEX_WIDTH MAX_ID_WIDTH id = Returns 0).
Proof.
  intros Hmax Hw. split; [|split].
  - intros id. rewrite integerHash_returns by exact Hw.
    rewrite integerHash_rounds_min_0. reflexivity.
  - intros Hd T t a. unfold hash. simpl id_hash.
    rewrite integerHash_rounds_min_0, !Z.land_0_l.
    destruct (0 >=? nextSplitIndex t); reflexivity.
  - intros MIN id Hnarrow. rewrite integerHash_returns by exact Hw.
    rewrite integerHash_rounds_narrow by exact Hnarrow. reflexivity.
Qed.

(** One round of the loop with a shift of at least one position can be
    undone: the bits of [h] are those of [h ^ (h >> w)], from the top down. *)
Lemma xor_shift_injective (w a b : Z) :
  1 ≤ w → 0 ≤ a → 0 ≤ b →
  Z.lxor a (Z.shiftr a w) = Z.lxor b (Z.shiftr b w) → a = b.
Proof.
  intros Hw Ha Hb Heq.
  set (n := Z.max (Z.log2 a) (Z.log2 b) + 1).
  assert (∀ i, n ≤ i → Z.testbit a i = false ∧ Z.testbit b i = false) as Htop.
  { intros i Hi. split.
    - destruct (Z.eq_dec a 0) as [->|]; [apply Z.bits_0|].
      apply Z.bits_above_log2; lia.
    - destruct (Z.eq_dec b 0) as [->|]; [apply Z.bits_0|].
      apply Z.bits_above_log2; lia. }
  assert (∀ i, 0 ≤ i → Z.testbit a i
            = xorb (Z.testbit (Z.lxor a (Z.shiftr a w)) i) (Z.testbit a (i + w))) as Hbit_a.
  { intros i Hi. rewrite Z.lxor_spec, Z.shiftr_spec by lia.
    destruct (Z.testbit a i), (Z.testbit a (i + w)); reflexivity. }
  assert (∀ i, 0 ≤ i → Z.testbit b i
            = xorb (Z.testbit (Z.lxor b (Z.shiftr b w)) i) (Z.testbit b (i + w))) as Hbit_b.
  { intros i Hi. rewrite Z.lxor_spec, Z.shiftr_spec by lia.
    destruct (Z.testbit b i), (Z.testbit b (i + w)); reflexivity. }
  assert (∀ k : nat, ∀ i, 0 ≤ i → n - Z.of_nat k ≤ i → Z.testbit a i = Z.testbit b i)
    as Hdown.
  { induction k as [|k IH]; intros i Hi Hk.
    - destruct (Htop i ltac:(lia)) as [-> ->]. reflexivity.
    - rewrite (Hbit_a i Hi), (Hbit_b i Hi), Heq.
      rewrite (IH (i + w)) by lia. reflexivity. }
  apply Z.bits_inj'. intros i Hi.
  apply (Hdown (Z.to_nat n) i Hi). lia.
Qed.

Lemma xor_shift_range (w a n : Z) :
  0 ≤ w → 0 ≤ n → 0 ≤ a < 2 ^ n → 0 ≤ Z.lxor a (Z.shiftr a w) < 2 ^ n.
Proof.
  intros Hw Hn Ha.
  assert (0 ≤ Z.shiftr a w) as Hs by (apply Z.shiftr_nonneg; lia).
  assert (0 ≤ Z.lxor a (Z.shiftr a w)) as Hx by (apply Z.lxor_nonneg; lia).
  split; [exact Hx|].
  destruct (Z.eq_dec (Z.lxor a (Z.shiftr a w)) 0) as [->|Hnz];
    [apply Z.pow_pos_nonneg; lia|].
  apply Z.log2_lt_pow2; [lia|].
  pose proof (Z.log2_lxor a (Z.shiftr a w) ltac:(lia) Hs) as Hl.
  assert (Z.shiftr a w ≤ a) as Hle.
  { rewrite Z.shiftr_div_pow2 by exact Hw.
    assert (0 < 2 ^ w) by (apply Z.pow_pos_nonneg; lia).
    apply Z.div_le_upper_bound; [lia|]. nia. }
  assert (Z.log2 (Z.shiftr a w) ≤ Z.log2 a) by (apply Z.log2_le_mono; exact Hle).
  assert (Z.log2 a < n).
  { destruct (Z.eq_dec a 0) as [Ha0|].
    - exfalso. apply Hnz. rewrite Ha0, Z.shiftr_0_l. reflexivity.
    - apply Z.log2_lt_pow2; lia. }
  lia.
Qed.

Lemma integerHash_loop_injective (MIN_INDEX_WIDTH : Z) (width : positive) : ∀ a b,
  1 ≤ MIN_INDEX_WIDTH → 2 ≤ Z.pos width → 0 ≤ a → 0 ≤ b →
  integerHash_loop MIN_INDEX_WIDTH width a = integerHash_loop MIN_INDEX_WIDTH width b →
  a = b.
Proof.
  assert (∀ (w : positive) (a b : Z),
            (∀ a b, 1 ≤ MIN_INDEX_WIDTH → 2 ≤ Z.pos w → 0 ≤ a → 0 ≤ b →
               integerHash_loop MIN_INDEX_WIDTH w a = integerHash_loop MIN_INDEX_WIDTH w b →
               a = b) →
            1 ≤ MIN_INDEX_WIDTH → 0 ≤ a → 0 ≤ b →
            (if Z.pos w >? MIN_INDEX_WIDTH
             then integerHash_loop MIN_INDEX_WIDTH w (Z.lxor a (Z.shiftr a (Z.pos w)))
             else Z.lxor a (Z.shiftr a (Z.pos w)))
            = (if Z.pos w >? MIN_INDEX_WIDTH
               then integerHash_loop MIN_INDEX_WIDTH w (Z.lxor b (Z.shiftr b (Z.pos w)))
               else Z.lxor b (Z.shiftr b (Z.pos w))) →
            a = b) as Hround.
  { intros w a b IH Hmin Ha Hb Heq.
    apply (xor_shift_injective (Z.pos w)); [lia|exact Ha|exact Hb|].
    destruct (Z.gtb_spec (Z.pos w) MIN_INDEX_WIDTH) as [Hgt|Hle]; [|exact Heq].
    apply IH; [exact Hmin|lia| | |exact Heq].
    - apply Z.lxor_nonneg. pose proof (Z.shiftr_nonneg a (Z.pos w)). lia.
    - apply Z.lxor_nonneg. pose proof (Z.shiftr_nonneg b (Z.pos w)). lia. }
  induction width as [w IH|w IH|]; intros a b Hmin Hw Ha Hb Heq.
  - exact (Hround w a b IH Hmin Ha Hb Heq).
  - exact (Hround w a b IH Hmin Ha Hb Heq).
  - lia.
Qed.

(** X15. For a [MIN_INDEX_WIDTH] of at least 1 and a [MAX_ID_WIDTH] of at
    least 2 whose half is less than the width of [resTableIndex], as
    [chronIntId] has them, [integerHash] returns, and it maps integers that
    differ as values of [resTableIndex], that is modulo 2^64, to different
    hashes: every round shifts by at least one position and can be undone.
    Two such identifiers share a bucket only through the masks of the
    table. Integers of at most 64 bits that are not negative differ as
    values of [resTableIndex] when they differ. *)
Theorem integerHash_separates_integers (MIN_INDEX_WIDTH MAX_ID_WIDTH a b : Z) :
  1 ≤ MIN_INDEX_WIDTH → 2 ≤ MAX_ID_WIDTH → Z.shiftr MAX_ID_WIDTH 1 < SIZE_WIDTH →
  (to_resTableIndex a ≠ to_resTableIndex b →
   ∃ ha hb,
     integerHash MIN_INDEX_WIDTH MAX_ID_WIDTH a = Returns ha ∧
     integerHash MIN_INDEX_WIDTH MAX_ID_WIDTH b = Returns hb ∧
     ha ≠ hb) ∧
  (0 ≤ a < 2 ^ SIZE_WIDTH → 0 ≤ b < 2 ^ SIZE_WIDTH → a ≠ b →
   to_resTableIndex a ≠ to_resTableIndex b).
Proof.
  intros Hmin Hmax Hw. split.
  - intros Hne. rewrite !integerHash_returns by exact Hw.
    eexists _, _. split; [reflexivity|]. split; [reflexivity|].
    intros Heq. apply Hne. revert Heq. unfold integerHash_rounds.
    pose proof (to_resTableIndex_range a). pose proof (to_resTableIndex_range b).
    destruct MAX_ID_WIDTH as [|w|w]; try lia.
    apply integerHash_loop_injective; lia.
  - intros Ha Hb Hne. unfold to_resTableIndex. rewrite !Z.mod_small by lia.
    exact Hne.
Qed.

Lemma integerHash_loop_range (MIN_INDEX_WIDTH n : Z) (width : positive) : ∀ a,
  0 ≤ n → 0 ≤ a < 2 ^ n →
  0 ≤ integerHash_loop MIN_INDEX_WIDTH width a < 2 ^ n.
Proof.
  induction width as [w IH|w IH|]; intros a Hn Ha; simpl.
  - destruct (Z.pos w >? MIN_INDEX_WIDTH);
      [apply IH; [exact Hn|]|]; apply xor_shift_range; lia.
  - destruct (Z.pos w >? MIN_INDEX_WIDTH);
      [apply IH; [exact Hn|]|]; apply xor_shift_range; lia.
  - apply xor_shift_range; lia.
Qed.

(** X16. [integerHash] keeps an integer within its width: for widths that
    are not negative, with the half of [MAX_ID_WIDTH] less than the width of
    [resTableIndex] so that the shifts are defined, the hash of an integer of
    [n] bits has [n] bits. The hash of an [unsigned] identifier is an
    [unsigned]. *)
Theorem integerHash_within_width (MIN_INDEX_WIDTH MAX_ID_WIDTH n id : Z) :
  0 ≤ MIN_INDEX_WIDTH → 0 ≤ MAX_ID_WIDTH → Z.shiftr MAX_ID_WIDTH 1 < SIZE_WIDTH →
  0 ≤ n → 0 ≤ id < 2 ^ n →
  ∃ h, integerHash MIN_INDEX_WIDTH MAX_ID_WIDTH id = Returns h ∧ 0 ≤ h < 2 ^ n.
Proof.
  intros Hmin Hmax Hw Hn Hid. rewrite integerHash_returns by exact Hw.
  eexists. split; [reflexivity|].
  assert (0 ≤ to_resTableIndex id < 2 ^ n) as Hcast.
  { pose proof (to_resTableIndex_range id) as Hr. split; [lia|].
    unfold to_resTableIndex, SIZE_WIDTH in *.
    pose proof (Z.mod_le id (2 ^ 64) ltac:(lia) ltac:(lia)). lia. }
  unfold integerHash_rounds.
  destruct MAX_ID_WIDTH as [|w|w].
  - apply xor_shift_range; lia.
  - apply integerHash_loop_range; assumption.
  - apply xor_shift_range; lia.
Qed.

(** ** String identifiers in a table *)

Module StringIdTable.
Import StringId StringIdFacts StringIdLanes.

(** X17. [stringId::operator ==] is an equivalence on the identifiers that
    have a string, and on no others: an identifier equals itself exactly
    when its [pStr] is not null. Two identifiers are equal exactly when both
    have a string and the strings have the same bytes up to their
    terminators; equal identifiers have equal hashes. *)
Theorem equal_compares_the_strings (a b c : stringId) :
  (equal a a = true ↔ is_Some (pStr a)) ∧
  (equal a b = true → equal b a = true) ∧
  (equal a b = true → equal b c = true → equal a c = true) ∧
  (equal a b = true → hash a = hash b) ∧
  (equal a b = true ↔
     ∃ sa sb, pStr a = Some sa ∧ pStr b = Some sb ∧ content sa = content sb).
Proof.
  destruct (equal_with_string a b c) as (Hrefl & Hsym & Htrans & Hhash).
  split.
  { split; [|exact Hrefl]. unfold equal. destruct (pStr a); [eauto|discriminate]. }
  split; [exact Hsym|]. split; [exact Htrans|]. split; [exact Hhash|].
  unfold equal. split.
  - destruct (pStr a) as [sa|]; [|discriminate].
    destruct (pStr b) as [sb|]; [|discriminate].
    intros He. exists sa, sb. split; [reflexivity|]. split; [reflexivity|].
    apply strcmp_eq_content. exact He.
  - intros (sa & sb & -> & -> & Hc). apply strcmp_eq_content. exact Hc.
Qed.

Section NullString.
Context {T : Type} `{!Resource T stringId}.
Implicit Types (t : resTable T) (idIn : stringId) (res : T).

Lemma find_null (l : list T) idIn : pStr idIn = None → find l idIn = None.
Proof.
  intros Hnull. induction l as [|item l IH]; simpl; [reflexivity|].
  unfold equal. rewrite Hnull. destruct (pStr (res_id item)); exact IH.
Qed.

Lemma add_tail_null res t status t' :
  pStr (res_id res) = None → add_tail res t = Returns (status, t') → status = 0.
Proof.
  intros Hnull. unfold add_tail, install.
  destruct (pTable t); [|discriminate].
  rewrite (find_null _ _ Hnull). intros [= <- _]. reflexivity.
Qed.

(** X18. An identifier without a string is never found: in every state
    of the table [lookup] and [remove] answer null for it, and [remove]
    leaves the table as it is. An [add] of an entry with such an
    identifier never reports a duplicate: whenever it returns, it
    returns 0, and [lookup] does not find the entry it has added. *)
Theorem null_string_is_never_found t idIn :
  pStr idIn = None →
  lookup idIn t = None ∧ remove idIn t = (None, t) ∧
  ∀ alloc res status t',
    res_id res = idIn → add alloc res t = Returns (status, t') →
    status = 0 ∧ lookup idIn t' = None.
Proof.
  intros Hnull.
  assert (∀ t0, lookup idIn t0 = None) as Hlook.
  { intros t0. unfold lookup. destruct (pTable t0); [|reflexivity].
    apply find_null. exact Hnull. }
  split; [apply Hlook|]. split.
  - unfold remove. destruct (pTable t); [|reflexivity].
    pose proof (unlink_find (bucket t (resTable_hash t idIn)) idIn) as Hu.
    rewrite (find_null _ _ Hnull) in Hu.
    destruct (unlink (bucket t (resTable_hash t idIn)) idIn) as [[item|] rest];
      [discriminate|reflexivity].
  - intros alloc res status t' Hid Hadd. split; [|apply Hlook].
    subst idIn. unfold add in Hadd.
    destruct (pTable t).
    + destruct (nInUse t >=? tableSize t).
      * destruct (splitBucket alloc t) as [t1| |]; try discriminate.
        change (mbind ?f (Returns ?a)) with (f a) in Hadd. cbv beta in Hadd.
        rewrite (find_null _ _ Hnull) in Hadd.
        exact (add_tail_null res t1 status t' Hnull Hadd).
      * exact (add_tail_null res t status t' Hnull Hadd).
    + destruct (setTableSizePrivate alloc 10 t) as [[b t1]| |]; try discriminate.
      change (mbind ?f (Returns ?a)) with (f a) in Hadd. cbv beta iota in Hadd.
      exact (add_tail_null res t1 status t' Hnull Hadd).
Qed.

End NullString.

End StringIdTable.

(** ** The string hash *)

Module StringIdHash.
Import StringId StringIdFacts StringIdLanes.

Lemma table_length : length fastHashPermutedIndexSpace = 256%nat.
Proof. reflexivity. Qed.

Lemma table_bytes : Forall (λ x, 0 ≤ x < 256) fastHashPermutedIndexSpace.
Proof.
  assert (bool_decide (Forall (λ x, 0 ≤ x < 256) fastHashPermutedIndexSpace) = true)
    as Hd by (vm_compute; reflexivity).
  exact (bool_decide_eq_true_1 _ Hd).
Qed.

Lemma table_NoDup : NoDup fastHashPermutedIndexSpace.
Proof.
  assert (bool_decide (NoDup fastHashPermutedIndexSpace) = true)
    as Hd by (vm_compute; reflexivity).
  exact (bool_decide_eq_true_1 _ Hd).
Qed.

Lemma permute_lookup (i : Z) :
  0 ≤ i < 256 → fastHashPermutedIndexSpace !! Z.to_nat i = Some (permute i).
Proof.
  intros Hi. unfold permute.
  destruct (lookup_lt_is_Some_2 fastHashPermutedIndexSpace (Z.to_nat i)) as [x Hx].
  { rewrite table_length. lia. }
  rewrite Hx. f_equal. symmetry. apply nth_lookup_Some with (d := 0). exact Hx.
Qed.

Lemma permute_range (i : Z) : 0 ≤ permute i < 256.
Proof.
  unfold permute. rewrite nth_lookup.
  destruct (fastHashPermutedIndexSpace !! Z.to_nat i) as [x|] eqn:Hx; simpl; [|lia].
  exact (Forall_lookup_1 _ _ _ _ table_bytes Hx).
Qed.

(** The table is a permutation of the values of an [unsigned char]. *)
Lemma permute_injective (i j : Z) :
  0 ≤ i < 256 → 0 ≤ j < 256 → permute i = permute j → i = j.
Proof.
  intros Hi Hj Heq.
  pose proof (permute_lookup i Hi) as Li. pose proof (permute_lookup j Hj) as Lj.
  rewrite Heq in Li.
  pose proof (NoDup_lookup _ _ _ _ table_NoDup Li Lj). lia.
Qed.

Lemma to_Z_range (b : byte) : 0 ≤ to_Z b < 256.
Proof.
  unfold to_Z. pose proof (Byte.to_N_bounded b) as Hb. lia.
Qed.

Lemma lxor_bytes (a b : Z) : 0 ≤ a < 256 → 0 ≤ b < 256 → 0 ≤ Z.lxor a b < 256.
Proof.
  intros Ha Hb.
  assert (0 ≤ Z.lxor a b) as Hx by (apply Z.lxor_nonneg; lia).
  split; [exact Hx|].
  destruct (Z.eq_dec (Z.lxor a b) 0) as [->|Hnz]; [lia|].
  change 256 with (2 ^ 8). apply Z.log2_lt_pow2; [lia|].
  pose proof (Z.log2_lxor a b ltac:(lia) ltac:(lia)) as Hl.
  assert (Z.log2 a < 8).
  { destruct (Z.eq_dec a 0) as [->|]; [simpl; lia|]. apply Z.log2_lt_pow2; lia. }
  assert (Z.log2 b < 8).
  { destruct (Z.eq_dec b 0) as [->|]; [simpl; lia|]. apply Z.log2_lt_pow2; lia. }
  lia.
Qed.

Lemma lxor_cancel_r (a b c : Z) : Z.lxor a c = Z.lxor b c → a = b.
Proof.
  intros Heq.
  rewrite <- (Z.lxor_0_r a), <- (Z.lxor_0_r b), <- (Z.lxor_nilpotent c).
  rewrite <- !Z.lxor_assoc, Heq. reflexivity.
Qed.

Lemma lxor_cancel_l (a b c : Z) : Z.lxor c a = Z.lxor c b → a = b.
Proof. rewrite !(Z.lxor_comm c). apply lxor_cancel_r. Qed.

Lemma hash_loop_step (b : byte) (s : c_str) (j : nat) (h : lanes) :
  hash_loop (b :: s) j h
  = if to_Z b =? 0 then h else hash_loop s (next_lane j) (step j (to_Z b) h).
Proof. destruct j as [|[|[|j]]]; reflexivity. Qed.

Lemma next_lane_lt (j : nat) : (next_lane j < 4)%nat.
Proof. destruct j as [|[|[|j]]]; simpl; lia. Qed.

(** The accumulator a step writes, and the ones it leaves alone. *)
Lemma lane_step (k j : nat) (c : Z) (h : lanes) :
  (k < 4)%nat → (j < 4)%nat →
  lane k (step j c h)
  = if decide (k = j) then permute (Z.lxor (lane k h) c) else lane k h.
Proof.
  intros Hk Hj.
  destruct k as [|[|[|[|k]]]]; try lia;
    destruct j as [|[|[|[|j]]]]; try lia; reflexivity.
Qed.

Lemma bytes_lanes (h : lanes) :
  bytes h ↔ ∀ k : nat, (k < 4)%nat → 0 ≤ lane k h < 256.
Proof.
  split; [intros Hb k _; apply Hb|].
  intros Hb j. destruct j as [|[|[|j]]].
  - apply (Hb 0%nat). lia.
  - apply (Hb 1%nat). lia.
  - apply (Hb 2%nat). lia.
  - apply (Hb 3%nat). lia.
Qed.

Lemma step_bytes (j : nat) (c : Z) (h : lanes) :
  (j < 4)%nat → bytes h → bytes (step j c h).
Proof.
  intros Hj Hb. apply bytes_lanes. intros k Hk.
  rewrite lane_step by assumption.
  destruct (decide (k = j)); [apply permute_range|apply Hb].
Qed.

Lemma hash_loop_bytes (s : c_str) : ∀ (j : nat) (h : lanes),
  (j < 4)%nat → bytes h → bytes (hash_loop s j h).
Proof.
  induction s as [|b s IH]; intros j h Hj Hb; [exact Hb|].
  rewrite hash_loop_step. destruct (to_Z b =? 0); [exact Hb|].
  apply IH; [apply next_lane_lt|apply step_bytes; assumption].
Qed.

Lemma bytes_init : bytes (Lanes 0 0 0 0).
Proof. intros j. destruct j as [|[|[|j]]]; simpl; lia. Qed.

Lemma packed_range (h : lanes) : 0 ≤ packed h < 2 ^ 32.
Proof. unfold packed. apply u32_range. Qed.

Lemma hash_packed (a : stringId) (s : c_str) :
  pStr a = Some s →
  hash a = integerHash_rounds stringIdMinIndexWidth stringIdMaxIndexWidth
             (packed (hash_loop s 0 (Lanes 0 0 0 0))).
Proof.
  intros Hs. unfold hash. rewrite Hs.
  change (u32 (Z.lor (Z.lor (Z.lor (u32 (Z.shiftl (h3 ?h) 24))
                                    (u32 (Z.shiftl (h2 ?h) 16)))
                             (u32 (Z.shiftl (h1 ?h) 8)))
                      (h0 ?h)))
    with (packed h).
  rewrite to_resTableIndex_small; [reflexivity|].
  pose proof (packed_range (hash_loop s 0 (Lanes 0 0 0 0))). lia.
Qed.

(** The hash of a string identifier is what its call of [integerHash]
    returns. *)
Lemma hash_integerHash (a : stringId) (s : c_str) :
  pStr a = Some s →
  integerHash stringIdMinIndexWidth stringIdMaxIndexWidth
    (packed (hash_loop s 0 (Lanes 0 0 0 0))) = Returns (hash a).
Proof.
  intros Hs. rewrite integerHash_returns by (vm_compute; reflexivity).
  rewrite (hash_packed a s Hs).
  rewrite to_resTableIndex_small; [reflexivity|].
  pose proof (packed_range (hash_loop s 0 (Lanes 0 0 0 0))). lia.
Qed.

(** X19. The accumulators of [stringId::hash] hold values of an
    [unsigned char] throughout, so that every index [h ^ c] into
    [fastHashPermutedIndexSpace] lies within its 256 entries, and the hash
    of every identifier is a value of an [unsigned]. *)
Theorem hash_stays_within_the_table (a : stringId) :
  (∀ (s : c_str) (j : nat) (h : lanes),
     (j < 4)%nat → bytes h →
     bytes (hash_loop s j h) ∧
     ∀ (k : nat) (b : byte), 0 ≤ Z.lxor (lane k (hash_loop s j h)) (to_Z b) < 256) ∧
  0 ≤ hash a < 2 ^ 32.
Proof.
  split.
  - intros s j h Hj Hb.
    pose proof (hash_loop_bytes s j h Hj Hb) as Hb'.
    split; [exact Hb'|].
    intros k b. apply lxor_bytes; [apply Hb'|apply to_Z_range].
  - destruct (pStr a) as [s|] eqn:Hs; [|unfold hash; rewrite Hs; lia].
    rewrite (hash_packed a s Hs).
    unfold integerHash_rounds, stringIdMaxIndexWidth.
    apply integerHash_loop_range; [lia|apply packed_range].
Qed.

(** Packing the four accumulators loses nothing. *)
Lemma lor_shiftl_add (a b k : Z) :
  0 ≤ k → 0 ≤ b < 2 ^ k → Z.lor (Z.shiftl a k) b = Z.shiftl a k + b.
Proof.
  intros Hk Hb.
  assert (Z.land (Z.shiftl a k) b = 0) as Hland.
  { apply Z.bits_inj'. intros i Hi. rewrite Z.land_spec, Z.bits_0.
    destruct (Z.lt_ge_cases i k) as [Hlt|Hge].
    - rewrite Z.shiftl_spec_low by lia. reflexivity.
    - destruct (Z.eq_dec b 0) as [->|Hnz]; [rewrite Z.bits_0; apply andb_false_r|].
      rewrite (Z.bits_above_log2 b i); [apply andb_false_r|lia|].
      assert (Z.log2 b < k) by (apply Z.log2_lt_pow2; lia). lia. }
  rewrite <- Z.lxor_lor by exact Hland.
  symmetry. apply Z.add_nocarry_lxor. exact Hland.
Qed.

Lemma packed_sum (h : lanes) :
  bytes h →
  packed h = h0 h + 2 ^ 8 * h1 h + 2 ^ 16 * h2 h + 2 ^ 24 * h3 h.
Proof.
  intros Hb.
  pose proof (Hb 0%nat) as B0. pose proof (Hb 1%nat) as B1.
  pose proof (Hb 2%nat) as B2. pose proof (Hb 3%nat) as B3. simpl in B0, B1, B2, B3.
  unfold packed.
  rewrite !Z.shiftl_mul_pow2 by lia.
  rewrite (u32_small (h3 h * 2 ^ 24)) by lia.
  rewrite (u32_small (h2 h * 2 ^ 16)) by lia.
  rewrite (u32_small (h1 h * 2 ^ 8)) by lia.
  assert (Z.lor (h3 h * 2 ^ 24) (h2 h * 2 ^ 16) = h3 h * 2 ^ 24 + h2 h * 2 ^ 16) as ->.
  { replace (h3 h * 2 ^ 24) with (Z.shiftl (h3 h) 24)
      by (rewrite Z.shiftl_mul_pow2; lia).
    apply lor_shiftl_add; lia. }
  assert (Z.lor (h3 h * 2 ^ 24 + h2 h * 2 ^ 16) (h1 h * 2 ^ 8)
          = h3 h * 2 ^ 24 + h2 h * 2 ^ 16 + h1 h * 2 ^ 8) as ->.
  { replace (h3 h * 2 ^ 24 + h2 h * 2 ^ 16)
      with (Z.shiftl (h3 h * 2 ^ 8 + h2 h) 16)
      by (rewrite Z.shiftl_mul_pow2; lia).
    rewrite lor_shiftl_add by lia. reflexivity. }
  assert (Z.lor (h3 h * 2 ^ 24 + h2 h * 2 ^ 16 + h1 h * 2 ^ 8) (h0 h)
          = h3 h * 2 ^ 24 + h2 h * 2 ^ 16 + h1 h * 2 ^ 8 + h0 h) as ->.
  { replace (h3 h * 2 ^ 24 + h2 h * 2 ^ 16 + h1 h * 2 ^ 8)
      with (Z.shiftl (h3 h * 2 ^ 16 + h2 h * 2 ^ 8 + h1 h) 8)
      by (rewrite Z.shiftl_mul_pow2; lia).
    rewrite lor_shiftl_add by lia. reflexivity. }
  rewrite u32_small by lia. lia.
Qed.

Lemma packed_differ (j : nat) (h h' : lanes) :
  (j < 4)%nat → bytes h → bytes h' → differ_in j h h' → packed h ≠ packed h'.
Proof.
  intros Hj Hb Hb' [Hne _] Heq.
  rewrite (packed_sum h Hb), (packed_sum h' Hb') in Heq.
  pose proof (Hb 0%nat) as B0. pose proof (Hb 1%nat) as B1.
  pose proof (Hb 2%nat) as B2. pose proof (Hb 3%nat) as B3.
  pose proof (Hb' 0%nat) as C0. pose proof (Hb' 1%nat) as C1.
  pose proof (Hb' 2%nat) as C2. pose proof (Hb' 3%nat) as C3.
  simpl in B0, B1, B2, B3, C0, C1, C2, C3.
  apply Hne. destruct j as [|[|[|j]]]; simpl; lia.
Qed.

(** A byte that both strings have keeps the accumulators apart. *)
Lemma step_differ (j k : nat) (c : Z) (h h' : lanes) :
  (j < 4)%nat → (k < 4)%nat → 0 ≤ c < 256 → bytes h → bytes h' →
  differ_in k h h' → differ_in k (step j c h) (step j c h').
Proof.
  intros Hj Hk Hc Hb Hb' [Hne Hsame]. split.
  - rewrite !lane_step by assumption.
    destruct (decide (k = j)) as [_|_]; [|exact Hne].
    intros Heq. apply Hne.
    apply permute_injective in Heq;
      [|apply lxor_bytes; [first [apply Hb|apply Hb']|exact Hc]..].
    exact (lxor_cancel_r _ _ _ Heq).
  - intros i Hi Hik. rewrite !lane_step by assumption.
    rewrite (Hsame i Hi Hik). reflexivity.
Qed.

Lemma hash_loop_differ (s : c_str) (k : nat) : ∀ (j : nat) (h h' : lanes),
  (j < 4)%nat → (k < 4)%nat → bytes h → bytes h' → differ_in k h h' →
  differ_in k (hash_loop s j h) (hash_loop s j h').
Proof.
  induction s as [|b s IH]; intros j h h' Hj Hk Hb Hb' Hd; [exact Hd|].
  rewrite !hash_loop_step. destruct (to_Z b =? 0); [exact Hd|].
  apply IH; [apply next_lane_lt|exact Hk|apply step_bytes; assumption..|].
  apply step_differ; try assumption. apply to_Z_range.
Qed.

(** Different bytes at the same place set the accumulators apart. *)
Lemma step_apart (j : nat) (x y : byte) (h : lanes) :
  (j < 4)%nat → bytes h → x ≠ y →
  differ_in j (step j (to_Z x) h) (step j (to_Z y) h).
Proof.
  intros Hj Hb Hxy. split.
  - rewrite !lane_step by assumption.
    destruct (decide (j = j)) as [_|]; [|congruence].
    intros Heq.
    apply permute_injective in Heq;
      [|apply lxor_bytes; [apply Hb|apply to_Z_range]..].
    apply lxor_cancel_l in Heq. apply Hxy. apply to_Z_inj. exact Heq.
  - intros i Hi Hij. rewrite !lane_step by assumption.
    destruct (decide (i = j)); [contradiction|reflexivity].
Qed.

(** The bytes in front of the place where two strings differ. *)
Lemma hash_loop_prefix (p : list byte) : ∀ (j : nat) (h : lanes),
  Forall (λ b, to_Z b ≠ 0) p → (j < 4)%nat → bytes h →
  ∃ (j' : nat) (h' : lanes),
    (j' < 4)%nat ∧ bytes h' ∧
    ∀ s, hash_loop (p ++ s) j h = hash_loop s j' h'.
Proof.
  induction p as [|b p IH]; intros j h Hp Hj Hb.
  - exists j, h. auto.
  - pose proof (Forall_inv Hp) as Hnz. apply Forall_inv_tail in Hp.
    destruct (IH (next_lane j) (step j (to_Z b) h) Hp (next_lane_lt j)
                (step_bytes j _ h Hj Hb)) as (j' & h' & Hj' & Hb' & Heq).
    exists j', h'. split; [exact Hj'|]. split; [exact Hb'|].
    intros s. rewrite <- app_comm_cons, hash_loop_step.
    destruct (Z.eqb_spec (to_Z b) 0); [contradiction|]. apply Heq.
Qed.

(** X20. Two strings that differ in one byte and are the same before and
    after it never have the same hash: the table is a permutation of the
    values of a byte, so the accumulator that takes the byte differs from
    there on, and neither the packing nor [integerHash] with the widths 8
    and 4 maps two words to one. *)
Theorem one_byte_apart_hashes_apart (p q : list byte) (x y : byte)
    (typeIn typeIn' : allocationType) :
  Forall (λ b, to_Z b ≠ 0) p → to_Z x ≠ 0 → to_Z y ≠ 0 → x ≠ y →
  hash (StringId (Some (p ++ x :: q)) typeIn)
  ≠ hash (StringId (Some (p ++ y :: q)) typeIn').
Proof.
  intros Hp Hx Hy Hxy Heq.
  rewrite (hash_packed (StringId (Some (p ++ x :: q)) typeIn) _ eq_refl) in Heq.
  rewrite (hash_packed (StringId (Some (p ++ y :: q)) typeIn') _ eq_refl) in Heq.
  destruct (hash_loop_prefix p 0 (Lanes 0 0 0 0) Hp ltac:(lia) bytes_init)
    as (j & h & Hj & Hb & Hpre).
  rewrite !Hpre, !hash_loop_step in Heq.
  destruct (Z.eqb_spec (to_Z x) 0); [contradiction|].
  destruct (Z.eqb_spec (to_Z y) 0); [contradiction|].
  pose proof (step_apart j x y h Hj Hb Hxy) as Hd.
  pose proof (step_bytes j (to_Z x) h Hj Hb) as Hbx.
  pose proof (step_bytes j (to_Z y) h Hj Hb) as Hby.
  pose proof (hash_loop_differ q j (next_lane j) _ _ (next_lane_lt j) Hj Hbx Hby Hd)
    as Hd'.
  pose proof (hash_loop_bytes q (next_lane j) _ (next_lane_lt j) Hbx) as Hbx'.
  pose proof (hash_loop_bytes q (next_lane j) _ (next_lane_lt j) Hby) as Hby'.
  apply (packed_differ j _ _ Hj Hbx' Hby' Hd').
  unfold integerHash_rounds, stringIdMinIndexWidth, stringIdMaxIndexWidth in Heq.
  apply (integerHash_loop_injective 8 4); [lia|lia| | |exact Heq];
    apply packed_range.
Qed.

End StringIdHash.

(** ** Looking up what the chronological table has numbered *)

Section ChronologicalLookup.
Context {B : Type}.
Implicit Types (c : chronIntIdResTable B) (item : chronIntIdRes B).

Lemma item_eta item : item = setId (idOf item) item.
Proof. destruct item as [[i] b]. reflexivity. Qed.

(** X21. On a new chronological table, [n] calls of [add] with [n] up to
    2^30 leave a table in which [lookup] finds the item of call number
    [j + 1] under the identifier [j + 1], with that identifier set in it,
    and finds nothing under any other identifier;
    [numEntriesInstalled ()] is [n]. *)
Theorem chronological_items_are_found (rounds : nat) (alloc : nat → nat → bool)
    (items : list (chronIntIdRes B)) :
  (0 < rounds)%nat → alloc 0%nat 0%nat = true →
  Z.of_nat (length items) ≤ 2 ^ 30 →
  ∃ installed c',
    chron_adds rounds alloc 0 items chronIntIdResTable_new
      = Some (Returns (installed, c')) ∧
    (∀ (j : nat) item, items !! j = Some item →
       lookup (IntId (Z.of_nat j + 1) : chronIntId) (table c')
       = Some (setId (Z.of_nat j + 1) item)) ∧
    (∀ i : Z, ¬ (1 ≤ i ≤ Z.of_nat (length items)) →
       lookup (IntId i : chronIntId) (table c') = None) ∧
    numEntriesInstalled (table c') = Z.of_nat (length items).
Proof.
  intros Hrounds Halloc Hlen.
  destruct (chron_adds_spec rounds alloc items 0%nat 0 chronIntIdResTable_new
              Hrounds ltac:(lia) chron_after_new ltac:(lia) (λ _, Halloc))
    as (installed & c' & Hrun & Hids & Hbody & Hc' & Hp).
  simpl in Hp. rewrite app_nil_r in Hp.
  destruct Hc' as [Hok _ Hcnt Hrange _ _].
  exists installed, c'. split; [exact Hrun|].
  assert (∀ idIn, lookup idIn (table c') = find installed idIn) as Hlook
    by (intros idIn; exact (lookup_of_residents (table c') installed idIn Hok Hp)).
  split; [|split].
  - intros j item Hj. rewrite Hlook.
    assert (is_Some (installed !! j)) as [x Hx].
    { apply lookup_lt_is_Some.
      rewrite <- (length_fmap body installed), Hbody, length_fmap.
      apply lookup_lt_is_Some. eauto. }
    assert (idOf x = Z.of_nat j + 1) as Hidx.
    { assert ((idOf <$> installed) !! j = Some (idOf x)) as Hl
        by (rewrite list_lookup_fmap, Hx; reflexivity).
      rewrite Hids in Hl. apply lookup_seqZ in Hl. lia. }
    assert (body x = body item) as Hbx.
    { assert ((body <$> installed) !! j = Some (body x)) as Hl
        by (rewrite list_lookup_fmap, Hx; reflexivity).
      rewrite Hbody, list_lookup_fmap, Hj in Hl. simpl in Hl. congruence. }
    assert (x = setId (Z.of_nat j + 1) item) as Hxe.
    { rewrite (item_eta x), Hidx. unfold setId. rewrite Hbx. reflexivity. }
    rewrite <- Hxe.
    apply find_unique.
    + apply (distinct_ids_perm (residents (table c'))); [exact Hp|].
      exact (ok_distinct _ Hok).
    + exact (list_elem_of_lookup_2 _ _ _ Hx).
    + simpl. fold (idOf x). rewrite Hidx. apply Z.eqb_refl.
  - intros i Hi. rewrite Hlook. apply find_None.
    intros r Hr. rewrite <- Hp in Hr. specialize (Hrange r Hr).
    simpl. fold (idOf r). apply Z.eqb_neq. lia.
  - unfold numEntriesInstalled. rewrite Hcnt. lia.
Qed.

End ChronologicalLookup.

(** ** The further theorems at work on the small tables *)

Lemma full_ok : table_ok Sample.full.
Proof. apply sample_state_ok. vm_compute. reflexivity. Qed.

Lemma iterator_returns_the_traversal_witness :
  nexts 10 Sample.full (resTableIter_new Sample.full)
  = (Some <$> (Sample.item <$> [8; 1; 2; 3; 4; 5; 6; 7])) ++ [None; None].
Proof.
  rewrite (iterator_returns_the_traversal 10 Sample.full full_ok).
  vm_compute. reflexivity.
Defined.

Lemma remove_returns_what_lookup_finds_witness :
  (remove (IntId 3 : chronIntId) Sample.full).1 = Some (Sample.item 3) ∧
  (remove (IntId 30 : chronIntId) Sample.full).2 = Sample.full.
Proof.
  split.
  - rewrite (proj1 (remove_returns_what_lookup_finds (IntId 3 : chronIntId) Sample.full)).
    vm_compute. reflexivity.
  - apply (proj2 (remove_returns_what_lookup_finds (IntId 30 : chronIntId) Sample.full)).
    vm_compute. reflexivity.
Defined.

Lemma remove_takes_one_entry_out_witness :
  ∃ t', remove (IntId 3 : chronIntId) Sample.full = (Some (Sample.item 3), t') ∧
        lookup (IntId 3 : chronIntId) t' = None ∧
        lookup (IntId 4 : chronIntId) t' = Some (Sample.item 4) ∧
        numEntriesInstalled t' = 7.
Proof.
  destruct (remove_takes_one_entry_out (IntId 3 : chronIntId) Sample.full (Sample.item 3))
    as (t' & Hrm & _ & _ & Hl & Hn & _).
  - exact full_ok.
  - vm_compute. reflexivity.
  - exists t'. split; [exact Hrm|].
    split; [rewrite Hl; vm_compute; reflexivity|].
    split; [rewrite Hl; vm_compute; reflexivity|].
    rewrite Hn. vm_compute. reflexivity.
Defined.

Lemma lookup_finds_the_visited_entries_witness :
  Sample.item 3 ∈ visited Sample.full ∧
  lookup (IntId 3 : chronIntId) Sample.full = Some (Sample.item 3).
Proof.
  assert (lookup (IntId 3 : chronIntId) Sample.full = Some (Sample.item 3)) as Hl
    by (vm_compute; reflexivity).
  split; [|exact Hl].
  exact (proj1 (proj1 (lookup_finds_the_visited_entries (IntId 3 : chronIntId)
                         Sample.full (Sample.item 3) full_ok) Hl)).
Defined.

Lemma add_then_remove_witness :
  ∃ t2, remove (IntId 9 : chronIntId) Examples.nine = (Some (Sample.item 9), t2) ∧
        numEntriesInstalled t2 = 8 ∧
        lookup (IntId 8 : chronIntId) t2 = Some (Sample.item 8).
Proof.
  destruct (add_then_remove true (Sample.item 9) Sample.full 0 Examples.nine)
    as (_ & _ & t2 & Hrm & _ & Hl & Hn & _).
  - exact full_ok.
  - vm_compute. reflexivity.
  - vm_compute. reflexivity.
  - exists t2. split; [exact Hrm|].
    split; [rewrite Hn; vm_compute; reflexivity|].
    rewrite Hl. vm_compute. reflexivity.
Defined.

Lemma bucket_index_within_array_witness :
  0 ≤ resTable_hash (Sample.state_after Sample.ops) (IntId 12345 : chronIntId)
    < tableSize (Sample.state_after Sample.ops).
Proof.
  destruct (bucket_index_within_array Sample.ops (Sample.state_after Sample.ops)
              (IntId 12345 : chronIntId)) as (Hh & _).
  - vm_compute. reflexivity.
  - vm_compute. eauto.
  - exact Hh.
Defined.

Lemma setTableSize_rounds_up_to_a_power_of_two_witness :
  ∃ t : resTable (chronIntIdRes unit),
    setTableSize true 1000 resTable_new = Returns t ∧
    Z.of_nat (length (buckets t)) = 1024 ∧ tableSize t = 512.
Proof.
  destruct (proj1 (setTableSize_rounds_up_to_a_power_of_two
                     (T := chronIntIdRes unit) (ID := chronIntId) 1000))
    as (t & k & Hrun & Hk & Hup & Hdown & Hlen & _ & Hsz & _); [lia|].
  assert (k = 10) as ->.
  { destruct (Z.lt_trichotomy k 10) as [Hlt|[Heq|Hgt]]; [|exact Heq|].
    - assert (2 ^ k ≤ 2 ^ 9) by (apply Z.pow_le_mono_r; lia). lia.
    - assert (2 ^ 10 ≤ 2 ^ (k - 1)) by (apply Z.pow_le_mono_r; lia).
      specialize (Hdown ltac:(lia)). lia. }
  exists t. split; [exact Hrun|]. split; [exact Hlen|exact Hsz].
Defined.

Lemma setTableSize_hint_above_range_witness :
  setTableSize true (2 ^ 31 + 1) Sample.full = Undefined.
Proof.
  apply setTableSize_hint_above_range; [exact full_ok|lia].
Defined.

Lemma setTableSize_largest_hint_witness :
  setTableSize false (2 ^ 30 + 1) (resTable_new (T := chronIntIdRes unit)) = Undefined ∧
  setTableSize true (2 ^ 31) Sample.full = Undefined.
Proof.
  split; apply setTableSize_largest_hint; lia.
Defined.

Lemma add_splits_at_most_one_bucket_witness :
  tableSize Examples.nine = tableSize Sample.full + 1.
Proof.
  destruct (add_splits_at_most_one_bucket true (Sample.item 9) Sample.full 0 Examples.nine)
    as (_ & _ & Hfull).
  - exact full_ok.
  - vm_compute. eauto.
  - vm_compute. reflexivity.
  - apply Hfull; [|reflexivity]. apply Z.leb_le. vm_compute. reflexivity.
Defined.

Lemma entries_never_exceed_buckets_witness :
  numEntriesInstalled Examples.nine ≤ tableSize Examples.nine.
Proof.
  destruct (entries_never_exceed_buckets (take 10 Sample.ops) Examples.nine)
    as [_ Hle]; [| |exact Hle].
  - intros alloc res Hin. unfold Sample.ops in Hin. simpl take in Hin.
    repeat (apply elem_of_cons in Hin as [Hin|Hin];
            [first [discriminate Hin | injection Hin as -> _; reflexivity]|]).
    apply elem_of_nil in Hin. contradiction.
  - vm_compute. reflexivity.
Defined.

Lemma adds_within_the_bucket_array_witness :
  ∃ t', run [OpAdd false (Sample.item 9); OpAdd false (Sample.item 10)] Sample.full
          = Returns t' ∧
        length (buckets t') = 16%nat.
Proof.
  destruct (adds_within_the_bucket_array
              [(false, Sample.item 9); (false, Sample.item 10)] Sample.full)
    as (t' & Hrun & _ & _ & _ & Hlen).
  - exact full_ok.
  - vm_compute. eauto.
  - apply Z.leb_le. vm_compute. reflexivity.
  - exists t'. split; [exact Hrun|]. rewrite Hlen. vm_compute. reflexivity.
Defined.

Lemma table_never_shrinks_witness :
  tableSize Sample.full ≤ tableSize (Sample.state_after Sample.ops) ∧
  (length (buckets Sample.full) ≤ length (buckets (Sample.state_after Sample.ops)))%nat.
Proof.
  destruct (table_never_shrinks (drop 9 Sample.ops) Sample.full
              (Sample.state_after Sample.ops)) as (Hsz & Hlen & _).
  - exact full_ok.
  - vm_compute. reflexivity.
  - split; [exact Hsz|exact Hlen].
Defined.

Lemma split_redistributes_one_bucket_witness :
  nextSplitIndex Examples.split_full = 1 ∧ tableSize Examples.split_full = 9 ∧
  bucket Examples.split_full 8 = [Sample.item 8].
Proof.
  destruct (split_redistributes_one_bucket true Sample.full Examples.split_full)
    as [(Hf & _)|(Hnx & Hsz & _ & _ & _ & HbN & _)].
  - exact full_ok.
  - vm_compute. eauto.
  - vm_compute. reflexivity.
  - discriminate Hf.
  - split; [|split].
    + rewrite Hnx. vm_compute. reflexivity.
    + rewrite Hsz. vm_compute. reflexivity.
    + transitivity (bucket Examples.split_full (tableSize Sample.full));
        [vm_compute; reflexivity|].
      rewrite HbN. vm_compute. reflexivity.
Defined.

Lemma integerHash_min_width_0_witness :
  integerHash 0 32 123456 = Returns 0 ∧ integerHash 8 1 5 = Returns 0.
Proof.
  split.
  - destruct (integerHash_min_width_0 32) as (Hzero & _);
      [lia|vm_compute; reflexivity|]. apply Hzero.
  - destruct (integerHash_min_width_0 1) as (_ & _ & Hnarrow);
      [lia|vm_compute; reflexivity|]. apply Hnarrow. lia.
Defined.

Lemma integerHash_separates_integers_witness :
  ∃ ha hb, integerHash 8 32 1 = Returns ha ∧ integerHash 8 32 257 = Returns hb ∧
           ha ≠ hb.
Proof.
  destruct (integerHash_separates_integers 8 32 1 257) as [Hapart Hcast];
    [lia|lia|vm_compute; reflexivity|].
  apply Hapart. apply Hcast; [unfold SIZE_WIDTH; lia..|lia].
Defined.

Lemma integerHash_within_width_witness :
  ∃ h, integerHash 8 32 (2 ^ 32 - 1) = Returns h ∧ 0 ≤ h < 2 ^ 32.
Proof.
  apply integerHash_within_width; [lia|lia|vm_compute; reflexivity|lia|lia].
Defined.

Lemma equal_compares_the_strings_witness :
  StringId.equal (StringId.StringId (Some Sample.name_in_buffer) StringId.refString)
                 (StringId.StringId (Some Sample.name) StringId.refString) = true.
Proof.
  destruct (StringIdTable.equal_compares_the_strings
              (StringId.StringId (Some Sample.name_in_buffer) StringId.refString)
              (StringId.StringId (Some Sample.name) StringId.refString)
              (StringId.StringId (Some Sample.name) StringId.refString))
    as (_ & _ & _ & _ & Hiff).
  apply Hiff. exists Sample.name_in_buffer, Sample.name.
  split; [reflexivity|]. split; reflexivity.
Defined.

Lemma null_string_is_never_found_witness :
  @residents _ Examples.with_nameless = [Examples.nameless] ∧
  @lookup _ _ _ Examples.named Examples.nameless Examples.with_nameless = None ∧
  @remove _ _ _ Examples.named Examples.nameless Examples.with_nameless
  = (None, Examples.with_nameless).
Proof.
  split; [vm_compute; reflexivity|].
  destruct (StringIdTable.null_string_is_never_found (Resource0 := Examples.named)
              Examples.with_nameless Examples.nameless eq_refl) as (Hl & Hr & _).
  split; [exact Hl|exact Hr].
Defined.

Lemma hash_stays_within_the_table_witness :
  StringIdLanes.bytes (StringId.hash_loop Sample.name 0 (StringId.Lanes 0 0 0 0)) ∧
  0 ≤ StringId.hash (StringId.StringId (Some Sample.name) StringId.refString) < 2 ^ 32.
Proof.
  destruct (StringIdHash.hash_stays_within_the_table
              (StringId.StringId (Some Sample.name) StringId.refString)) as [Hloop Hr].
  split; [|exact Hr].
  apply (Hloop Sample.name 0%nat (StringId.Lanes 0 0 0 0)); [lia|].
  intros [|[|[|j]]]; simpl; lia.
Defined.

Lemma one_byte_apart_hashes_apart_witness :
  StringId.hash (StringId.StringId (Some ["A"; "B"]%byte) StringId.copyString)
  ≠ StringId.hash (StringId.StringId (Some ["A"; "C"]%byte) StringId.refString).
Proof.
  apply (StringIdHash.one_byte_apart_hashes_apart ["A"%byte] [] "B"%byte "C"%byte).
  - constructor; [|constructor]. vm_compute. discriminate.
  - vm_compute. discriminate.
  - vm_compute. discriminate.
  - discriminate.
Defined.

Lemma chronological_items_are_found_witness :
  ∃ installed c',
    chron_adds 1 (λ _ _, true) 0
      [chronIntIdRes_new tt; chronIntIdRes_new tt; chronIntIdRes_new tt]
      chronIntIdResTable_new = Some (Returns (installed, c')) ∧
    lookup (IntId 2 : chronIntId) (table c') = Some (Sample.item 2) ∧
    lookup (IntId 7 : chronIntId) (table c') = None.
Proof.
  destruct (chronological_items_are_found 1%nat (λ _ _, true)
              [chronIntIdRes_new tt; chronIntIdRes_new tt; chronIntIdRes_new tt])
    as (installed & c' & Hrun & Hfound & Hnone & _); [lia|reflexivity|simpl; lia|].
  exists installed, c'. split; [exact Hrun|]. split.
  - exact (Hfound 1%nat (chronIntIdRes_new tt) eq_refl).
  - apply Hnone. simpl. lia.
Defined.

Lemma first_add_allocates_1024_chains_witness :
  ∃ t', add true (Sample.item 1) resTable_new = Returns (0, t') ∧
        tableSize t' = 512 ∧ lookup (IntId 1 : chronIntId) t' = Some (Sample.item 1).
Proof.
  destruct (first_add_allocates_1024_chains (Sample.item 1))
    as (t' & Hadd & _ & Hsz & _ & _ & Hl).
  exists t'. split; [exact Hadd|]. split; [exact Hsz|exact Hl].
Defined.

(** ** The chronological table at 2^30 entries *)

Section ChronologicalLimit.
Context {B : Type}.
Implicit Types (c : chronIntIdResTable B) (item : chronIntIdRes B).




End ChronologicalLimit.

